(** * auraloss.freq: spectral losses, embedded and verified

    A shallow embedding of [auraloss/freq.py]: the single-resolution STFT
    loss, the multi-resolution and random-resolution ensembles and the
    sum-and-difference stereo wrapper.

    Floating-point tensors are read in exact arithmetic: a tensor element is
    a real number of the Standard Library.  Python exceptions are explicit
    (a [result] type), and the mutable state of the random-resolution
    ensemble is threaded through its methods together with the state of
    numpy's global random generator. *)

From Stdlib Require Import Reals ZArith List String Ascii Bool Arith.
From Stdlib Require Import DecimalString Lra Lia.
Import ListNotations.

Set Implicit Arguments.

(* ================================================================== *)
(** ** Python exceptions and results *)

Module Py.

Inductive exn : Type :=
| ValueError (msg : string)
| NameError (name : string)
| AttributeError (name : string)
| AssertionError
| TypeError
| ZeroDivisionError
| IndexError
| RuntimeError
| ParameterError.

Inductive result (A : Type) : Type :=
| Ok (a : A)
| Raise (e : exn).

Arguments Ok {A} a.
Arguments Raise {A} e.

Definition bind {A B : Type} (m : result A) (k : A -> result B) : result B :=
  match m with
  | Ok a => k a
  | Raise e => Raise e
  end.

(** An external call that either returns or raises the given exception. *)
Definition lift {A : Type} (e : exn) (o : option A) : result A :=
  match o with
  | Some a => Ok a
  | None => Raise e
  end.

(** [assert(b)] *)
Definition assert (b : bool) : result unit :=
  if b then Ok tt else Raise AssertionError.

(** What a call hands back: [None], a 0-dim tensor (a scalar), or a tuple
    of 0-dim tensors. *)
Inductive value : Type :=
| VNone
| VTensor (t : R)
| VTuple (l : list R).

(** [str(n)] for an integer, as an f-string prints it. *)
Definition str (n : Z) : string := NilZero.string_of_int (Z.to_int n).

End Py.

Import Py.

Declare Scope py_scope.
Delimit Scope py_scope with py.
Notation "x <- m ;; k" := (bind m (fun x => k))
  (at level 61, m at next level, right associativity) : py_scope.
Notation "' p <- m ;; k" := (bind m (fun p => k))
  (at level 61, p pattern, m at next level, right associativity) : py_scope.

(* ================================================================== *)
(** ** Tensors *)

Module Torch.

(** A tensor is its shape and its elements, read by multi-index.  Only
    the indices inside the shape are meaningful. *)
Record tensor (A : Type) : Type := mk_tensor
  { shape : list nat;
    at_ : list nat -> A }.

Arguments mk_tensor {A} shape at_.

Definition numel (s : list nat) : nat := fold_right Nat.mul 1%nat s.

(** All multi-indices of a shape, in row-major order. *)
Fixpoint indices (s : list nat) : list (list nat) :=
  match s with
  | [] => [[]]
  | d :: s' => flat_map (fun i => map (cons i) (indices s')) (seq 0 d)
  end.

Definition Rsum (l : list R) : R := fold_right Rplus 0%R l.

Definition elements (t : tensor R) : list R :=
  map (at_ t) (indices (shape t)).

(** [t.sum()] and [t.mean()] over every element. *)
Definition sum_all (t : tensor R) : R := Rsum (elements t).
Definition mean_all (t : tensor R) : R :=
  (sum_all t / INR (numel (shape t)))%R.

(** Elementwise unary operations keep the shape. *)
Definition tmap {A B : Type} (f : A -> B) (t : tensor A) : tensor B :=
  mk_tensor (shape t) (fun i => f (at_ t i)).

(** [t.size(-1)] *)
Definition size_last {A : Type} (t : tensor A) : result nat :=
  match rev (shape t) with
  | [] => Raise IndexError
  | n :: _ => Ok n
  end.

(** *** Broadcasting

    Shapes are aligned on their last dimension; two aligned dimensions
    are compatible when they are equal or one of them is 1. *)
Fixpoint broadcast_rev (a b : list nat) : option (list nat) :=
  match a, b with
  | [], _ => Some b
  | _, [] => Some a
  | x :: a', y :: b' =>
      if (x =? y)%nat then option_map (cons x) (broadcast_rev a' b')
      else if (x =? 1)%nat then option_map (cons y) (broadcast_rev a' b')
      else if (y =? 1)%nat then option_map (cons x) (broadcast_rev a' b')
      else None
  end.

Definition broadcast_shapes (a b : list nat) : option (list nat) :=
  option_map (@rev nat) (broadcast_rev (rev a) (rev b)).

(** The index an operand of shape [s] is read at, for the index [i] of
    the broadcast result: the trailing [length s] positions of [i], with
    0 wherever the operand has size 1. *)
Fixpoint expand (s i : list nat) : list nat :=
  match s, i with
  | d :: s', k :: i' => (if (d =? 1)%nat then 0%nat else k) :: expand s' i'
  | _, _ => []
  end.

Definition operand_index (s i : list nat) : list nat :=
  expand s (skipn (List.length i - List.length s) i).

Definition broadcast2 {A B C : Type} (f : A -> B -> C)
    (a : tensor A) (b : tensor B) : result (tensor C) :=
  match broadcast_shapes (shape a) (shape b) with
  | None => Raise RuntimeError
  | Some s =>
      Ok (mk_tensor s (fun i =>
            f (at_ a (operand_index (shape a) i))
              (at_ b (operand_index (shape b) i))))
  end.

(** [t.sum([-2,-1])]: the last two dimensions are summed away. *)
Definition sum_last2 (t : tensor R) : result (tensor R) :=
  match rev (shape t) with
  | n :: m :: lead =>
      Ok (mk_tensor (rev lead) (fun i =>
            Rsum (map (fun jk => at_ t (i ++ jk)) (indices [m; n]))))
  | _ => Raise IndexError
  end.

(** [t.unsqueeze(-1)] and [t.unsqueeze(0)] *)
Definition unsqueeze_last {A : Type} (t : tensor A) : tensor A :=
  mk_tensor (shape t ++ [1%nat]) (fun i => at_ t (removelast i)).

Definition unsqueeze_first {A : Type} (t : tensor A) : tensor A :=
  mk_tensor (1%nat :: shape t) (fun i => at_ t (tl i)).

(** [t.clamp(min=eps)] *)
Definition clamp_min (eps : R) (t : tensor R) : tensor R :=
  tmap (fun v => Rmax v eps) t.

(** [torch.norm(t, p="fro")] *)
Definition norm_fro (t : tensor R) : R :=
  sqrt (Rsum (map (fun v => v ^ 2)%R (elements t))).

(** [torch.nn.functional.l1_loss(a, b)] with its default mean reduction;
    the operands are broadcast against each other first. *)
Definition l1_loss (a b : tensor R) : result R :=
  (d <- broadcast2 (fun u v => Rabs (u - v)) a b ;;
   Ok (mean_all d))%py.

(** Row-major position [k] inside the dimensions [dims]. *)
Fixpoint unravel (dims : list nat) (k : nat) : list nat :=
  match dims with
  | [] => []
  | _ :: ds => (k / numel ds)%nat :: unravel ds (k mod numel ds)%nat
  end.

(** [t.view(-1, t.size(-1))]: every leading dimension is folded into one.
    With no element and a last dimension of 0 the [-1] cannot be
    inferred. *)
Definition view_rows {A : Type} (t : tensor A) : result (tensor A) :=
  match rev (shape t) with
  | [] => Raise IndexError
  | n :: rlead =>
      let lead := rev rlead in
      if (n =? 0)%nat then Raise RuntimeError
      else Ok (mk_tensor [numel lead; n] (fun i =>
                 match i with
                 | [r; c] => at_ t (unravel lead r ++ [c])
                 | _ => at_ t []
                 end))
  end.

End Torch.

Import Torch.

Open Scope string_scope.
Open Scope R_scope.
Open Scope py_scope.

(* ================================================================== *)
(** ** The losses of [auraloss/freq.py] *)

(** [class SpectralConvergenceLoss], [forward]:
    [torch.norm(y_mag - x_mag, p="fro") / torch.norm(y_mag, p="fro")].
    The quotient is the one of the reals, a number also for a target of
    norm 0, where torch returns [inf] or [nan]. *)
Definition SpectralConvergenceLoss_forward (x_mag y_mag : tensor R) : result R :=
  d <- broadcast2 Rminus y_mag x_mag ;;
  Ok (norm_fro d / norm_fro y_mag).

(** [class LogSTFTMagnitudeLoss], [forward]:
    [l1_loss(torch.log(x_mag), torch.log(y_mag))].
    [ln] is the logarithm of the reals, a number also at 0 and below, where
    torch returns [-inf] or [nan], and the mean of no element is a number,
    where torch returns [nan]. *)
Definition LogSTFTMagnitudeLoss_forward (x_mag y_mag : tensor R) : result R :=
  l1_loss (tmap ln x_mag) (tmap ln y_mag).

(** A 0-dim tensor and its only element. *)
Definition scalar (r : R) : tensor R := mk_tensor [] (fun _ => r).
Definition item (t : tensor R) : R := at_ t [].

(** The default [eps=1e-8]. *)
Definition default_eps : R := / 100000000.

(** *** What the module calls

    The functions of torch, librosa and numpy that [freq.py] calls, and the
    two helpers it imports from its sibling modules.  Each is a function of
    its arguments; [None] stands for a raised exception, whatever its
    class.  numpy's global generator is a state [rng] that every draw
    advances. *)
Class Libs : Type := mk_Libs
  { (** A window tensor, as [getattr(torch, window)(win_length)] builds it. *)
    window_tensor : Type;
    torch_window : string -> Z -> option window_tensor;

    (** [torch.stft(x, fft_size, hop_size, win_length, window,
        return_complex=True)]: the real and the imaginary part of every
        bin. *)
    torch_stft :
      tensor R -> Z -> Z -> Z -> window_tensor -> option (tensor (R * R));

    (** [torch.matmul] *)
    torch_matmul : tensor R -> tensor R -> option (tensor R);

    (** [librosa.filters.mel(sample_rate, fft_size, n_mels=n_bins)] and
        [librosa.filters.chroma(sample_rate, fft_size, n_chroma=n_bins)] *)
    librosa_mel : Z -> Z -> Z -> option (tensor R);
    librosa_chroma : Z -> Z -> Z -> option (tensor R);

    (** [np.random.randint(low, high)], [np.random.rand()] and
        [np.random.choice(a)] *)
    rng : Type;
    np_randint : R -> R -> rng -> option Z * rng;
    np_rand : rng -> R * rng;
    np_choice : forall A : Type, list A -> rng -> option A * rng;

    (** [SumAndDifference()] of [auraloss/perceptual.py]: the sum and the
        difference signal of a two-channel input. *)
    SumAndDifference_forward : tensor R -> result (tensor R * tensor R);

    (** What [apply_reduction] of [auraloss/utils.py] returns for a mode
        other than ["none"], ["mean"] and ["sum"]. *)
    reduce_other : string -> tensor R -> tensor R }.

Declare Scope st_scope.
Delimit Scope st_scope with st.

Section Freq.

Context {L : Libs}.

(** Modelled from the spec: [apply_reduction] of [auraloss/utils.py], which
    [freq.py] imports.  "[none] returns the input unchanged; [mean] returns
    the arithmetic mean over all elements; [sum] returns the total sum."
    For any other mode the spec only says that no error is raised at call
    time; what is returned then is [reduce_other]. *)
Definition apply_reduction (losses : tensor R) (reduction : string) : tensor R :=
  if reduction =? "mean" then scalar (mean_all losses)
  else if reduction =? "sum" then scalar (sum_all losses)
  else if reduction =? "none" then losses
  else reduce_other reduction losses.

(** *** [class STFTLoss] *)

(** The attributes [__init__] sets.  [fb] exists only after the mel or the
    chroma branch ran. *)
Record STFTLoss : Type := mk_STFTLoss
  { fft_size : Z;
    hop_size : Z;
    win_length : Z;
    window : window_tensor;
    w_sc : R;
    w_mag : R;
    w_phs : R;
    w_real : R;
    w_imag : R;
    sample_rate : option Z;
    scale : option string;
    n_bins : option Z;
    scale_invariance : bool;
    eps : R;
    output : string;
    reduction : string;
    fb : option (tensor R) }.

(** [scale == name] for an attribute that may be [None]. *)
Definition scale_is (sc : option string) (name : string) : bool :=
  match sc with
  | Some s => s =? name
  | None => false
  end.

(** The two assertions and the filterbank of the mel and chroma branches.
    [n_bins <= fft_size] is a [TypeError] when [n_bins] is [None].  Whatever
    librosa raises is recorded as its [ParameterError]: the class of that
    exception is not modelled. *)
Definition setup_filterbank (make : Z -> Z -> Z -> option (tensor R))
    (sample_rate : option Z) (fft_size : Z) (n_bins : option Z)
    : result (tensor R) :=
  match sample_rate with
  | None => Raise AssertionError
  | Some sr =>
      match n_bins with
      | None => Raise TypeError
      | Some n =>
          _ <- assert (n <=? fft_size)%Z ;;
          m <- lift ParameterError (make sr fft_size n) ;;
          Ok (unsqueeze_first m)
      end
  end.

(** [__init__]: the window, the attributes, the filterbank.  Whatever
    [getattr(torch, window)(win_length)] raises is recorded as the
    [AttributeError] of a name torch does not have: the class of that
    exception (a length torch refuses raises another) is not modelled. *)
Definition STFTLoss_init
    (fft_size hop_size win_length : Z) (window : string)
    (w_sc w_mag w_phs w_real w_imag : R)
    (sample_rate : option Z) (scale : option string) (n_bins : option Z)
    (scale_invariance : bool) (eps : R) (output reduction : string)
    : result STFTLoss :=
  win <- lift (AttributeError window) (torch_window window win_length) ;;
  fb <- (if scale_is scale "mel" then
           m <- setup_filterbank librosa_mel sample_rate fft_size n_bins ;;
           Ok (Some m)
         else if scale_is scale "chroma" then
           m <- setup_filterbank librosa_chroma sample_rate fft_size n_bins ;;
           Ok (Some m)
         else Ok None) ;;
  Ok (mk_STFTLoss fft_size hop_size win_length win
        w_sc w_mag w_phs w_real w_imag
        sample_rate scale n_bins scale_invariance eps output reduction fb).

(** [stft]: magnitude, [None] for the phase, clamped real and imaginary
    parts. *)
Definition STFTLoss_stft (self : STFTLoss) (x : tensor R)
    : result (tensor R * unit * tensor R * tensor R) :=
  x_stft <- lift RuntimeError
              (torch_stft x (fft_size self) (hop_size self)
                 (win_length self) (window self)) ;;
  let x_mag :=
    tmap sqrt (clamp_min (eps self)
                 (tmap (fun c => fst c ^ 2 + snd c ^ 2) x_stft)) in
  let x_real := clamp_min (eps self) (tmap fst x_stft) in
  let x_imag := clamp_min (eps self) (tmap snd x_stft) in
  Ok (x_mag, tt, x_real, x_imag).

(** [forward], "apply relevant transforms": the filterbank on both
    magnitudes when [scale] is not [None]. *)
Definition STFTLoss_scale (self : STFTLoss) (x_mag y_mag : tensor R)
    : result (tensor R * tensor R) :=
  match scale self with
  | None => Ok (x_mag, y_mag)
  | Some _ =>
      fb <- lift (AttributeError "fb") (fb self) ;;
      x_mag' <- lift RuntimeError (torch_matmul fb x_mag) ;;
      y_mag' <- lift RuntimeError (torch_matmul fb y_mag) ;;
      Ok (x_mag', y_mag')
  end.

(** [forward], "normalize scales":
    [alpha = (x_mag * y_mag).sum([-2,-1]) / ((y_mag ** 2).sum([-2,-1]))] *)
Definition STFTLoss_alpha (x_mag y_mag : tensor R) : result (tensor R) :=
  xy <- broadcast2 Rmult x_mag y_mag ;;
  num <- sum_last2 xy ;;
  den <- sum_last2 (tmap (fun v => v ^ 2) y_mag) ;;
  broadcast2 Rdiv num den.

(** [y_mag = y_mag * alpha.unsqueeze(-1)] *)
Definition STFTLoss_normalize (x_mag y_mag : tensor R) : result (tensor R) :=
  alpha <- STFTLoss_alpha x_mag y_mag ;;
  broadcast2 Rmult y_mag (unsqueeze_last alpha).

(** [forward], "compute loss terms": the two magnitude terms and the
    weighted total, with the real and imaginary terms added when their
    weight is positive.  Returns [(loss, sc_loss, mag_loss)]. *)
Definition STFTLoss_terms (self : STFTLoss)
    (x_mag y_mag x_real y_real x_imag y_imag : tensor R)
    : result (R * R * R) :=
  sc_loss <- SpectralConvergenceLoss_forward x_mag y_mag ;;
  mag_loss <- LogSTFTMagnitudeLoss_forward x_mag y_mag ;;
  let loss := (w_sc self * sc_loss) + (w_mag self * mag_loss) in
  loss <- (if Rlt_dec 0 (w_real self) then
             real_loss <- LogSTFTMagnitudeLoss_forward x_real y_real ;;
             Ok (loss + w_real self * real_loss)
           else Ok loss) ;;
  loss <- (if Rlt_dec 0 (w_imag self) then
             imag_loss <- LogSTFTMagnitudeLoss_forward x_imag y_imag ;;
             Ok (loss + w_imag self * imag_loss)
           else Ok loss) ;;
  Ok (loss, sc_loss, mag_loss).

(** [forward], up to and including [apply_reduction]: the reduced total
    with the two magnitude terms. *)
Definition STFTLoss_losses (self : STFTLoss) (x y : tensor R)
    : result (R * R * R) :=
  xv <- view_rows x ;;
  '(x_mag, _, x_real, x_imag) <- STFTLoss_stft self xv ;;
  yv <- view_rows y ;;
  '(y_mag, _, y_real, y_imag) <- STFTLoss_stft self yv ;;
  '(x_mag, y_mag) <- STFTLoss_scale self x_mag y_mag ;;
  y_mag <- (if scale_invariance self then STFTLoss_normalize x_mag y_mag
            else Ok y_mag) ;;
  '(loss, sc_loss, mag_loss) <-
     STFTLoss_terms self x_mag y_mag x_real y_real x_imag y_imag ;;
  let loss := item (apply_reduction (scalar loss) (reduction self)) in
  Ok (loss, sc_loss, mag_loss).

(** [forward].  In the ["full"] branch the returned tuple names
    [phs_loss], which nothing binds ([stft] hands back [None] for the
    phase, under the names [x_phs] and [y_phs]): evaluating the [return]
    raises [NameError].  With any other [output] the method falls off its
    end and returns [None]. *)
Definition STFTLoss_forward (self : STFTLoss) (x y : tensor R) : result value :=
  '(loss, sc_loss, mag_loss) <- STFTLoss_losses self x y ;;
  if output self =? "loss" then Ok (VTensor loss)
  else if output self =? "full" then Raise (NameError "phs_loss")
  else Ok VNone.

(** *** [class MelSTFTLoss] and [class ChromaSTFTLoss]

    Both only call the constructor of [STFTLoss]: the weights of the real
    and imaginary terms are [0.0], the scale is fixed, and the arguments
    after [n_bins] keep their defaults. *)
Definition MelSTFTLoss_init (sample_rate : option Z)
    (fft_size hop_size win_length : Z) (window : string)
    (w_sc w_mag w_phs : R) (n_mels : option Z) : result STFTLoss :=
  STFTLoss_init fft_size hop_size win_length window w_sc w_mag w_phs 0 0
    sample_rate (Some "mel") n_mels false default_eps "loss" "mean".

Definition ChromaSTFTLoss_init (sample_rate : option Z)
    (fft_size hop_size win_length : Z) (window : string)
    (w_sc w_mag w_phs : R) (n_chroma : option Z) : result STFTLoss :=
  STFTLoss_init fft_size hop_size win_length window w_sc w_mag w_phs 0 0
    sample_rate (Some "chroma") n_chroma false default_eps "loss" "mean".

(** *** [class MultiResolutionSTFTLoss] *)

Record MultiResolutionSTFTLoss : Type := mk_MultiResolutionSTFTLoss
  { mr_stft_losses : list STFTLoss }.

(** [zip(fft_sizes, hop_sizes, win_lengths)] *)
Fixpoint zip3 (a b c : list Z) : list (Z * Z * Z) :=
  match a, b, c with
  | x :: a', y :: b', z :: c' => (x, y, z) :: zip3 a' b' c'
  | _, _, _ => []
  end.

(** The loop of [__init__]: one [STFTLoss] per resolution, appended in
    order, with the default [eps], [output] and [reduction]. *)
Fixpoint MultiResolutionSTFTLoss_members (rs : list (Z * Z * Z))
    (window : string) (w_sc w_mag w_phs w_real w_imag : R)
    (sample_rate : option Z) (scale : option string) (n_bins : option Z)
    (scale_invariance : bool) : result (list STFTLoss) :=
  match rs with
  | [] => Ok []
  | (fs, ss, wl) :: rs' =>
      f <- STFTLoss_init fs ss wl window w_sc w_mag w_phs w_real w_imag
             sample_rate scale n_bins scale_invariance
             default_eps "loss" "mean" ;;
      fsl <- MultiResolutionSTFTLoss_members rs' window
               w_sc w_mag w_phs w_real w_imag
               sample_rate scale n_bins scale_invariance ;;
      Ok (f :: fsl)
  end.

Definition MultiResolutionSTFTLoss_init
    (fft_sizes hop_sizes win_lengths : list Z) (window : string)
    (w_sc w_mag w_phs w_real w_imag : R)
    (sample_rate : option Z) (scale : option string) (n_bins : option Z)
    (scale_invariance : bool) : result MultiResolutionSTFTLoss :=
  _ <- assert ((List.length fft_sizes =? List.length hop_sizes)%nat
               && (List.length hop_sizes =? List.length win_lengths)%nat) ;;
  fsl <- MultiResolutionSTFTLoss_members
           (zip3 fft_sizes hop_sizes win_lengths) window
           w_sc w_mag w_phs w_real w_imag
           sample_rate scale n_bins scale_invariance ;;
  Ok (mk_MultiResolutionSTFTLoss fsl).

(** [acc += f(x, y)]: only a tensor can be added to the running total. *)
Definition add_loss (acc : R) (v : value) : result R :=
  match v with
  | VTensor t => Ok (acc + t)
  | _ => Raise TypeError
  end.

(** [for f in stft_losses: acc += f(x, y)] *)
Fixpoint accumulate (fsl : list STFTLoss) (x y : tensor R) (acc : R)
    : result R :=
  match fsl with
  | [] => Ok acc
  | f :: fsl' =>
      v <- STFTLoss_forward f x y ;;
      acc' <- add_loss acc v ;;
      accumulate fsl' x y acc'
  end.

(** [acc /= len(stft_losses)]: with no member, [acc] is still the float
    [0.0] and the division by the integer 0 raises. *)
Definition divide_by_len (acc : R) (fsl : list STFTLoss) : result R :=
  match fsl with
  | [] => Raise ZeroDivisionError
  | _ => Ok (acc / INR (List.length fsl))
  end.

Definition MultiResolutionSTFTLoss_forward
    (self : MultiResolutionSTFTLoss) (x y : tensor R) : result R :=
  mrstft_loss <- accumulate (mr_stft_losses self) x y 0 ;;
  divide_by_len mrstft_loss (mr_stft_losses self).

(** *** [class RandomResolutionSTFTLoss] *)

Record RandomResolutionSTFTLoss : Type := mk_RandomResolutionSTFTLoss
  { resolutions : Z;
    min_fft_size : Z;
    max_fft_size : Z;
    min_hop_size : R;
    max_hop_size : R;
    windows : list string;
    randomize_rate : Z;
    rr_w_sc : R;
    rr_w_mag : R;
    rr_w_phs : R;
    rr_w_real : R;
    rr_w_imag : R;
    rr_sample_rate : option Z;
    rr_scale : option string;
    n_mels : option Z;
    nforwards : Z;
    stft_losses : list STFTLoss }.

Definition set_stft_losses (self : RandomResolutionSTFTLoss)
    (l : list STFTLoss) : RandomResolutionSTFTLoss :=
  mk_RandomResolutionSTFTLoss (resolutions self) (min_fft_size self)
    (max_fft_size self) (min_hop_size self) (max_hop_size self)
    (windows self) (randomize_rate self)
    (rr_w_sc self) (rr_w_mag self) (rr_w_phs self)
    (rr_w_real self) (rr_w_imag self)
    (rr_sample_rate self) (rr_scale self) (n_mels self)
    (nforwards self) l.

Definition set_nforwards (self : RandomResolutionSTFTLoss)
    (n : Z) : RandomResolutionSTFTLoss :=
  mk_RandomResolutionSTFTLoss (resolutions self) (min_fft_size self)
    (max_fft_size self) (min_hop_size self) (max_hop_size self)
    (windows self) (randomize_rate self)
    (rr_w_sc self) (rr_w_mag self) (rr_w_phs self)
    (rr_w_real self) (rr_w_imag self)
    (rr_sample_rate self) (rr_scale self) (n_mels self)
    n (stft_losses self).

(** The ensemble object together with numpy's generator: what a method
    of the class can change. *)
Definition world : Type := (RandomResolutionSTFTLoss * rng)%type.

(** A method body: it runs in a world and leaves a result, or an
    exception, and the world as it is at that point. *)
Definition M (A : Type) : Type := world -> result A * world.

Definition ret {A : Type} (a : A) : M A := fun w => (Ok a, w).

Definition raise {A : Type} (e : exn) : M A := fun w => (Raise e, w).

Definition bindM {A B : Type} (m : M A) (k : A -> M B) : M B :=
  fun w =>
    match m w with
    | (Ok a, w') => k a w'
    | (Raise e, w') => (Raise e, w')
    end.

Definition pure {A : Type} (r : result A) : M A := fun w => (r, w).

Definition get_self : M RandomResolutionSTFTLoss := fun w => (Ok (fst w), w).

Definition put_self (self : RandomResolutionSTFTLoss) : M unit :=
  fun w => (Ok tt, (self, snd w)).

(** A draw from numpy's generator; [e] is what a failed draw raises. *)
Definition draw {A : Type} (e : exn) (f : rng -> option A * rng) : M A :=
  fun w =>
    let (o, g) := f (snd w) in (lift e o, (fst w, g)).

(** A draw that cannot fail. *)
Definition draw_total {A : Type} (f : rng -> A * rng) : M A :=
  fun w =>
    let (a, g) := f (snd w) in (Ok a, (fst w, g)).

(** [np.log2] *)
Definition np_log2 (n : Z) : R := ln (IZR n) / ln 2.

(** [int(r)]: truncation towards zero. *)
Definition py_int (r : R) : Z :=
  if Rle_dec 0 r then Int_part r else (- Int_part (- r))%Z.

Definition randint_error : exn := ValueError "low >= high".
Definition choice_error : exn :=
  ValueError "'a' cannot be empty unless no samples are taken".

Notation "x <- m ;; k" := (bindM m (fun x => k))
  (at level 61, m at next level, right associativity) : st_scope.

(** One pass of the loop of [randomize_losses]: the four draws, in the
    order the source makes them, and the new [STFTLoss].  [2 ** u] is the
    integer power, which it is in Python for a [u] that is not negative
    (for a negative [u] Python gives a fraction, [Z.pow] gives 0).  The hop
    size and the window length are the truncations of the exact products,
    which a product of floats can miss by one. *)
Definition sample_loss : M STFTLoss :=
  (self <- get_self ;;
   u <- draw randint_error
          (np_randint (np_log2 (min_fft_size self))
                      (np_log2 (max_fft_size self))) ;;
   let frame_size := (2 ^ u)%Z in
   r <- draw_total np_rand ;;
   let hop_size :=
     py_int (IZR frame_size *
             (min_hop_size self
              + (r * (max_hop_size self - min_hop_size self)))) in
   c <- draw choice_error (np_choice [1; / 2; / 4]) ;;
   let window_length := py_int (IZR frame_size * c) in
   window <- draw choice_error (np_choice (windows self)) ;;
   pure (STFTLoss_init frame_size hop_size window_length window
           (rr_w_sc self) (rr_w_mag self) (rr_w_phs self)
           (rr_w_real self) (rr_w_imag self)
           (rr_sample_rate self) (rr_scale self) (n_mels self)
           false default_eps "loss" "mean"))%st.

(** [for n in range(resolutions)]: each new loss is appended to
    [self.stft_losses]. *)
Fixpoint randomize_loop (n : nat) : M unit :=
  match n with
  | O => ret tt
  | S n' =>
      (f <- sample_loss ;;
       self <- get_self ;;
       _ <- put_self (set_stft_losses self (stft_losses self ++ [f])) ;;
       randomize_loop n')%st
  end.

(** [randomize_losses]: the list is cleared first. *)
Definition randomize_losses : M unit :=
  (self <- get_self ;;
   _ <- put_self (set_stft_losses self []) ;;
   randomize_loop (Z.to_nat (resolutions self)))%st.

(** [__init__]: the attributes, [nforwards = 0], then
    [randomize_losses()].  The generator is the only thing that outlives a
    constructor that raises. *)
Definition RandomResolutionSTFTLoss_init
    (resolutions min_fft_size max_fft_size : Z)
    (min_hop_size max_hop_size : R) (windows : list string)
    (w_sc w_mag w_phs w_real w_imag : R)
    (sample_rate : option Z) (scale : option string) (n_mels : option Z)
    (randomize_rate : Z) (g : rng)
    : result RandomResolutionSTFTLoss * rng :=
  let self :=
    mk_RandomResolutionSTFTLoss resolutions min_fft_size max_fft_size
      min_hop_size max_hop_size windows randomize_rate
      w_sc w_mag w_phs w_real w_imag sample_rate scale n_mels 0%Z [] in
  match randomize_losses (self, g) with
  | (Ok _, (self', g')) => (Ok self', g')
  | (Raise e, (_, g')) => (Raise e, g')
  end.

(** The two messages of [forward]. *)
Definition length_message (who : string) (n max : Z) : string :=
  who ++ " length (" ++ str n
      ++ ") must be larger than largest FFT size (" ++ str max ++ ").".

(** [nforwards % randomize_rate == 0]; the remainder by 0 raises. *)
Definition due (self : RandomResolutionSTFTLoss) : result bool :=
  if (randomize_rate self =? 0)%Z then Raise ZeroDivisionError
  else Ok (nforwards self mod randomize_rate self =? 0)%Z.

Definition RandomResolutionSTFTLoss_forward (input target : tensor R)
    : M R :=
  (self <- get_self ;;
   n <- pure (size_last input) ;;
   if (Z.of_nat n <=? max_fft_size self)%Z then
     raise (ValueError (length_message "Input" (Z.of_nat n)
                          (max_fft_size self)))
   else
     m <- pure (size_last target) ;;
     if (Z.of_nat m <=? max_fft_size self)%Z then
       raise (ValueError (length_message "Target" (Z.of_nat m)
                            (max_fft_size self)))
     else
       d <- pure (due self) ;;
       _ <- (if d : bool then randomize_losses else ret tt) ;;
       self <- get_self ;;
       loss <- pure (accumulate (stft_losses self) input target 0) ;;
       loss <- pure (divide_by_len loss (stft_losses self)) ;;
       self <- get_self ;;
       _ <- put_self (set_nforwards self (nforwards self + 1)%Z) ;;
       ret loss)%st.

(** *** [class SumAndDifferenceSTFTLoss] *)

Record SumAndDifferenceSTFTLoss : Type := mk_SumAndDifferenceSTFTLoss
  { w_sum : R;
    w_diff : R;
    sd_output : string;
    mrstft : MultiResolutionSTFTLoss }.

(** [__init__]: the two weights are set to [1.0]; the ensemble takes its
    other arguments by default. *)
Definition SumAndDifferenceSTFTLoss_init
    (fft_sizes hop_sizes win_lengths : list Z) (window : string)
    (w_sum w_diff : R) (output : string)
    : result SumAndDifferenceSTFTLoss :=
  (mr <- MultiResolutionSTFTLoss_init fft_sizes hop_sizes win_lengths window
           1 1 0 0 0 None None None false ;;
   Ok (mk_SumAndDifferenceSTFTLoss 1 1 output mr))%py.

Definition SumAndDifferenceSTFTLoss_forward
    (self : SumAndDifferenceSTFTLoss) (input target : tensor R)
    : result value :=
  ('(input_sum, input_diff) <- SumAndDifference_forward input ;;
   '(target_sum, target_diff) <- SumAndDifference_forward target ;;
   sum_loss <- MultiResolutionSTFTLoss_forward (mrstft self)
                 input_sum target_sum ;;
   diff_loss <- MultiResolutionSTFTLoss_forward (mrstft self)
                  input_diff target_diff ;;
   let loss := ((w_sum self * sum_loss) + (w_diff self * diff_loss)) / 2 in
   if sd_output self =? "loss" then Ok (VTensor loss)
   else if sd_output self =? "full" then
     Ok (VTuple [loss; sum_loss; diff_loss])
   else Ok VNone)%py.

End Freq.

(* ================================================================== *)
(** ** A small instance of the libraries

    Stand-ins for torch, librosa and numpy that compute, used to run the
    losses on concrete inputs.  Shapes follow the real functions; the values
    are simplified. *)

Module Fixture.

Definition window_names : list string :=
  ["hann_window"; "bartlett_window"; "blackman_window";
   "hamming_window"; "kaiser_window"].

(** A window is stood for by its length; a name torch does not have
    raises. *)
Definition window (name : string) (n : Z) : option Z :=
  if existsb (String.eqb name) window_names then Some n else None.

(** [(B, T)] to [(B, fft_size/2 + 1, 1 + T/hop_size)]: every bin of frame
    [k] holds the sample at [k * hop_size]. *)
Definition stft (x : tensor R) (fft hop wl : Z) (w : Z)
    : option (tensor (R * R)) :=
  match shape x with
  | [b; t] =>
      if ((0 <? fft) && (0 <? hop))%Z then
        Some (mk_tensor
                [b; Z.to_nat (fft / 2 + 1); S (t / Z.to_nat hop)]
                (fun i =>
                   match i with
                   | [bi; _; ti] => (at_ x [bi; (ti * Z.to_nat hop)%nat], 0)
                   | _ => (0, 0)
                   end))
      else None
  | _ => None
  end.

Definition filterbank (sr fft n : Z) : option (tensor R) :=
  Some (mk_tensor [Z.to_nat n; Z.to_nat (fft / 2 + 1)] (fun _ => 1)).

(** [(1, n, F)] times [(B, F, T)]: the bins of a frame are summed into
    each of the [n] bands. *)
Definition matmul (a b : tensor R) : option (tensor R) :=
  match shape a, shape b with
  | [_; n; f], [bt; f'; t] =>
      if (f =? f')%nat then
        Some (mk_tensor [bt; n; t]
                (fun i =>
                   match i with
                   | [bi; ni; ti] =>
                       Rsum (map (fun k => at_ a [0%nat; ni; k] * at_ b [bi; k; ti])
                               (seq 0 f))
                   | _ => 0
                   end))
      else None
  | _, _ => None
  end.

(** The generator counts its draws; every draw is the least value. *)
Definition randint (low high : R) (g : nat) : option Z * nat :=
  (Some 2%Z, S g).
Definition rand (g : nat) : R * nat := (0, S g).
Definition choice (A : Type) (a : list A) (g : nat) : option A * nat :=
  (hd_error a, S g).

(** [(B, 2, T)] to the sum and the difference of the two channels, each
    [(B, 1, T)]. *)
Definition sum_and_difference (x : tensor R)
    : result (tensor R * tensor R) :=
  match shape x with
  | [b; 2%nat; t] =>
      Ok (mk_tensor [b; 1%nat; t]
            (fun i => match i with
                      | [bi; _; ti] => at_ x [bi; 0%nat; ti] + at_ x [bi; 1%nat; ti]
                      | _ => 0
                      end),
          mk_tensor [b; 1%nat; t]
            (fun i => match i with
                      | [bi; _; ti] => at_ x [bi; 0%nat; ti] - at_ x [bi; 1%nat; ti]
                      | _ => 0
                      end))
  | _ => Raise (ValueError "Input must be stereo")
  end.

Definition libs : Libs :=
  mk_Libs window stft matmul filterbank filterbank
    randint rand choice sum_and_difference (fun _ t => t).

(** A signal of the given shape, every sample 1. *)
Definition ones (s : list nat) : tensor R := mk_tensor s (fun _ => 1).

(** A signal of the given shape, every sample [c]. *)
Definition level (c : R) (s : list nat) : tensor R := mk_tensor s (fun _ => c).

End Fixture.

(* ================================================================== *)
(** ** Vocabulary of the statements

    Updates of single attributes, the stages of [forward] that the
    statements name, and the concrete losses the statements are run on. *)

(** A fixed single-resolution loss over the small libraries: FFT size 4,
    hop 1, no frequency scaling. *)
Definition example_loss (w_real w_imag : R) (scale_invariance : bool)
    (output reduction : string) : @STFTLoss Fixture.libs :=
  @mk_STFTLoss Fixture.libs 4 1 4 4%Z 1 1 0 w_real w_imag None None None
    scale_invariance default_eps output reduction None.

(** [w_phs] replaced in an existing loss. *)
Definition set_w_phs {L : Libs} (self : STFTLoss) (v : R) : STFTLoss :=
  mk_STFTLoss (fft_size self) (hop_size self) (win_length self) (window self)
    (w_sc self) (w_mag self) v (w_real self) (w_imag self)
    (sample_rate self) (scale self) (n_bins self) (scale_invariance self)
    (eps self) (output self) (reduction self) (fb self).

(** [w_real] and [w_imag] replaced in an existing loss. *)
Definition set_w_real_imag {L : Libs} (self : STFTLoss) (a b : R) : STFTLoss :=
  mk_STFTLoss (fft_size self) (hop_size self) (win_length self) (window self)
    (w_sc self) (w_mag self) (w_phs self) a b
    (sample_rate self) (scale self) (n_bins self) (scale_invariance self)
    (eps self) (output self) (reduction self) (fb self).

(** What a loss built with a filterbank is. *)
Definition scaled_loss {L : Libs}
    (make : Z -> Z -> Z -> option (tensor R))
    (sr : option Z) (fs : Z) (nb : option Z) (self : STFTLoss) : Prop :=
  exists rate n m,
    sr = Some rate /\ nb = Some n /\ (n <= fs)%Z /\
    make rate fs n = Some m /\
    fb self = Some (unsqueeze_first m) /\
    (forall xm ym,
       STFTLoss_scale self xm ym
       = (x' <- lift RuntimeError (torch_matmul (unsqueeze_first m) xm) ;;
          y' <- lift RuntimeError (torch_matmul (unsqueeze_first m) ym) ;;
          Ok (x', y'))) /\
    (forall xm ym xr yr xi yi,
       STFTLoss_terms self xm ym xr yr xi yi
       = (sc <- SpectralConvergenceLoss_forward xm ym ;;
          mag <- LogSTFTMagnitudeLoss_forward xm ym ;;
          Ok (w_sc self * sc + w_mag self * mag, sc, mag))).

(** What every member of an ensemble shares: the weights and scaling
    options of the ensemble, and the defaults of the arguments the ensemble
    does not pass. *)
Definition shared {L : Libs} (a b c d e : R)
    (sr : option Z) (sc : option string) (nb : option Z) (si : bool)
    (f : STFTLoss) : Prop :=
  w_sc f = a /\ w_mag f = b /\ w_phs f = c /\ w_real f = d /\ w_imag f = e /\
  sample_rate f = sr /\ scale f = sc /\ n_bins f = nb /\
  scale_invariance f = si /\
  eps f = default_eps /\ output f = "loss" /\ reduction f = "mean".

(** The exceptions the computation of the loss terms can end in: a signal
    without dimension, a shape or argument torch refuses, the missing
    filterbank. *)
Definition torch_error (e : exn) : Prop :=
  e = IndexError \/ e = RuntimeError \/ e = AttributeError "fb".

(** A result that, when it is an exception, is one of [P]. *)
Definition raises_only {A : Type} (P : exn -> Prop) (r : result A) : Prop :=
  forall e, r = Raise e -> P e.

(** What every member of a random-resolution ensemble is: a loss with the
    weights and scaling options of the ensemble, the defaults otherwise. *)
Definition member_of {L : Libs} (self : RandomResolutionSTFTLoss)
    (f : STFTLoss) : Prop :=
  shared (rr_w_sc self) (rr_w_mag self) (rr_w_phs self)
    (rr_w_real self) (rr_w_imag self)
    (rr_sample_rate self) (rr_scale self) (n_mels self) false f.

(** The FFT size of a member: [2 ** u] for a [u] that
    [np.random.randint(np.log2(min_fft_size), np.log2(max_fft_size))]
    returned, in some state of the generator. *)
Definition drawn_fft_size {L : Libs} (self : RandomResolutionSTFTLoss)
    (f : STFTLoss) : Prop :=
  exists g u g',
    np_randint (np_log2 (min_fft_size self)) (np_log2 (max_fft_size self)) g
    = (Some u, g') /\
    fft_size f = (2 ^ u)%Z.

(** A power of two, as a natural power. *)
Definition power_of_two (n : Z) : Prop := exists k : nat, n = (2 ^ Z.of_nat k)%Z.

(** Every member of the ensemble hands back its total alone. *)
Definition loss_mode {L : Libs} (w : world) : Prop :=
  Forall (fun f => output f = "loss") (stft_losses (fst w)).

(** An exception other than a [NameError]. *)
Definition not_name_error (e : exn) : Prop := forall name, e <> NameError name.

(** [reduction] replaced in an existing loss. *)
Definition set_reduction {L : Libs} (self : STFTLoss) (r : string) : STFTLoss :=
  mk_STFTLoss (fft_size self) (hop_size self) (win_length self) (window self)
    (w_sc self) (w_mag self) (w_phs self) (w_real self) (w_imag self)
    (sample_rate self) (scale self) (n_bins self) (scale_invariance self)
    (eps self) (output self) r (fb self).

(** The scaling the claim describes, in its words: one [alpha] per batch
    element [b], the sums taken over frequency and time, and every element
    of batch element [b] multiplied by the [alpha] of [b]. *)
Definition batch_alpha (x_mag y_mag : tensor R) (f t b : nat) : R :=
  Rsum (map (fun jk => at_ x_mag (b :: jk) * at_ y_mag (b :: jk))
          (indices [f; t]))
  / Rsum (map (fun jk => at_ y_mag (b :: jk) ^ 2) (indices [f; t])).

(** Two batch elements, two bins, one frame: the estimate is 1 everywhere
    in the first batch element and 2 in the second, the target is 1. *)
Definition two_by_two : tensor R :=
  mk_tensor [2; 2; 1]%nat
    (fun i => match i with
              | 1%nat :: _ => 2
              | _ => 1
              end).

(** [forward] up to "compute loss terms": the spectra of the two signals,
    the filterbank, the scale normalization.  The magnitudes come first, then
    the real and the imaginary parts, the estimate's before the target's. *)
Definition STFTLoss_spectra {L : Libs} (self : STFTLoss) (x y : tensor R)
    : result (tensor R * tensor R * tensor R * tensor R * tensor R * tensor R) :=
  xv <- view_rows x ;;
  '(x_mag, _, x_real, x_imag) <- STFTLoss_stft self xv ;;
  yv <- view_rows y ;;
  '(y_mag, _, y_real, y_imag) <- STFTLoss_stft self yv ;;
  '(x_mag, y_mag) <- STFTLoss_scale self x_mag y_mag ;;
  y_mag <- (if scale_invariance self then STFTLoss_normalize x_mag y_mag
            else Ok y_mag) ;;
  Ok (x_mag, y_mag, x_real, y_real, x_imag, y_imag).

(** The shape of the spectrum [forward] computes for a signal. *)
Definition spectrum_shape {L : Libs} (self : STFTLoss) (x : tensor R)
    : result (list nat) :=
  xv <- view_rows x ;;
  x_stft <- lift RuntimeError
              (torch_stft xv (fft_size self) (hop_size self)
                 (win_length self) (window self)) ;;
  Ok (shape x_stft).

(** The stereo wrapper over the small libraries, one resolution, built with
    the weights 5 and 7. *)
Definition example_stereo : @SumAndDifferenceSTFTLoss Fixture.libs :=
  @mk_SumAndDifferenceSTFTLoss Fixture.libs 1 1 "loss"
    (@mk_MultiResolutionSTFTLoss Fixture.libs
       [example_loss 0 0 false "loss" "mean"]).

(** The members evaluated on a pair and averaged, as both ensembles do. *)
Definition evaluate_members {L : Libs} (fsl : list STFTLoss)
    (input target : tensor R) : result R :=
  acc <- accumulate fsl input target 0 ;;
  divide_by_len acc fsl.

(** [forward] after its length check: the resampling when it is due, the
    evaluation of the members, the increment of [nforwards]. *)
Definition forward_checked {L : Libs} (input target : tensor R) (w : world)
    : result R * world :=
  match due (fst w) with
  | Raise e => (Raise e, w)
  | Ok d =>
      let rw := if d then randomize_losses w else (Ok tt, w) in
      match fst rw with
      | Raise e => (Raise e, snd rw)
      | Ok _ =>
          let self := fst (snd rw) in
          match evaluate_members (stft_losses self) input target with
          | Raise e => (Raise e, snd rw)
          | Ok loss =>
              (Ok loss,
               (set_nforwards self (nforwards self + 1)%Z, snd (snd rw)))
          end
      end
  end.

(** A result that is not a [ValueError]. *)
Definition quiet {A : Type} (r : result A) : Prop :=
  forall msg, r <> Raise (ValueError msg).

(** The only [ValueError]s a method of the ensemble raises past the length
    check are numpy's. *)
Definition numpy_only {L : Libs} {A : Type} (rw : result A * world) : Prop :=
  forall msg, fst rw = Raise (ValueError msg) ->
    ValueError msg = randint_error \/ ValueError msg = choice_error.

(** Everything but the member list. *)
Definition config {L : Libs} (self : RandomResolutionSTFTLoss) : RandomResolutionSTFTLoss :=
  set_stft_losses self [].

(** An ensemble over the small libraries: one member, FFT sizes from 4 to
    4, resampled every second call, one call made so far; the generator has
    made no draw. *)
Definition example_ensemble : @world Fixture.libs :=
  (@mk_RandomResolutionSTFTLoss Fixture.libs 1 4 4 (/ 10) 1 ["hann_window"] 2
     1 1 0 0 0 None None None 1
     [example_loss 0 0 false "loss" "mean"],
   0%nat).

(** The same ensemble asked for no resolution, resampled at every call,
    before its first call. *)
Definition example_degenerate : @world Fixture.libs :=
  (@mk_RandomResolutionSTFTLoss Fixture.libs 0 4 4 (/ 10) 1 ["hann_window"] 1
     1 1 0 0 0 None None None 0
     [example_loss 0 0 false "loss" "mean"],
   0%nat).

(** An ensemble over the small libraries whose resampling is due: one
    member, FFT sizes from 4 to 4, hops of one whole frame, resampled every
    second call, no call made so far; the generator has made no draw. *)
Definition example_fresh : @world Fixture.libs :=
  (@mk_RandomResolutionSTFTLoss Fixture.libs 1 4 4 1 1 ["hann_window"] 2
     1 1 0 0 0 None None None 0
     [example_loss 0 0 false "loss" "mean"],
   0%nat).

(** The member the small generator draws for [example_fresh]: FFT size 4,
    hop 4, window length 4. *)
Definition example_member : @STFTLoss Fixture.libs :=
  @mk_STFTLoss Fixture.libs 4 4 4 4%Z 1 1 0 0 0 None None None
    false default_eps "loss" "mean" None.

(** A sequence of calls to [forward], each on the ensemble the one before
    left. *)
Fixpoint run {L : Libs} (calls : list (tensor R * tensor R)) (w : world)
    : list (result R) * world :=
  match calls with
  | [] => ([], w)
  | (input, target) :: rest =>
      let (r, w1) := RandomResolutionSTFTLoss_forward input target w in
      let (rs, w2) := run rest w1 in
      (r :: rs, w2)
  end.

(** The calls that returned. *)
Fixpoint returned {A : Type} (rs : list (result A)) : nat :=
  match rs with
  | [] => 0
  | Ok _ :: rs' => S (returned rs')
  | Raise _ :: rs' => returned rs'
  end.

(** The object [__init__] hands to [randomize_losses]. *)
Definition blank {L : Libs}
    (resolutions min_fft_size max_fft_size : Z)
    (min_hop_size max_hop_size : R) (windows : list string)
    (w_sc w_mag w_phs w_real w_imag : R)
    (sample_rate : option Z) (scale : option string) (n_mels : option Z)
    (randomize_rate : Z) : RandomResolutionSTFTLoss :=
  mk_RandomResolutionSTFTLoss resolutions min_fft_size max_fft_size
    min_hop_size max_hop_size windows randomize_rate
    w_sc w_mag w_phs w_real w_imag sample_rate scale n_mels 0%Z [].

(** What a call does to the counter: one more when it returns, nothing
    when it raises. *)
Definition counted {L : Libs} (w : world) (rw : result R * world) : Prop :=
  match fst rw with
  | Ok _ => nforwards (fst (snd rw)) = (nforwards (fst w) + 1)%Z
  | Raise _ => nforwards (fst (snd rw)) = nforwards (fst w)
  end.

Unset Implicit Arguments.

(* ================================================================== *)
(** ** Results and exceptions: inversion *)

Lemma bind_Ok_inv {A B : Type} (m : result A) (k : A -> result B) (b : B) :
  bind m k = Ok b -> exists a, m = Ok a /\ k a = Ok b.
Proof.
  destruct m as [a|e]; simpl; intros H; [eauto | discriminate].
Qed.

Lemma bind_Raise_inv {A B : Type} (m : result A) (k : A -> result B) (e : exn) :
  bind m k = Raise e -> m = Raise e \/ exists a, m = Ok a /\ k a = Raise e.
Proof.
  destruct m as [a|e']; simpl; intros H; [right; eauto | left; congruence].
Qed.

(** Splits every [bind] of a hypothesis that says a computation returned. *)
Ltac invert_ok H :=
  repeat match type of H with
         | bind _ _ = Ok _ =>
             let a := fresh "a" in
             let Ha := fresh "Ha" in
             apply bind_Ok_inv in H; destruct H as (a & Ha & H)
         | (let '(_, _) := ?p in _) = Ok _ => destruct p
         | (let (_, _) := ?p in _) = Ok _ => destruct p
         end.

(* ================================================================== *)
(** ** [STFTLoss.forward]: what is returned *)

Section Output.

Context {L : Libs}.

Lemma STFTLoss_forward_loss (self : STFTLoss) (x y : tensor R) (l sc mag : R) :
  output self = "loss" ->
  STFTLoss_losses self x y = Ok (l, sc, mag) ->
  STFTLoss_forward self x y = Ok (VTensor l).
Proof.
  intros Ho Hl. unfold STFTLoss_forward. rewrite Hl. simpl. rewrite Ho. reflexivity.
Qed.

Lemma STFTLoss_forward_full (self : STFTLoss) (x y : tensor R) (t : R * R * R) :
  output self = "full" ->
  STFTLoss_losses self x y = Ok t ->
  STFTLoss_forward self x y = Raise (NameError "phs_loss").
Proof.
  intros Ho Hl. unfold STFTLoss_forward. rewrite Hl.
  destruct t as [[l sc] mag]. simpl. rewrite Ho. reflexivity.
Qed.

Lemma STFTLoss_forward_full_no_value (self : STFTLoss) (x y : tensor R) (v : value) :
  output self = "full" -> STFTLoss_forward self x y <> Ok v.
Proof.
  intros Ho H. unfold STFTLoss_forward in H.
  destruct (STFTLoss_losses self x y) as [[[l sc] mag]|e]; simpl in H.
  - rewrite Ho in H. discriminate.
  - discriminate.
Qed.

End Output.

(* ================================================================== *)
(** ** Broadcasting: operands of one shape *)

Lemma broadcast_rev_refl (s : list nat) : broadcast_rev s s = Some s.
Proof.
  induction s as [|d s IH]; simpl; [reflexivity|].
  rewrite Nat.eqb_refl, IH. reflexivity.
Qed.

Lemma broadcast_shapes_refl (s : list nat) : broadcast_shapes s s = Some s.
Proof.
  unfold broadcast_shapes. rewrite broadcast_rev_refl. simpl.
  rewrite rev_involutive. reflexivity.
Qed.

Lemma broadcast2_same_shape {A B C : Type} (f : A -> B -> C)
    (a : tensor A) (b : tensor B) :
  shape a = shape b ->
  exists d, broadcast2 f a b = Ok d /\ shape d = shape a /\
            forall i, at_ d i = f (at_ a (operand_index (shape a) i))
                                  (at_ b (operand_index (shape a) i)).
Proof.
  intros Hs. unfold broadcast2. rewrite <- Hs, broadcast_shapes_refl.
  eexists. split; [reflexivity|]. split; reflexivity.
Qed.

Lemma Rsum_zero {A : Type} (f : A -> R) (l : list A) :
  (forall a, f a = 0) -> Rsum (map f l) = 0.
Proof.
  intros Hf. induction l as [|a l IH]; simpl; [reflexivity|].
  rewrite Hf, IH. lra.
Qed.

(** A tensor whose elements are all 0 has norm 0 and mean 0. *)
Lemma norm_fro_zero (t : tensor R) :
  (forall i, at_ t i = 0) -> norm_fro t = 0.
Proof.
  intros Hz. unfold norm_fro, elements. rewrite map_map.
  rewrite Rsum_zero; [apply sqrt_0|].
  intros i. rewrite Hz. simpl. lra.
Qed.

Lemma mean_all_zero (t : tensor R) :
  (forall i, at_ t i = 0) -> mean_all t = 0.
Proof.
  intros Hz. unfold mean_all, sum_all, elements.
  rewrite Rsum_zero by assumption. unfold Rdiv. lra.
Qed.

(** The two metrics of a spectrum against itself. *)
Lemma SpectralConvergenceLoss_self (m : tensor R) :
  SpectralConvergenceLoss_forward m m = Ok 0.
Proof.
  unfold SpectralConvergenceLoss_forward.
  destruct (broadcast2_same_shape Rminus m m eq_refl) as (d & Hd & _ & Hat).
  rewrite Hd. simpl. rewrite norm_fro_zero.
  - f_equal. unfold Rdiv. lra.
  - intros i. rewrite Hat. lra.
Qed.

Lemma LogSTFTMagnitudeLoss_self (m : tensor R) :
  LogSTFTMagnitudeLoss_forward m m = Ok 0.
Proof.
  unfold LogSTFTMagnitudeLoss_forward, l1_loss.
  destruct (broadcast2_same_shape (fun u v => Rabs (u - v))
              (tmap ln m) (tmap ln m) eq_refl) as (d & Hd & _ & Hat).
  rewrite Hd. simpl. rewrite mean_all_zero; [reflexivity|].
  intros i. rewrite Hat.
  replace (_ - _) with 0 by lra. apply Rabs_R0.
Qed.

(** The metrics are defined on spectra of one shape. *)
Lemma SpectralConvergenceLoss_defined (a b : tensor R) :
  shape a = shape b -> exists v, SpectralConvergenceLoss_forward a b = Ok v.
Proof.
  intros Hs. unfold SpectralConvergenceLoss_forward.
  destruct (broadcast2_same_shape Rminus b a (eq_sym Hs)) as (d & Hd & _).
  rewrite Hd. simpl. eauto.
Qed.

Lemma LogSTFTMagnitudeLoss_defined (a b : tensor R) :
  shape a = shape b -> exists v, LogSTFTMagnitudeLoss_forward a b = Ok v.
Proof.
  intros Hs. unfold LogSTFTMagnitudeLoss_forward, l1_loss.
  destruct (broadcast2_same_shape (fun u v => Rabs (u - v))
              (tmap ln a) (tmap ln b) Hs) as (d & Hd & _).
  rewrite Hd. simpl. eauto.
Qed.

(* ================================================================== *)
(** ** Scale invariance: the product with [alpha] *)

Lemma broadcast_shapes_batch_mismatch (b f t : nat) :
  b <> f -> b <> 1%nat -> f <> 1%nat ->
  broadcast_shapes [b; f; t] [b; 1%nat] = None.
Proof.
  intros Hbf Hb Hf. unfold broadcast_shapes. simpl.
  assert (Hfb : (f =? b)%nat = false) by (apply Nat.eqb_neq; congruence).
  assert (Hf1 : (f =? 1)%nat = false) by (apply Nat.eqb_neq; assumption).
  assert (Hb1 : (b =? 1)%nat = false) by (apply Nat.eqb_neq; assumption).
  destruct (t =? 1)%nat; simpl; rewrite Hfb, Hf1, Hb1; reflexivity.
Qed.

Lemma broadcast_shapes_square (n t : nat) :
  broadcast_shapes [n; n; t] [n; 1%nat] = Some [n; n; t].
Proof.
  unfold broadcast_shapes. simpl.
  destruct (t =? 1)%nat; simpl; rewrite Nat.eqb_refl; reflexivity.
Qed.

Lemma broadcast_shapes_single_batch (f t : nat) :
  broadcast_shapes [1%nat; f; t] [1%nat; 1%nat] = Some [1%nat; f; t].
Proof.
  unfold broadcast_shapes. simpl.
  destruct (t =? 1)%nat; simpl; destruct (f =? 1)%nat; reflexivity.
Qed.

(** Inside the shape of an operand, the operand is read at the index of
    the result. *)
Lemma expand_in_range (s i : list nat) :
  Forall2 lt i s -> expand s i = i.
Proof.
  intros H. induction H as [|k d i s Hk _ IH]; simpl; [reflexivity|].
  rewrite IH. destruct (Nat.eqb_spec d 1); [|reflexivity].
  f_equal. lia.
Qed.

Lemma operand_index_in_range (s i : list nat) :
  Forall2 lt i s -> operand_index s i = i.
Proof.
  intros H. unfold operand_index.
  rewrite (Forall2_length H), Nat.sub_diag. simpl.
  apply expand_in_range. assumption.
Qed.

Lemma indices_in_range (s i : list nat) :
  In i (indices s) -> Forall2 lt i s.
Proof.
  revert i. induction s as [|d s IH]; simpl; intros i Hi.
  - destruct Hi as [<-|[]]. constructor.
  - apply in_flat_map in Hi. destruct Hi as (k & Hk & Hi).
    apply in_map_iff in Hi. destruct Hi as (i' & <- & Hi').
    apply in_seq in Hk. constructor; [lia | apply IH; assumption].
Qed.

Lemma Rsum_ext_in {A : Type} (f g : A -> R) (l : list A) :
  (forall a, In a l -> f a = g a) -> Rsum (map f l) = Rsum (map g l).
Proof.
  intros H. unfold Rsum. f_equal. apply map_ext_in. assumption.
Qed.

Lemma sum_last2_3d (m : tensor R) (b f t : nat) :
  shape m = [b; f; t] ->
  sum_last2 m
  = Ok (mk_tensor [b]
          (fun i => Rsum (map (fun jk => at_ m (i ++ jk)) (indices [f; t])))).
Proof.
  intros H. unfold sum_last2. rewrite H. reflexivity.
Qed.

(** [alpha] on magnitudes of one three-dimensional shape: one element per
    batch element, the one the claim describes. *)
Lemma STFTLoss_alpha_spec (x_mag y_mag : tensor R) (b f t : nat) :
  shape x_mag = [b; f; t] -> shape y_mag = [b; f; t] ->
  exists alpha,
    STFTLoss_alpha x_mag y_mag = Ok alpha /\ shape alpha = [b] /\
    forall i, (i < b)%nat -> at_ alpha [i] = batch_alpha x_mag y_mag f t i.
Proof.
  intros Hx Hy. unfold STFTLoss_alpha.
  destruct (broadcast2_same_shape Rmult x_mag y_mag) as (xy & Hxy & Hs & Hat);
    [congruence|].
  rewrite Hxy. cbn [bind].
  rewrite (sum_last2_3d xy b f t) by congruence. cbn [bind].
  rewrite (sum_last2_3d (tmap (fun v => v ^ 2) y_mag) b f t) by exact Hy.
  cbn [bind]. unfold broadcast2. cbn [shape]. rewrite broadcast_shapes_refl.
  eexists. split; [reflexivity|]. split; [reflexivity|].
  intros i Hi. cbn [at_ tmap].
  rewrite (operand_index_in_range [b] [i]) by (repeat constructor; assumption).
  unfold batch_alpha. f_equal.
  apply Rsum_ext_in. intros jk Hjk. rewrite Hat, Hx.
  rewrite (operand_index_in_range [b; f; t] ([i] ++ jk)); [reflexivity|].
  constructor; [assumption | apply indices_in_range; assumption].
Qed.

(** [y_mag * alpha.unsqueeze(-1)] multiplies a [(B, F, T)] tensor by a
    [(B, 1)] tensor: broadcasting lines the batch axis of [alpha] up with the
    frequency axis of [y_mag].  With more than one batch element, more than
    one frequency bin, and their numbers different, the product raises. *)
Lemma normalize_batch_mismatch (x_mag y_mag : tensor R) (b f t : nat) :
  shape x_mag = [b; f; t] -> shape y_mag = [b; f; t] ->
  b <> f -> b <> 1%nat -> f <> 1%nat ->
  STFTLoss_normalize x_mag y_mag = Raise RuntimeError.
Proof.
  intros Hx Hy Hbf Hb Hf. unfold STFTLoss_normalize.
  destruct (STFTLoss_alpha_spec x_mag y_mag b f t Hx Hy) as (alpha & Ha & Hs & _).
  rewrite Ha. cbn [bind]. unfold broadcast2, unsqueeze_last. cbn [shape].
  rewrite Hy, Hs. cbn [app].
  rewrite broadcast_shapes_batch_mismatch by assumption. reflexivity.
Qed.

(** With a single batch element the scaling is the one described: every
    element is multiplied by the [alpha] of that batch element. *)
Lemma STFTLoss_normalize_single_batch (x_mag y_mag : tensor R) (f t : nat) :
  shape x_mag = [1%nat; f; t] -> shape y_mag = [1%nat; f; t] ->
  exists y',
    STFTLoss_normalize x_mag y_mag = Ok y' /\ shape y' = [1%nat; f; t] /\
    forall j k, (j < f)%nat -> (k < t)%nat ->
      at_ y' [0%nat; j; k]
      = at_ y_mag [0%nat; j; k] * batch_alpha x_mag y_mag f t 0.
Proof.
  intros Hx Hy. unfold STFTLoss_normalize.
  destruct (STFTLoss_alpha_spec x_mag y_mag 1 f t Hx Hy) as (alpha & Ha & Hs & Hat).
  rewrite Ha. cbn [bind]. unfold broadcast2, unsqueeze_last. cbn [shape].
  rewrite Hy, Hs. cbn [app]. rewrite broadcast_shapes_single_batch.
  eexists. split; [reflexivity|]. split; [reflexivity|].
  intros j k Hj Hk. cbn [at_].
  rewrite (operand_index_in_range [1%nat; f; t] [0%nat; j; k])
    by (repeat constructor; assumption || lia).
  f_equal. rewrite <- (Hat 0%nat) by lia. reflexivity.
Qed.

(** With as many batch elements as frequency bins the product is defined,
    and element [(i, j, k)] is multiplied by the [alpha] of batch element
    [j], the index of its frequency bin, not by the [alpha] of [i]. *)
Lemma STFTLoss_normalize_square (x_mag y_mag : tensor R) (n t : nat) :
  shape x_mag = [n; n; t] -> shape y_mag = [n; n; t] -> n <> 1%nat ->
  exists y',
    STFTLoss_normalize x_mag y_mag = Ok y' /\ shape y' = [n; n; t] /\
    forall i j k, (i < n)%nat -> (j < n)%nat -> (k < t)%nat ->
      at_ y' [i; j; k] = at_ y_mag [i; j; k] * batch_alpha x_mag y_mag n t j.
Proof.
  intros Hx Hy Hn. unfold STFTLoss_normalize.
  destruct (STFTLoss_alpha_spec x_mag y_mag n n t Hx Hy) as (alpha & Ha & Hs & Hat).
  rewrite Ha. cbn [bind]. unfold broadcast2, unsqueeze_last. cbn [shape].
  rewrite Hy, Hs. cbn [app]. rewrite broadcast_shapes_square.
  eexists. split; [reflexivity|]. split; [reflexivity|].
  intros i j k Hi Hj Hk. cbn [at_].
  rewrite (operand_index_in_range [n; n; t] [i; j; k])
    by (repeat constructor; assumption).
  f_equal. rewrite <- (Hat j) by assumption.
  unfold operand_index. simpl.
  destruct (Nat.eqb_spec n 1); [contradiction | reflexivity].
Qed.

(** There the [alpha] of the first batch element is 1 and the [alpha] of
    the second is 2; the second bin of the first batch element is scaled
    by 2. *)
Lemma STFTLoss_normalize_wrong_alpha :
  batch_alpha two_by_two (Fixture.ones [2; 2; 1]%nat) 2 1 0 = 1 /\
  exists y',
    STFTLoss_normalize two_by_two (Fixture.ones [2; 2; 1]%nat) = Ok y' /\
    at_ y' [0; 1; 0]%nat = 2.
Proof.
  split.
  - unfold batch_alpha. simpl. field.
  - destruct (STFTLoss_normalize_square two_by_two (Fixture.ones [2; 2; 1]%nat)
                2 1 eq_refl eq_refl) as (y' & Hy' & _ & Hat); [lia|].
    exists y'. split; [assumption|].
    rewrite Hat by lia. unfold batch_alpha. simpl. field.
Qed.

(* ================================================================== *)
(** ** The spectra of a signal *)

(** A spectrum of a known shape comes with its three parts, of that
    shape. *)
Lemma STFTLoss_stft_shape {L : Libs} (self : STFTLoss) (x : tensor R)
    (s : list nat) :
  spectrum_shape self x = Ok s ->
  exists xv m re im,
    view_rows x = Ok xv /\
    STFTLoss_stft self xv = Ok (m, tt, re, im) /\
    shape m = s /\ shape re = s /\ shape im = s.
Proof.
  unfold spectrum_shape, STFTLoss_stft. intros H.
  destruct (view_rows x) as [xv|e]; [|discriminate]. cbn [bind] in H.
  destruct (torch_stft xv (fft_size self) (hop_size self)
              (win_length self) (window self)) as [sx|] eqn:E;
    [|discriminate].
  cbn [bind lift] in H. injection H as <-.
  exists xv. do 3 eexists. split; [reflexivity|].
  rewrite E. cbn [bind lift]. split; [reflexivity|].
  repeat split.
Qed.

(* ================================================================== *)
(** ** [MultiResolutionSTFTLoss] *)

Section MultiResolution.

Context {L : Libs}.

(** The loop adds every member's output to the running total. *)
Lemma accumulate_sum (fsl : list STFTLoss) (x y : tensor R) (outs : list R) :
  Forall2 (fun f o => STFTLoss_forward f x y = Ok (VTensor o)) fsl outs ->
  forall acc, accumulate fsl x y acc = Ok (acc + Rsum outs).
Proof.
  induction 1 as [|f o fsl outs Hf _ IH]; intros acc; simpl.
  - f_equal. lra.
  - rewrite Hf. simpl. rewrite IH. f_equal. lra.
Qed.

(** [__init__] stores [output] as given. *)
Lemma STFTLoss_init_output
    (fs ss wl : Z) (window : string) (w_sc w_mag w_phs w_real w_imag : R)
    (sample_rate : option Z) (scale : option string) (n_bins : option Z)
    (scale_invariance : bool) (eps : R) (out reduction : string)
    (f : STFTLoss) :
  STFTLoss_init fs ss wl window w_sc w_mag w_phs w_real w_imag
    sample_rate scale n_bins scale_invariance eps out reduction = Ok f ->
  output f = out.
Proof.
  unfold STFTLoss_init. intros H. invert_ok H.
  injection H as <-. reflexivity.
Qed.

(** A loss whose [output] is ["loss"] hands back a tensor or raises. *)
Lemma STFTLoss_forward_output_loss (f : STFTLoss) (x y : tensor R) :
  output f = "loss" ->
  STFTLoss_forward f x y
  = ('(l, _, _) <- STFTLoss_losses f x y ;; Ok (VTensor l)).
Proof.
  intros Ho. unfold STFTLoss_forward.
  destruct (STFTLoss_losses f x y) as [[[l sc] mag]|e]; simpl; [|reflexivity].
  rewrite Ho. reflexivity.
Qed.

End MultiResolution.

(* ================================================================== *)
(** ** A signal against itself, without scale invariance *)

Section Identity.

Context {L : Libs}.

(** Both magnitudes go through the same filterbank. *)
Lemma STFTLoss_scale_same (self : STFTLoss) (m m1 m2 : tensor R) :
  STFTLoss_scale self m m = Ok (m1, m2) -> m1 = m2.
Proof.
  unfold STFTLoss_scale. destruct (scale self).
  - intros H. invert_ok H. rewrite Ha0 in Ha1. congruence.
  - intros H. congruence.
Qed.

Lemma STFTLoss_terms_identity (self : STFTLoss) (m re im : tensor R) :
  STFTLoss_terms self m m re re im im = Ok (0, 0, 0).
Proof.
  unfold STFTLoss_terms.
  rewrite SpectralConvergenceLoss_self, LogSTFTMagnitudeLoss_self. simpl.
  destruct (Rlt_dec 0 (w_real self)); destruct (Rlt_dec 0 (w_imag self));
    simpl; repeat rewrite LogSTFTMagnitudeLoss_self; simpl;
    do 3 f_equal; lra.
Qed.

(** The three reductions leave a 0-dim tensor as it is. *)
Lemma apply_reduction_scalar (r : R) (mode : string) :
  In mode ["none"; "mean"; "sum"] ->
  item (apply_reduction (scalar r) mode) = r.
Proof.
  intros [<-|[<-|[<-|[]]]]; unfold apply_reduction, item; simpl;
    unfold mean_all, sum_all, elements; simpl; try field; reflexivity.
Qed.

(** Whenever the spectra of the signal are computed, the three losses of
    the signal against itself are zero. *)
Lemma STFTLoss_losses_identity (self : STFTLoss) (x xv m re im m1 m2 : tensor R) :
  view_rows x = Ok xv ->
  STFTLoss_stft self xv = Ok (m, tt, re, im) ->
  STFTLoss_scale self m m = Ok (m1, m2) ->
  scale_invariance self = false ->
  In (reduction self) ["none"; "mean"; "sum"] ->
  STFTLoss_losses self x x = Ok (0, 0, 0).
Proof.
  intros Hv Hst Hsc Hsi Hred.
  pose proof (STFTLoss_scale_same self m m1 m2 Hsc) as <-.
  unfold STFTLoss_losses. rewrite Hv. cbn [bind]. rewrite Hst. cbn [bind].
  rewrite Hsc. cbn [bind]. rewrite Hsi. cbn [bind].
  rewrite STFTLoss_terms_identity. cbn [bind].
  rewrite apply_reduction_scalar by assumption. reflexivity.
Qed.

Lemma STFTLoss_losses_identity_unscaled (self : STFTLoss) (x : tensor R)
    (s : list nat) :
  spectrum_shape self x = Ok s ->
  scale self = None ->
  scale_invariance self = false ->
  In (reduction self) ["none"; "mean"; "sum"] ->
  STFTLoss_losses self x x = Ok (0, 0, 0).
Proof.
  intros Hshape Hsc Hsi Hred.
  destruct (STFTLoss_stft_shape self x s Hshape)
    as (xv & m & re & im & Hv & Hst & _).
  apply (STFTLoss_losses_identity self x xv m re im m m); try assumption.
  unfold STFTLoss_scale. rewrite Hsc. reflexivity.
Qed.

(** In particular [forward] returns a zero total. *)
Lemma STFTLoss_forward_identity (self : STFTLoss) (x : tensor R) (s : list nat) :
  spectrum_shape self x = Ok s ->
  scale self = None ->
  scale_invariance self = false ->
  In (reduction self) ["none"; "mean"; "sum"] ->
  output self = "loss" ->
  STFTLoss_forward self x x = Ok (VTensor 0).
Proof.
  intros Hshape Hsc Hsi Hred Hout.
  unfold STFTLoss_forward.
  rewrite (STFTLoss_losses_identity_unscaled self x s) by assumption.
  simpl. rewrite Hout. reflexivity.
Qed.

(** *** With scale invariance, one batch element *)

Lemma Rsum_zero_in {A : Type} (f : A -> R) (l : list A) :
  (forall a, In a l -> f a = 0) -> Rsum (map f l) = 0.
Proof.
  intros Hf. rewrite (Rsum_ext_in f (fun _ => 0) l Hf).
  apply Rsum_zero. reflexivity.
Qed.

Lemma Rsum_squares_nonneg {A : Type} (f : A -> R) (l : list A) :
  0 <= Rsum (map (fun a => f a ^ 2) l).
Proof.
  induction l as [|a l IH]; [simpl; lra|].
  unfold Rsum in *. cbn [map fold_right].
  pose proof (pow2_ge_0 (f a)) as Ha. lra.
Qed.

(** A sum of squares is zero only when every term is. *)
Lemma Rsum_squares_zero {A : Type} (f : A -> R) (l : list A) :
  Rsum (map (fun a => f a ^ 2) l) = 0 -> forall a, In a l -> f a = 0.
Proof.
  induction l as [|b l IH]; intros Hs a Ha; [destruct Ha|].
  pose proof (pow2_ge_0 (f b)) as Hb.
  pose proof (Rsum_squares_nonneg f l) as Hl.
  unfold Rsum in *. cbn [map fold_right] in Hs.
  destruct Ha as [<-|Ha].
  - assert (H0 : f b ^ 2 = 0) by lra.
    simpl in H0. apply Rmult_integral in H0. destruct H0; lra.
  - apply IH; [lra | assumption].
Qed.

(** The two metrics of two spectra that agree inside their shape. *)
Lemma SpectralConvergenceLoss_agree (a b : tensor R) :
  shape a = shape b ->
  (forall i, In i (indices (shape a)) -> at_ a i = at_ b i) ->
  SpectralConvergenceLoss_forward a b = Ok 0.
Proof.
  intros Hs Hab. unfold SpectralConvergenceLoss_forward.
  destruct (broadcast2_same_shape Rminus b a (eq_sym Hs)) as (d & Hd & Hsd & Hat).
  rewrite Hd. cbn [bind].
  assert (Hn : norm_fro d = 0).
  { unfold norm_fro, elements. rewrite map_map, Rsum_zero_in; [apply sqrt_0|].
    intros i Hi. rewrite Hat. rewrite Hsd in Hi.
    rewrite operand_index_in_range by (apply indices_in_range; assumption).
    rewrite Hab by (rewrite Hs; assumption). simpl. lra. }
  rewrite Hn. f_equal. unfold Rdiv. lra.
Qed.

Lemma LogSTFTMagnitudeLoss_agree (a b : tensor R) :
  shape a = shape b ->
  (forall i, In i (indices (shape a)) -> at_ a i = at_ b i) ->
  LogSTFTMagnitudeLoss_forward a b = Ok 0.
Proof.
  intros Hs Hab. unfold LogSTFTMagnitudeLoss_forward, l1_loss.
  destruct (broadcast2_same_shape (fun u v => Rabs (u - v))
              (tmap ln a) (tmap ln b) Hs) as (d & Hd & Hsd & Hat).
  rewrite Hd. cbn [bind]. f_equal.
  unfold mean_all, sum_all, elements.
  rewrite Rsum_zero_in; [unfold Rdiv; lra|].
  intros i Hi. rewrite Hat. rewrite Hsd in Hi. cbn [shape tmap] in *.
  rewrite operand_index_in_range by (apply indices_in_range; assumption).
  unfold tmap. cbn [at_]. rewrite Hab by assumption.
  replace (_ - _) with 0 by lra. apply Rabs_R0.
Qed.

(** The [alpha] of a spectrum against itself leaves every element of a
    single batch element as it is: it is 1, or the batch element is zero
    throughout. *)
Lemma STFTLoss_normalize_self (m : tensor R) (f t : nat) :
  shape m = [1%nat; f; t] ->
  exists y',
    STFTLoss_normalize m m = Ok y' /\ shape y' = shape m /\
    forall i, In i (indices (shape m)) -> at_ m i = at_ y' i.
Proof.
  intros Hm.
  destruct (STFTLoss_normalize_single_batch m m f t Hm Hm)
    as (y' & Hy' & Hs & Hat).
  exists y'. split; [assumption|]. split; [congruence|].
  intros i Hi. rewrite Hm in Hi.
  pose proof (indices_in_range _ _ Hi) as Hr.
  inversion Hr as [|a d i1 s1 Ha Hr1]; subst.
  inversion Hr1 as [|j d i2 s2 Hj Hr2]; subst.
  inversion Hr2 as [|k d i3 s3 Hk Hr3]; subst.
  inversion Hr3; subst.
  assert (a = 0%nat) by lia. subst a.
  rewrite (Hat j k Hj Hk). unfold batch_alpha.
  set (S := Rsum (map (fun jk => at_ m (0%nat :: jk) ^ 2) (indices [f; t]))).
  assert (Hnum : Rsum (map (fun jk => at_ m (0%nat :: jk) * at_ m (0%nat :: jk))
                         (indices [f; t])) = S).
  { apply Rsum_ext_in. intros jk _. simpl. lra. }
  rewrite Hnum.
  destruct (Req_dec S 0) as [Hz|Hnz].
  - assert (H0 : at_ m [0%nat; j; k] = 0).
    { apply (Rsum_squares_zero (fun jk => at_ m (0%nat :: jk))
               (indices [f; t]) Hz [j; k]).
      simpl. apply in_flat_map. exists j. split; [apply in_seq; lia|].
      apply in_map. apply in_flat_map. exists k.
      split; [apply in_seq; lia | left; reflexivity]. }
    rewrite H0. lra.
  - field. exact Hnz.
Qed.

Lemma STFTLoss_terms_agree (self : STFTLoss) (m y' re im : tensor R) :
  shape m = shape y' ->
  (forall i, In i (indices (shape m)) -> at_ m i = at_ y' i) ->
  STFTLoss_terms self m y' re re im im = Ok (0, 0, 0).
Proof.
  intros Hs Hag. unfold STFTLoss_terms.
  rewrite (SpectralConvergenceLoss_agree m y' Hs Hag),
    (LogSTFTMagnitudeLoss_agree m y' Hs Hag). simpl.
  destruct (Rlt_dec 0 (w_real self)); destruct (Rlt_dec 0 (w_imag self));
    simpl; repeat rewrite LogSTFTMagnitudeLoss_self; simpl;
    do 3 f_equal; lra.
Qed.

(** With scale invariance on, no frequency scaling and a single batch
    element, the three losses of a signal against itself are zero. *)
Lemma STFTLoss_losses_identity_single_batch (self : STFTLoss) (x : tensor R)
    (f t : nat) :
  spectrum_shape self x = Ok [1%nat; f; t] ->
  scale self = None ->
  scale_invariance self = true ->
  In (reduction self) ["none"; "mean"; "sum"] ->
  STFTLoss_losses self x x = Ok (0, 0, 0).
Proof.
  intros Hshape Hsc Hsi Hred.
  destruct (STFTLoss_stft_shape self x _ Hshape)
    as (xv & m & re & im & Hv & Hst & Hm & _ & _).
  destruct (STFTLoss_normalize_self m f t Hm) as (y' & Hy' & Hs & Hag).
  unfold STFTLoss_losses. rewrite Hv. cbn [bind]. rewrite Hst. cbn [bind].
  unfold STFTLoss_scale. rewrite Hsc. cbn [bind]. rewrite Hsi, Hy'.
  cbn [bind].
  rewrite (STFTLoss_terms_agree self m y' re im (eq_sym Hs) Hag). cbn [bind].
  rewrite apply_reduction_scalar by assumption. reflexivity.
Qed.

End Identity.

Lemma example_ensemble_identity (s : tensor R) (sh : list nat) :
  spectrum_shape (example_loss 0 0 false "loss" "mean") s = Ok sh ->
  MultiResolutionSTFTLoss_forward (mrstft example_stereo) s s
  = Ok ((0 + Rsum [0]) / INR 1).
Proof.
  intros Hs. unfold MultiResolutionSTFTLoss_forward.
  rewrite (accumulate_sum _ s s [0]).
  - reflexivity.
  - repeat constructor.
    apply (STFTLoss_forward_identity _ s sh Hs); try reflexivity.
    simpl. auto.
Qed.

(* ================================================================== *)
(** ** [RandomResolutionSTFTLoss.forward]: the length check *)

Section LengthCheck.

Context {L : Libs}.

Variables input target : tensor R.
Variables n m : nat.
Variable w : world.

Hypothesis Hinput : size_last input = Ok n.
Hypothesis Htarget : size_last target = Ok m.

Let max := max_fft_size (fst w).

Lemma forward_short_input :
  (Z.of_nat n <= max)%Z ->
  RandomResolutionSTFTLoss_forward input target w
  = (Raise (ValueError (length_message "Input" (Z.of_nat n) max)), w).
Proof.
  intros Hle. unfold RandomResolutionSTFTLoss_forward, bindM, get_self, pure.
  rewrite Hinput. apply Z.leb_le in Hle. fold max. rewrite Hle. reflexivity.
Qed.

Lemma forward_short_target :
  (max < Z.of_nat n)%Z -> (Z.of_nat m <= max)%Z ->
  RandomResolutionSTFTLoss_forward input target w
  = (Raise (ValueError (length_message "Target" (Z.of_nat m) max)), w).
Proof.
  intros Hgt Hle. unfold RandomResolutionSTFTLoss_forward, bindM, get_self, pure.
  rewrite Hinput. apply Z.leb_gt in Hgt. fold max. rewrite Hgt.
  rewrite Htarget. apply Z.leb_le in Hle. rewrite Hle. reflexivity.
Qed.

Lemma forward_long :
  (max < Z.of_nat n)%Z -> (max < Z.of_nat m)%Z ->
  RandomResolutionSTFTLoss_forward input target w
  = forward_checked input target w.
Proof.
  intros Hn Hm.
  unfold RandomResolutionSTFTLoss_forward, forward_checked, bindM, get_self, pure.
  rewrite Hinput. apply Z.leb_gt in Hn. fold max. rewrite Hn.
  rewrite Htarget. apply Z.leb_gt in Hm. rewrite Hm.
  destruct (due (fst w)) as [d|e]; [|reflexivity].
  assert (Hrest : forall (r : result unit) (w1 : world),
    (match r with
     | Ok _ =>
         match accumulate (stft_losses (fst w1)) input target 0 with
         | Ok a0 =>
             match divide_by_len a0 (stft_losses (fst w1)) with
             | Ok a1 =>
                 let (r0, w'0) :=
                   put_self (set_nforwards (fst w1) (nforwards (fst w1) + 1))
                     w1 in
                 match r0 with
                 | Ok _ => ret a1 w'0
                 | Raise e => (Raise e, w'0)
                 end
             | Raise e => (Raise e, w1)
             end
         | Raise e => (Raise e, w1)
         end
     | Raise e => (Raise e, w1)
     end)
    = match r with
      | Raise e => (Raise e, w1)
      | Ok _ =>
          match evaluate_members (stft_losses (fst w1)) input target with
          | Raise e => (Raise e, w1)
          | Ok loss =>
              (Ok loss,
               (set_nforwards (fst w1) (nforwards (fst w1) + 1)%Z, snd w1))
          end
      end).
  { intros r w1. destruct r as [[]|e]; [|reflexivity].
    unfold evaluate_members.
    destruct (accumulate (stft_losses (fst w1)) input target 0) as [acc|e];
      cbn [bind]; [|reflexivity].
    destruct (divide_by_len acc (stft_losses (fst w1))) as [loss|e];
      reflexivity. }
  destruct d.
  - destruct (randomize_losses w) as [r w1]. apply Hrest.
  - apply (Hrest (Ok tt) w).
Qed.

End LengthCheck.

(* ================================================================== *)
(** ** Which calls can raise a [ValueError] *)

Lemma quiet_Ok {A : Type} (a : A) : quiet (Ok a).
Proof. intros msg H. discriminate. Qed.

Lemma quiet_bind {A B : Type} (m : result A) (k : A -> result B) :
  quiet m -> (forall a, quiet (k a)) -> quiet (bind m k).
Proof.
  intros Hm Hk msg H. destruct m as [a|e]; simpl in H.
  - exact (Hk a msg H).
  - apply (Hm msg). congruence.
Qed.

Lemma quiet_lift {A : Type} (e : exn) (o : option A) :
  (forall msg, e <> ValueError msg) -> quiet (lift e o).
Proof.
  intros He msg H. destruct o; simpl in H; [discriminate|].
  injection H as H. exact (He msg H).
Qed.

Lemma quiet_assert (b : bool) : quiet (assert b).
Proof. intros msg H. destruct b; discriminate. Qed.

Lemma quiet_broadcast2 {A B C : Type} (f : A -> B -> C)
    (a : tensor A) (b : tensor B) : quiet (broadcast2 f a b).
Proof.
  intros msg H. unfold broadcast2 in H.
  destruct (broadcast_shapes (shape a) (shape b)); discriminate.
Qed.

Lemma quiet_sum_last2 (t : tensor R) : quiet (sum_last2 t).
Proof.
  intros msg H. unfold sum_last2 in H.
  destruct (rev (shape t)) as [|? [|? ?]]; discriminate.
Qed.

Lemma quiet_view_rows {A : Type} (t : tensor A) : quiet (view_rows t).
Proof.
  intros msg H. unfold view_rows in H.
  destruct (rev (shape t)) as [|k ?]; [discriminate|].
  destruct (k =? 0)%nat; discriminate.
Qed.

(** Goes through the [bind]s of a computation, leaving its calls. *)
Ltac quiet_steps :=
  repeat first
    [ apply quiet_Ok
    | apply quiet_assert
    | apply quiet_broadcast2
    | apply quiet_sum_last2
    | apply quiet_view_rows
    | apply quiet_lift; intros ? ?; discriminate
    | apply quiet_bind; [|intros ?]
    | match goal with
      | |- quiet (let '(_, _) := ?p in _) => destruct p
      | |- quiet (if ?b then _ else _) => destruct b
      | |- quiet (match ?o with Some _ => _ | None => _ end) => destruct o
      end ].

Section Quiet.

Context {L : Libs}.

Lemma quiet_metrics (a b : tensor R) :
  quiet (SpectralConvergenceLoss_forward a b) /\
  quiet (LogSTFTMagnitudeLoss_forward a b).
Proof.
  split.
  - unfold SpectralConvergenceLoss_forward. quiet_steps.
  - unfold LogSTFTMagnitudeLoss_forward, l1_loss. quiet_steps.
Qed.

Lemma quiet_STFTLoss_losses (self : STFTLoss) (x y : tensor R) :
  quiet (STFTLoss_losses self x y).
Proof.
  unfold STFTLoss_losses, STFTLoss_stft, STFTLoss_scale, STFTLoss_normalize,
    STFTLoss_alpha, STFTLoss_terms.
  quiet_steps; try apply (proj1 (quiet_metrics _ _));
    try apply (proj2 (quiet_metrics _ _)).
Qed.

Lemma quiet_STFTLoss_forward (self : STFTLoss) (x y : tensor R) :
  quiet (STFTLoss_forward self x y).
Proof.
  unfold STFTLoss_forward. apply quiet_bind.
  - apply quiet_STFTLoss_losses.
  - intros [[l sc] mag]. quiet_steps. intros msg H. discriminate.
Qed.

Lemma quiet_STFTLoss_init
    (fs ss wl : Z) (window : string) (w_sc w_mag w_phs w_real w_imag : R)
    (sample_rate : option Z) (scale : option string) (n_bins : option Z)
    (scale_invariance : bool) (eps : R) (output reduction : string) :
  quiet (STFTLoss_init fs ss wl window w_sc w_mag w_phs w_real w_imag
           sample_rate scale n_bins scale_invariance eps output reduction).
Proof.
  unfold STFTLoss_init, setup_filterbank.
  quiet_steps; intros msg H; discriminate.
Qed.

Lemma quiet_accumulate (fsl : list STFTLoss) (x y : tensor R) (acc : R) :
  quiet (accumulate fsl x y acc).
Proof.
  revert acc. induction fsl as [|f fsl IH]; intros acc; simpl.
  - apply quiet_Ok.
  - apply quiet_bind; [apply quiet_STFTLoss_forward|]. intros v.
    apply quiet_bind; [|intros acc'; apply IH].
    destruct v; simpl; intros msg H; discriminate.
Qed.

Lemma quiet_evaluate_members (fsl : list STFTLoss) (x y : tensor R) :
  quiet (evaluate_members fsl x y).
Proof.
  unfold evaluate_members. apply quiet_bind; [apply quiet_accumulate|].
  intros acc. destruct fsl; simpl; intros msg H; discriminate.
Qed.

End Quiet.

(* ================================================================== *)
(** ** [randomize_losses] *)

Section Randomize.

Context {L : Libs}.

(** Case analysis on the scrutinee of the goal's outermost [match] or
    destructuring [let]. *)
Ltac step :=
  match goal with
  | |- context [let (_, _) := ?p in _] =>
      lazymatch p with
      | context [match _ with _ => _ end] => fail
      | _ => destruct p eqn:?
      end
  | |- context [match lift ?e ?o with _ => _ end] => destruct o; cbn [lift]
  | |- context [match ?r with Ok _ => _ | Raise _ => _ end] =>
      lazymatch r with
      | context [match _ with _ => _ end] => fail
      | _ => destruct r eqn:?
      end
  end; cbn [fst snd].

(** A draw leaves the ensemble object alone. *)
Lemma sample_loss_self (w : world) : fst (snd (sample_loss w)) = fst w.
Proof.
  unfold sample_loss, bindM, get_self, draw, draw_total, pure.
  cbn [fst snd]. repeat step; reflexivity.
Qed.

Lemma sample_loss_numpy_only (w : world) : numpy_only (sample_loss w).
Proof.
  unfold numpy_only, sample_loss, bindM, get_self, draw, draw_total, pure.
  cbn [fst snd]. intros msg.
  repeat step; intros H; try discriminate H;
    try (injection H as <-; auto; fail).
  exfalso. eapply quiet_STFTLoss_init. eassumption.
Qed.

Lemma config_set_stft_losses (self : RandomResolutionSTFTLoss)
    (l : list STFTLoss) : config (set_stft_losses self l) = config self.
Proof. destruct self. reflexivity. Qed.

Lemma randomize_loop_config (k : nat) (w : world) :
  config (fst (snd (randomize_loop k w))) = config (fst w).
Proof.
  revert w. induction k as [|k IH]; intros w; [reflexivity|].
  cbn [randomize_loop]. unfold bindM at 1.
  pose proof (sample_loss_self w) as Hs.
  destruct (sample_loss w) as [[f|e] w1]; cbn [fst snd] in *;
    [|rewrite Hs; reflexivity].
  unfold bindM, get_self, put_self. cbn [fst snd].
  rewrite IH. cbn [fst]. rewrite config_set_stft_losses, Hs. reflexivity.
Qed.

Lemma randomize_loop_length (k : nat) (w w' : world) :
  randomize_loop k w = (Ok tt, w') ->
  List.length (stft_losses (fst w'))
  = (List.length (stft_losses (fst w)) + k)%nat.
Proof.
  revert w. induction k as [|k IH]; intros w.
  - cbn [randomize_loop]. unfold ret. intros H. injection H as <-. lia.
  - cbn [randomize_loop]. unfold bindM at 1.
    pose proof (sample_loss_self w) as Hs.
    destruct (sample_loss w) as [[f|e] w1]; cbn [fst snd] in *;
      [|discriminate].
    unfold bindM, get_self, put_self. cbn [fst snd].
    intros H. apply IH in H. rewrite H. cbn [fst].
    rewrite Hs. destruct (fst w). cbn. rewrite length_app. simpl. lia.
Qed.

Lemma randomize_loop_numpy_only (k : nat) (w : world) :
  numpy_only (randomize_loop k w).
Proof.
  revert w. induction k as [|k IH]; intros w msg.
  - cbn. discriminate.
  - cbn [randomize_loop]. unfold bindM at 1.
    pose proof (sample_loss_numpy_only w msg) as Hs.
    destruct (sample_loss w) as [[f|e] w1]; cbn [fst snd] in *;
      [|intros H; apply Hs; congruence].
    unfold bindM, get_self, put_self. cbn [fst snd]. apply IH.
Qed.

(** [randomize_losses] changes nothing of the ensemble but its members. *)
Lemma randomize_losses_config (w : world) :
  config (fst (snd (randomize_losses w))) = config (fst w).
Proof.
  unfold randomize_losses, bindM, get_self, put_self. cbn [fst snd].
  rewrite randomize_loop_config. cbn [fst].
  apply config_set_stft_losses.
Qed.

(** It discards the members it finds: the outcome is the same whatever
    they are. *)
Lemma randomize_losses_discards (self : RandomResolutionSTFTLoss)
    (l : list STFTLoss) (g : rng) :
  randomize_losses (set_stft_losses self l, g) = randomize_losses (self, g).
Proof.
  unfold randomize_losses, bindM, get_self, put_self. cbn [fst snd].
  destruct self. reflexivity.
Qed.

(** When it returns, the list holds [resolutions] members. *)
Lemma randomize_losses_length (w w' : world) :
  randomize_losses w = (Ok tt, w') ->
  List.length (stft_losses (fst w')) = Z.to_nat (resolutions (fst w)).
Proof.
  unfold randomize_losses, bindM, get_self, put_self. cbn [fst snd].
  intros H. apply randomize_loop_length in H. rewrite H.
  cbn [fst]. destruct (fst w). reflexivity.
Qed.

Lemma randomize_losses_numpy_only (w : world) :
  numpy_only (randomize_losses w).
Proof.
  unfold randomize_losses, bindM, get_self, put_self. cbn [fst snd].
  apply randomize_loop_numpy_only.
Qed.

End Randomize.

(* ================================================================== *)
(** ** [RandomResolutionSTFTLoss.forward]: past the length check *)

Lemma forward_checked_numpy_only {L : Libs} (input target : tensor R)
    (w : world) : numpy_only (forward_checked input target w).
Proof.
  intros msg. unfold forward_checked, due.
  destruct (randomize_rate (fst w) =? 0)%Z; [discriminate|].
  destruct (nforwards (fst w) mod randomize_rate (fst w) =? 0)%Z.
  - pose proof (randomize_losses_numpy_only w msg) as Hr.
    destruct (randomize_losses w) as [[[]|e] w1]; cbn [fst snd] in *.
    + pose proof (@quiet_evaluate_members L (stft_losses (fst w1))
                    input target msg) as Hq.
      destruct (evaluate_members (stft_losses (fst w1)) input target);
        cbn [fst]; intros H; [discriminate | contradiction].
    + intros H. apply Hr. congruence.
  - cbn [fst snd].
    pose proof (@quiet_evaluate_members L (stft_losses (fst w))
                  input target msg) as Hq.
    destruct (evaluate_members (stft_losses (fst w)) input target);
      cbn [fst]; intros H; [discriminate | contradiction].
Qed.

(** The two messages of the length check are not numpy's. *)
Lemma length_message_not_numpy (who : string) (k mx : Z) :
  In who ["Input"; "Target"] ->
  ValueError (length_message who k mx) <> randint_error /\
  ValueError (length_message who k mx) <> choice_error.
Proof.
  intros [<-|[<-|[]]]; split; unfold length_message, randint_error,
    choice_error; simpl; intros H; discriminate H.
Qed.

Section Counter.

Context {L : Libs}.

Lemma config_nforwards (a b : RandomResolutionSTFTLoss) :
  config a = config b -> nforwards a = nforwards b.
Proof.
  intros H. change (nforwards (config a) = nforwards (config b)).
  rewrite H. reflexivity.
Qed.

Lemma randomize_losses_nforwards (w : world) :
  nforwards (fst (snd (randomize_losses w))) = nforwards (fst w).
Proof. apply config_nforwards, randomize_losses_config. Qed.

Lemma forward_checked_counted (input target : tensor R) (w : world) :
  counted w (forward_checked input target w).
Proof.
  unfold counted, forward_checked.
  destruct (due (fst w)) as [d|e]; [|reflexivity].
  assert (Hrw : nforwards
                  (fst (snd (if d then randomize_losses w else (Ok tt, w))))
                = nforwards (fst w)).
  { destruct d; [apply randomize_losses_nforwards | reflexivity]. }
  destruct (if d then randomize_losses w else (Ok tt, w)) as [r w1].
  cbn [fst snd] in *. destruct r as [[]|e]; cbn [fst snd]; [|exact Hrw].
  destruct (evaluate_members (stft_losses (fst w1)) input target);
    cbn [fst snd]; [|exact Hrw].
  destruct (fst w1). cbn in *. rewrite Hrw. reflexivity.
Qed.

Lemma forward_counted (input target : tensor R) (w : world) :
  counted w (RandomResolutionSTFTLoss_forward input target w).
Proof.
  destruct (size_last input) as [n|e] eqn:Hin.
  - destruct (Z_le_gt_dec (Z.of_nat n) (max_fft_size (fst w))) as [Hn|Hn].
    + rewrite (forward_short_input input target n w Hin Hn). reflexivity.
    + destruct (size_last target) as [m|e] eqn:Htg.
      * destruct (Z_le_gt_dec (Z.of_nat m) (max_fft_size (fst w))) as [Hm|Hm].
        -- rewrite (forward_short_target input target n m w Hin Htg);
             [reflexivity | lia | exact Hm].
        -- rewrite (forward_long input target n m w Hin Htg); [|lia|lia].
           apply forward_checked_counted.
      * unfold RandomResolutionSTFTLoss_forward, bindM, get_self, pure.
        rewrite Hin. cbn [fst snd].
        assert (Hleb : (Z.of_nat n <=? max_fft_size (fst w))%Z = false)
          by (apply Z.leb_gt; lia).
        rewrite Hleb, Htg. reflexivity.
  - unfold RandomResolutionSTFTLoss_forward, bindM, get_self, pure.
    rewrite Hin. reflexivity.
Qed.

(** Over any sequence of calls the counter grows by the number of calls
    that returned. *)
Lemma run_nforwards (calls : list (tensor R * tensor R)) (w : world) :
  nforwards (fst (snd (run calls w)))
  = (nforwards (fst w) + Z.of_nat (returned (fst (run calls w))))%Z.
Proof.
  revert w. induction calls as [|[input target] rest IH]; intros w.
  - simpl. lia.
  - cbn [run].
    pose proof (forward_counted input target w) as Hc. unfold counted in Hc.
    destruct (RandomResolutionSTFTLoss_forward input target w) as [r w1].
    specialize (IH w1). destruct (run rest w1) as [rs w2].
    cbn [fst snd] in *. rewrite IH.
    destruct r; cbn [returned]; rewrite Hc; lia.
Qed.

End Counter.

Lemma forward_checked_members {L : Libs} (input target : tensor R) (w : world) :
  randomize_rate (fst w) <> 0%Z ->
  let w' := snd (forward_checked input target w) in
  if (nforwards (fst w) mod randomize_rate (fst w) =? 0)%Z then
    stft_losses (fst w') = stft_losses (fst (snd (randomize_losses w))) /\
    snd w' = snd (snd (randomize_losses w))
  else
    stft_losses (fst w') = stft_losses (fst w) /\ snd w' = snd w.
Proof.
  intros Hrate. unfold forward_checked, due.
  apply Z.eqb_neq in Hrate. rewrite Hrate.
  assert (Hkeep : forall (r : result unit) (w1 : world),
    let w' :=
      snd (match fst (r, w1) with
           | Ok _ =>
               match evaluate_members (stft_losses (fst (snd (r, w1))))
                       input target with
               | Ok loss =>
                   (Ok loss,
                    (set_nforwards (fst (snd (r, w1)))
                       (nforwards (fst (snd (r, w1))) + 1)%Z,
                     snd (snd (r, w1))))
               | Raise e => (Raise e, snd (r, w1))
               end
           | Raise e => (@Raise R e, snd (r, w1))
           end) in
    stft_losses (fst w') = stft_losses (fst w1) /\ snd w' = snd w1).
  { intros r w1. cbn [fst snd]. destruct r as [[]|e]; [|split; reflexivity].
    destruct (evaluate_members (stft_losses (fst w1)) input target);
      split; reflexivity. }
  destruct (nforwards (fst w) mod randomize_rate (fst w) =? 0)%Z.
  - destruct (randomize_losses w) as [r w1]. apply Hkeep.
  - apply (Hkeep (Ok tt) w).
Qed.

Lemma example_ensemble_returns :
  fst (RandomResolutionSTFTLoss_forward
         (Fixture.ones [1; 1; 8]%nat) (Fixture.ones [1; 1; 8]%nat)
         example_ensemble)
  = Ok ((0 + Rsum [0]) / INR 1).
Proof.
  rewrite (forward_long (Fixture.ones [1; 1; 8]%nat)
             (Fixture.ones [1; 1; 8]%nat) 8 8 example_ensemble
             eq_refl eq_refl); [|simpl; lia|simpl; lia].
  unfold forward_checked. cbn [due example_ensemble fst snd randomize_rate
    nforwards Z.eqb Z.modulo Z.div_eucl Z.pos_div_eucl].
  change (evaluate_members _ _ _) with
    (MultiResolutionSTFTLoss_forward (mrstft example_stereo)
       (Fixture.ones [1; 1; 8]%nat) (Fixture.ones [1; 1; 8]%nat)).
  rewrite (example_ensemble_identity (Fixture.ones [1; 1; 8]%nat)
             [1; 3; 9]%nat eq_refl).
  reflexivity.
Qed.

(* ================================================================== *)
(** ** [STFTLoss.forward]: the total *)

Lemma Rsum_const {A : Type} (c : R) (l : list A) :
  Rsum (map (fun _ => c) l) = INR (List.length l) * c.
Proof.
  induction l as [|a l IH]; [simpl; lra|].
  cbn [map List.length]. rewrite S_INR. unfold Rsum in *.
  cbn [fold_right]. rewrite IH. lra.
Qed.

Lemma length_indices (s : list nat) : List.length (indices s) = numel s.
Proof.
  induction s as [|d s IH]; [reflexivity|].
  cbn [indices numel fold_right]. fold (numel s). rewrite <- IH.
  generalize 0%nat. induction d as [|d IHd]; intros k; [reflexivity|].
  cbn [seq flat_map]. rewrite length_app, length_map, IHd. reflexivity.
Qed.

(** A tensor that holds [c] at every index of its shape. *)
Lemma norm_fro_const (t : tensor R) (c : R) :
  (forall i, In i (indices (shape t)) -> at_ t i = c) ->
  norm_fro t = Rabs c * sqrt (INR (numel (shape t))).
Proof.
  intros Hc. unfold norm_fro, elements. rewrite map_map.
  rewrite (Rsum_ext_in (fun i => at_ t i ^ 2) (fun _ => c ^ 2)).
  - rewrite Rsum_const, length_indices, Rmult_comm.
    rewrite sqrt_mult; [|apply pow2_ge_0 | apply pos_INR].
    rewrite <- Rsqr_pow2, sqrt_Rsqr_abs. reflexivity.
  - intros i Hi. rewrite (Hc i Hi). reflexivity.
Qed.

Lemma mean_all_const (t : tensor R) (c : R) :
  numel (shape t) <> 0%nat ->
  (forall i, In i (indices (shape t)) -> at_ t i = c) ->
  mean_all t = c.
Proof.
  intros Hn Hc. unfold mean_all, sum_all, elements.
  rewrite (Rsum_ext_in (at_ t) (fun _ => c)) by assumption.
  rewrite Rsum_const, length_indices. field.
  apply not_0_INR. assumption.
Qed.

(** Inside the shape, the result of an operation on two tensors of one
    shape is read off the operands at the same index. *)
Lemma broadcast2_same_shape_in {A B C : Type} (f : A -> B -> C)
    (a : tensor A) (b : tensor B) :
  shape a = shape b ->
  exists d, broadcast2 f a b = Ok d /\ shape d = shape a /\
            forall i, In i (indices (shape a)) ->
                      at_ d i = f (at_ a i) (at_ b i).
Proof.
  intros Hs.
  destruct (broadcast2_same_shape f a b Hs) as (d & Hd & Hsd & Hat).
  exists d. split; [assumption|]. split; [assumption|].
  intros i Hi. rewrite Hat.
  rewrite (operand_index_in_range _ _ (indices_in_range _ _ Hi)).
  reflexivity.
Qed.

(** The two metrics on spectra that are constant: [a] everywhere in the
    estimate, [b > 0] everywhere in the target. *)
Lemma SpectralConvergenceLoss_const (x y : tensor R) (a b : R) :
  shape x = shape y ->
  numel (shape y) <> 0%nat ->
  (forall i, In i (indices (shape x)) -> at_ x i = a) ->
  (forall i, In i (indices (shape y)) -> at_ y i = b) ->
  0 < b ->
  SpectralConvergenceLoss_forward x y = Ok (Rabs (b - a) / b).
Proof.
  intros Hs Hn Hx Hy Hb. unfold SpectralConvergenceLoss_forward.
  destruct (broadcast2_same_shape_in Rminus y x (eq_sym Hs))
    as (d & Hd & Hsd & Hat).
  rewrite Hd. cbn [bind]. f_equal.
  rewrite (norm_fro_const d (b - a)), (norm_fro_const y b Hy).
  - rewrite Hsd, (Rabs_right b) by lra. field. split; [lra|].
    apply Rgt_not_eq, sqrt_lt_R0, lt_0_INR. lia.
  - intros i Hi. rewrite Hsd in Hi. rewrite (Hat i Hi), (Hy i Hi).
    rewrite Hx by (rewrite Hs; assumption). reflexivity.
Qed.

Lemma LogSTFTMagnitudeLoss_const (x y : tensor R) (a b : R) :
  shape x = shape y ->
  numel (shape y) <> 0%nat ->
  (forall i, In i (indices (shape x)) -> at_ x i = a) ->
  (forall i, In i (indices (shape y)) -> at_ y i = b) ->
  LogSTFTMagnitudeLoss_forward x y = Ok (Rabs (ln a - ln b)).
Proof.
  intros Hs Hn Hx Hy. unfold LogSTFTMagnitudeLoss_forward, l1_loss.
  destruct (broadcast2_same_shape_in (fun u v => Rabs (u - v))
              (tmap ln x) (tmap ln y) Hs) as (d & Hd & Hsd & Hat).
  rewrite Hd. cbn [bind]. f_equal. apply mean_all_const.
  - rewrite Hsd. cbn [tmap shape]. rewrite Hs. assumption.
  - intros i Hi. rewrite Hsd in Hi. cbn [tmap shape] in Hi.
    rewrite (Hat i Hi). cbn [tmap at_].
    rewrite (Hx i Hi), Hy by (rewrite <- Hs; assumption). reflexivity.
Qed.

Section Total.

Context {L : Libs}.

(** [forward] computes the spectra, then the loss terms from them, then
    the reduction of the total. *)
Lemma STFTLoss_losses_stages (self : STFTLoss) (x y : tensor R) :
  STFTLoss_losses self x y
  = ('(x_mag, y_mag, x_real, y_real, x_imag, y_imag) <-
       STFTLoss_spectra self x y ;;
     '(loss, sc_loss, mag_loss) <-
       STFTLoss_terms self x_mag y_mag x_real y_real x_imag y_imag ;;
     Ok (item (apply_reduction (scalar loss) (reduction self)),
         sc_loss, mag_loss)).
Proof.
  unfold STFTLoss_losses, STFTLoss_spectra.
  destruct (view_rows x) as [xv|e]; [|reflexivity]. cbn [bind].
  destruct (STFTLoss_stft self xv) as [[[[xm []] xr] xi]|e];
    [|reflexivity]. cbn [bind].
  destruct (view_rows y) as [yv|e]; [|reflexivity]. cbn [bind].
  destruct (STFTLoss_stft self yv) as [[[[ym []] yr] yi]|e];
    [|reflexivity]. cbn [bind].
  destruct (STFTLoss_scale self xm ym) as [[xm' ym']|e];
    [|reflexivity]. cbn [bind].
  destruct (if scale_invariance self then STFTLoss_normalize xm' ym'
            else Ok ym') as [ym''|e]; reflexivity.
Qed.

(** The total of the loss terms, given the value of each metric. *)
Lemma STFTLoss_terms_value (self : STFTLoss)
    (x_mag y_mag x_real y_real x_imag y_imag : tensor R)
    (sc mag real imag : R) :
  SpectralConvergenceLoss_forward x_mag y_mag = Ok sc ->
  LogSTFTMagnitudeLoss_forward x_mag y_mag = Ok mag ->
  (0 < w_real self -> LogSTFTMagnitudeLoss_forward x_real y_real = Ok real) ->
  (0 < w_imag self -> LogSTFTMagnitudeLoss_forward x_imag y_imag = Ok imag) ->
  STFTLoss_terms self x_mag y_mag x_real y_real x_imag y_imag
  = Ok (w_sc self * sc + w_mag self * mag
        + (if Rlt_dec 0 (w_real self) then w_real self * real else 0)
        + (if Rlt_dec 0 (w_imag self) then w_imag self * imag else 0),
        sc, mag).
Proof.
  intros Hsc Hmag Hre Him.
  unfold STFTLoss_terms. rewrite Hsc, Hmag. simpl.
  destruct (Rlt_dec 0 (w_real self)) as [Hr|Hr];
    destruct (Rlt_dec 0 (w_imag self)) as [Hi|Hi]; simpl;
    try rewrite (Hre Hr); try rewrite (Him Hi); simpl;
    do 2 f_equal; f_equal; lra.
Qed.

End Total.

(** The spectra of a constant signal of 8 samples under the small
    libraries: 3 bins, 9 frames, every bin holding the sample. *)
Lemma example_stft_level (w_real w_imag : R) (si : bool) (out red : string)
    (c : R) :
  exists xv m re im,
    view_rows (Fixture.level c [1; 1; 8]%nat) = Ok xv /\
    STFTLoss_stft (example_loss w_real w_imag si out red) xv
    = Ok (m, tt, re, im) /\
    shape m = [1; 3; 9]%nat /\ shape re = [1; 3; 9]%nat /\
    shape im = [1; 3; 9]%nat /\
    forall i, In i (indices [1; 3; 9]%nat) ->
      at_ m i = sqrt (Rmax (c ^ 2 + 0 ^ 2) default_eps) /\
      at_ re i = Rmax c default_eps /\
      at_ im i = Rmax 0 default_eps.
Proof.
  do 4 eexists. split; [reflexivity|]. split; [reflexivity|].
  split; [reflexivity|]. split; [reflexivity|]. split; [reflexivity|].
  intros i Hi. apply indices_in_range in Hi.
  inversion Hi as [|i0 d0 r0 s0 _ H0]; subst.
  inversion H0 as [|i1 d1 r1 s1 _ H1]; subst.
  inversion H1 as [|i2 d2 r2 s2 _ H2]; subst.
  inversion H2; subst.
  repeat split.
Qed.

Lemma sqrt_floor_level (c : R) :
  0 <= c -> default_eps <= c ^ 2 ->
  sqrt (Rmax (c ^ 2 + 0 ^ 2) default_eps) = c.
Proof.
  intros Hc He. rewrite Rmax_left by lra.
  replace (c ^ 2 + 0 ^ 2) with (c ^ 2) by ring.
  apply sqrt_pow2. assumption.
Qed.

(** The three metrics [forward] computes, under the small libraries, for
    the constant signal [a] against the constant signal [b], both at least
    1: every magnitude and every real part is the sample, every imaginary
    part is [eps]. *)
Lemma example_metrics_level (w_real w_imag : R) (out red : string) (a b : R) :
  1 <= a -> 1 <= b ->
  exists xm ym xr yr xi yi,
    STFTLoss_spectra (example_loss w_real w_imag false out red)
      (Fixture.level a [1; 1; 8]%nat) (Fixture.level b [1; 1; 8]%nat)
    = Ok (xm, ym, xr, yr, xi, yi) /\
    SpectralConvergenceLoss_forward xm ym = Ok (Rabs (b - a) / b) /\
    LogSTFTMagnitudeLoss_forward xm ym = Ok (Rabs (ln a - ln b)) /\
    LogSTFTMagnitudeLoss_forward xr yr = Ok (Rabs (ln a - ln b)) /\
    LogSTFTMagnitudeLoss_forward xi yi = Ok 0.
Proof.
  intros Ha Hb.
  destruct (example_stft_level w_real w_imag false out red a)
    as (xv & xm & xr & xi & Hxv & Hx & Hsxm & Hsxr & Hsxi & Hxat).
  destruct (example_stft_level w_real w_imag false out red b)
    as (yv & ym & yr & yi & Hyv & Hy & Hsym & Hsyr & Hsyi & Hyat).
  assert (Heps : default_eps <= 1) by (unfold default_eps; lra).
  assert (Hsq : forall c, 1 <= c -> default_eps <= c ^ 2).
  { intros c Hc. apply Rle_trans with 1; [assumption|].
    replace 1 with (1 ^ 2) by ring. apply pow_incr. lra. }
  exists xm, ym, xr, yr, xi, yi. split.
  { unfold STFTLoss_spectra. rewrite Hxv. cbn [bind]. rewrite Hx. cbn [bind].
    rewrite Hyv. cbn [bind]. rewrite Hy. reflexivity. }
  split; [|split; [|split]].
  - apply SpectralConvergenceLoss_const.
    + congruence.
    + rewrite Hsym. discriminate.
    + intros i Hi. rewrite Hsxm in Hi.
      rewrite (proj1 (Hxat i Hi)). apply sqrt_floor_level; [lra|auto].
    + intros i Hi. rewrite Hsym in Hi.
      rewrite (proj1 (Hyat i Hi)). apply sqrt_floor_level; [lra|auto].
    + lra.
  - apply LogSTFTMagnitudeLoss_const.
    + congruence.
    + rewrite Hsym. discriminate.
    + intros i Hi. rewrite Hsxm in Hi.
      rewrite (proj1 (Hxat i Hi)). apply sqrt_floor_level; [lra|auto].
    + intros i Hi. rewrite Hsym in Hi.
      rewrite (proj1 (Hyat i Hi)). apply sqrt_floor_level; [lra|auto].
  - apply LogSTFTMagnitudeLoss_const.
    + congruence.
    + rewrite Hsyr. discriminate.
    + intros i Hi. rewrite Hsxr in Hi.
      rewrite (proj1 (proj2 (Hxat i Hi))). apply Rmax_left. lra.
    + intros i Hi. rewrite Hsyr in Hi.
      rewrite (proj1 (proj2 (Hyat i Hi))). apply Rmax_left. lra.
  - replace 0 with (Rabs (ln default_eps - ln default_eps))
      by (rewrite Rminus_diag; apply Rabs_R0).
    apply LogSTFTMagnitudeLoss_const.
    + congruence.
    + rewrite Hsyi. discriminate.
    + intros i Hi. rewrite Hsxi in Hi.
      rewrite (proj2 (proj2 (Hxat i Hi))). apply Rmax_right.
      unfold default_eps. lra.
    + intros i Hi. rewrite Hsyi in Hi.
      rewrite (proj2 (proj2 (Hyat i Hi))). apply Rmax_right.
      unfold default_eps. lra.
Qed.

(* ================================================================== *)
(** ** A resampling under the small libraries *)

Lemma py_int_IZR (z : Z) : (0 <= z)%Z -> py_int (IZR z) = z.
Proof.
  intros Hz. unfold py_int.
  destruct (Rle_dec 0 (IZR z)) as [_|Hn];
    [|exfalso; apply Hn, IZR_le; assumption].
  unfold Int_part. rewrite <- (tech_up (IZR z) (z + 1)).
  - lia.
  - apply IZR_lt. lia.
  - rewrite plus_IZR. lra.
Qed.

(** One pass of the loop on [example_fresh]: four draws, and the member
    with FFT size [2 ** 2], hop [int(4 * 1.0)] and window length
    [int(4 * 1)]. *)
Lemma example_fresh_sample (l : list (@STFTLoss Fixture.libs)) (g : nat) :
  sample_loss (set_stft_losses (fst example_fresh) l, g)
  = (Ok example_member, (set_stft_losses (fst example_fresh) l, (4 + g)%nat)).
Proof.
  unfold sample_loss, bindM, get_self, draw, draw_total, pure.
  cbn [fst snd np_randint np_rand np_choice Fixture.libs Fixture.randint
       Fixture.rand Fixture.choice hd_error lift example_fresh
       set_stft_losses windows min_hop_size max_hop_size
       rr_w_sc rr_w_mag rr_w_phs rr_w_real rr_w_imag rr_sample_rate
       rr_scale n_mels].
  change (2 ^ 2)%Z with 4%Z.
  replace (4 * (1 + 0 * (1 - 1))) with (IZR 4) by lra.
  replace (4 * 1) with (IZR 4) by lra.
  rewrite py_int_IZR by lia.
  reflexivity.
Qed.

Lemma example_fresh_resampled :
  randomize_losses example_fresh
  = (Ok tt, (set_stft_losses (fst example_fresh) [example_member], 4%nat)).
Proof.
  unfold randomize_losses, bindM, get_self, put_self.
  cbn [fst snd]. change (Z.to_nat (resolutions (fst example_fresh))) with 1%nat.
  cbn [randomize_loop]. unfold bindM at 1.
  change (snd example_fresh) with 0%nat.
  rewrite example_fresh_sample. reflexivity.
Qed.

(** A resampling call on [example_fresh] returns: the new member compares
    the signal with itself. *)
Lemma example_fresh_returns :
  RandomResolutionSTFTLoss_forward
    (Fixture.ones [1; 1; 8]%nat) (Fixture.ones [1; 1; 8]%nat) example_fresh
  = (Ok ((0 + 0) / INR 1),
     (set_nforwards (set_stft_losses (fst example_fresh) [example_member]) 1,
      4%nat)).
Proof.
  rewrite (forward_long (Fixture.ones [1; 1; 8]%nat)
             (Fixture.ones [1; 1; 8]%nat) 8 8 example_fresh
             eq_refl eq_refl); [|simpl; lia|simpl; lia].
  unfold forward_checked.
  change (due (fst example_fresh)) with (@Ok bool true).
  cbv iota. rewrite example_fresh_resampled. cbn [fst snd].
  change (stft_losses (set_stft_losses (fst example_fresh) [example_member]))
    with [example_member].
  unfold evaluate_members. cbn [accumulate].
  rewrite (STFTLoss_forward_identity example_member
             (Fixture.ones [1; 1; 8]%nat) [1; 3; 3]%nat eq_refl eq_refl
             eq_refl ltac:(simpl; auto) eq_refl).
  reflexivity.
Qed.

(* ================================================================== *)
(** ** The claims *)

(** C1. With [output="loss"] [forward] returns the reduced total alone.
    With [output="full"] it returns nothing: no call yields a value, and a
    call whose loss terms are all computed ends in the [NameError] of the
    unbound [phs_loss] instead of handing back [(total, sc_loss, mag_loss)]. *)
Theorem STFTLoss_forward_full_raises {L : Libs}
    (self : STFTLoss) (x y : tensor R) :
  (output self = "loss" ->
   forall l sc mag,
     STFTLoss_losses self x y = Ok (l, sc, mag) ->
     STFTLoss_forward self x y = Ok (VTensor l))
  /\
  (output self = "full" ->
   (forall v, STFTLoss_forward self x y <> Ok v) /\
   (forall t, STFTLoss_losses self x y = Ok t ->
              STFTLoss_forward self x y = Raise (NameError "phs_loss"))).
Proof.
  split.
  - intros Ho l sc mag Hl. eapply STFTLoss_forward_loss; eassumption.
  - intros Ho. split.
    + intros v. apply STFTLoss_forward_full_no_value. assumption.
    + intros t Hl. eapply STFTLoss_forward_full; eassumption.
Qed.

Lemma STFTLoss_forward_full_raises_witness :
  output (example_loss 0 0 false "full" "mean") = "full" /\
  STFTLoss_forward (example_loss 0 0 false "full" "mean")
    (Fixture.ones [1; 1; 8]%nat) (Fixture.ones [1; 1; 8]%nat)
  = Raise (NameError "phs_loss").
Proof.
  split; [reflexivity|].
  refine (proj2 (proj2 (STFTLoss_forward_full_raises
                          (example_loss 0 0 false "full" "mean")
                          (Fixture.ones [1; 1; 8]%nat)
                          (Fixture.ones [1; 1; 8]%nat)) eq_refl)
            (0, 0, 0) _).
  apply (STFTLoss_losses_identity_unscaled _ _ [1; 3; 9]%nat);
    try reflexivity.
  simpl. auto.
Defined.

(** C2, as the claim states it, fails: a loss is constructed with the
    reduction mode ["median"], with the default arguments otherwise, and
    nothing is raised. *)
Lemma STFTLoss_init_accepts_unknown_reduction :
  @STFTLoss_init Fixture.libs 1024 256 1024 "hann_window" 1 1 0 0 0
    None None None false default_eps "loss" "median"
  = Ok (@mk_STFTLoss Fixture.libs 1024 256 1024 1024%Z 1 1 0 0 0
          None None None false default_eps "loss" "median" None).
Proof. reflexivity. Qed.

(** C2, amended.  [__init__] does not look at the reduction mode: whatever
    the mode, construction raises exactly what it raises with ["mean"], and
    when it succeeds the mode is stored as given. *)
Theorem STFTLoss_init_reduction_unchecked {L : Libs}
    (fft_size hop_size win_length : Z) (window : string)
    (w_sc w_mag w_phs w_real w_imag : R)
    (sample_rate : option Z) (scale : option string) (n_bins : option Z)
    (scale_invariance : bool) (eps : R) (output reduction : string) :
  STFTLoss_init fft_size hop_size win_length window
    w_sc w_mag w_phs w_real w_imag sample_rate scale n_bins
    scale_invariance eps output reduction
  = (self <- STFTLoss_init fft_size hop_size win_length window
               w_sc w_mag w_phs w_real w_imag sample_rate scale n_bins
               scale_invariance eps output "mean" ;;
     Ok (set_reduction self reduction)).
Proof.
  unfold STFTLoss_init.
  destruct (lift (AttributeError window) (torch_window window win_length))
    as [win|e]; simpl; [|reflexivity].
  destruct (scale_is scale "mel").
  - destruct (setup_filterbank librosa_mel sample_rate fft_size n_bins);
      reflexivity.
  - destruct (scale_is scale "chroma"); [|reflexivity].
    destruct (setup_filterbank librosa_chroma sample_rate fft_size n_bins);
      reflexivity.
Qed.

(** C3.  What the scaling does on [(B, F, T)] magnitudes, against the
    claim that every batch element is scaled by its own [alpha]: when the
    number of batch elements and the number of bins differ (and neither is
    1) the product raises, and when they are equal element [(i, j, k)] is
    scaled by the [alpha] of batch element [j]. *)
Theorem STFTLoss_normalize_not_per_batch
    (x_mag y_mag : tensor R) (b f t : nat) :
  shape x_mag = [b; f; t] -> shape y_mag = [b; f; t] ->
  b <> 1%nat ->
  (b <> f -> f <> 1%nat ->
   STFTLoss_normalize x_mag y_mag = Raise RuntimeError)
  /\
  (b = f ->
   exists y',
     STFTLoss_normalize x_mag y_mag = Ok y' /\
     forall i j k, (i < b)%nat -> (j < f)%nat -> (k < t)%nat ->
       at_ y' [i; j; k]
       = at_ y_mag [i; j; k] * batch_alpha x_mag y_mag f t j).
Proof.
  intros Hx Hy Hb. split.
  - intros Hbf Hf. apply (normalize_batch_mismatch x_mag y_mag b f t);
      assumption.
  - intros <-.
    destruct (STFTLoss_normalize_square x_mag y_mag b t Hx Hy Hb)
      as (y' & Hy' & _ & Hat).
    exists y'. split; assumption.
Qed.

Lemma STFTLoss_normalize_not_per_batch_witness :
  STFTLoss_normalize
    (Fixture.ones [2; 3; 1]%nat) (Fixture.ones [2; 3; 1]%nat)
  = Raise RuntimeError.
Proof.
  apply (proj1 (STFTLoss_normalize_not_per_batch
                  (Fixture.ones [2; 3; 1]%nat) (Fixture.ones [2; 3; 1]%nat)
                  2%nat 3%nat 1%nat eq_refl eq_refl
                  ltac:(lia))); lia.
Defined.

(** C4. For an input pair whose spectra [forward] computes, the total is
    [w_sc*sc_loss + w_mag*mag_loss], to which [w_real] times the
    log-magnitude distance of the real parts is added exactly when
    [w_real > 0], and likewise for the imaginary parts: [forward] hands
    [apply_reduction] this total, which the three reductions leave as it is,
    and returns it when [output] is ["loss"]; and [forward] is the same
    whatever [w_phs] is. *)
Theorem STFTLoss_total_weighted_sum {L : Libs} (self : STFTLoss)
    (x y x_mag y_mag x_real y_real x_imag y_imag : tensor R)
    (sc mag real imag : R) :
  STFTLoss_spectra self x y
  = Ok (x_mag, y_mag, x_real, y_real, x_imag, y_imag) ->
  SpectralConvergenceLoss_forward x_mag y_mag = Ok sc ->
  LogSTFTMagnitudeLoss_forward x_mag y_mag = Ok mag ->
  (0 < w_real self -> LogSTFTMagnitudeLoss_forward x_real y_real = Ok real) ->
  (0 < w_imag self -> LogSTFTMagnitudeLoss_forward x_imag y_imag = Ok imag) ->
  let total :=
    w_sc self * sc + w_mag self * mag
    + (if Rlt_dec 0 (w_real self) then w_real self * real else 0)
    + (if Rlt_dec 0 (w_imag self) then w_imag self * imag else 0) in
  STFTLoss_terms self x_mag y_mag x_real y_real x_imag y_imag
  = Ok (total, sc, mag)
  /\ STFTLoss_losses self x y
     = Ok (item (apply_reduction (scalar total) (reduction self)), sc, mag)
  /\ (In (reduction self) ["none"; "mean"; "sum"] ->
      STFTLoss_losses self x y = Ok (total, sc, mag) /\
      (output self = "loss" ->
       STFTLoss_forward self x y = Ok (VTensor total)))
  /\ (forall v x' y',
        STFTLoss_forward (set_w_phs self v) x' y'
        = STFTLoss_forward self x' y').
Proof.
  intros Hsp Hsc Hmag Hre Him total.
  pose proof (STFTLoss_terms_value self x_mag y_mag x_real y_real
                x_imag y_imag sc mag real imag Hsc Hmag Hre Him) as Hterms.
  fold total in Hterms.
  assert (Hlosses : STFTLoss_losses self x y
            = Ok (item (apply_reduction (scalar total) (reduction self)),
                  sc, mag)).
  { rewrite STFTLoss_losses_stages, Hsp. cbn [bind]. rewrite Hterms.
    reflexivity. }
  split; [exact Hterms|]. split; [exact Hlosses|]. split.
  - intros Hred.
    rewrite (apply_reduction_scalar total (reduction self) Hred) in Hlosses.
    split; [exact Hlosses|].
    intros Hout. unfold STFTLoss_forward. rewrite Hlosses. cbn [bind].
    rewrite Hout. reflexivity.
  - intros v x' y'. destruct self. reflexivity.
Qed.

Lemma STFTLoss_total_weighted_sum_witness :
  STFTLoss_forward (example_loss 1 0 false "loss" "mean")
    (Fixture.level 1 [1; 1; 8]%nat) (Fixture.level 2 [1; 1; 8]%nat)
  = Ok (VTensor (/ 2 + ln 2 + ln 2)).
Proof.
  destruct (example_metrics_level 1 0 "loss" "mean" 1 2
              ltac:(lra) ltac:(lra))
    as (xm & ym & xr & yr & xi & yi & Hsp & Hsc & Hmag & Hre & Him).
  assert (Hln : Rabs (ln 1 - ln 2) = ln 2).
  { rewrite ln_1. pose proof ln_lt_2.
    rewrite Rabs_left by lra. lra. }
  rewrite Hln in Hmag, Hre.
  replace (Rabs (2 - 1) / 2) with (/ 2) in Hsc
    by (replace (2 - 1) with 1 by lra; rewrite Rabs_R1; lra).
  destruct (STFTLoss_total_weighted_sum
              (example_loss 1 0 false "loss" "mean")
              (Fixture.level 1 [1; 1; 8]%nat) (Fixture.level 2 [1; 1; 8]%nat)
              xm ym xr yr xi yi (/ 2) (ln 2) (ln 2) 0
              Hsp Hsc Hmag (fun _ => Hre) (fun _ => Him))
    as (_ & _ & Hvalid & _).
  destruct (Hvalid ltac:(simpl; auto)) as [_ Hfw].
  rewrite (Hfw eq_refl). do 2 f_equal. cbn [w_sc w_mag w_real w_imag example_loss].
  destruct (Rlt_dec 0 1) as [_|H1]; [|exfalso; lra].
  destruct (Rlt_dec 0 0) as [H0|_]; [exfalso; lra|]. lra.
Defined.

(** C5.  [forward] raises the length error exactly when the input or the
    target is not longer than [max_fft_size].  The error names the input,
    with its length, when the input is too short, and the target, with its
    length, when only the target is; a length of exactly [max_fft_size]
    raises and, both lengths being [max_fft_size + 1], nothing of the kind
    is raised. *)
Theorem RandomResolutionSTFTLoss_forward_length_check {L : Libs}
    (input target : tensor R) (n m : nat) (w : world) :
  size_last input = Ok n ->
  size_last target = Ok m ->
  let max := max_fft_size (fst w) in
  let r := fst (RandomResolutionSTFTLoss_forward input target w) in
  ((Z.of_nat n <= max)%Z ->
   r = Raise (ValueError (length_message "Input" (Z.of_nat n) max)))
  /\
  ((max < Z.of_nat n)%Z -> (Z.of_nat m <= max)%Z ->
   r = Raise (ValueError (length_message "Target" (Z.of_nat m) max)))
  /\
  ((exists who k mx,
      In who ["Input"; "Target"] /\
      r = Raise (ValueError (length_message who k mx)))
   <-> (Z.of_nat n <= max \/ Z.of_nat m <= max)%Z)
  /\
  (Z.of_nat n = max ->
   r = Raise (ValueError (length_message "Input" max max)))
  /\
  (Z.of_nat n = (max + 1)%Z -> Z.of_nat m = (max + 1)%Z ->
   forall who k mx,
     In who ["Input"; "Target"] ->
     r <> Raise (ValueError (length_message who k mx))).
Proof.
  intros Hin Htg max r.
  assert (Hlong : (max < Z.of_nat n)%Z -> (max < Z.of_nat m)%Z ->
            forall who k mx,
              In who ["Input"; "Target"] ->
              r <> Raise (ValueError (length_message who k mx))).
  { intros Hn Hm who k mx Hwho Hr. subst r.
    rewrite (forward_long input target n m w Hin Htg Hn Hm) in Hr.
    destruct (length_message_not_numpy who k mx Hwho) as [H1 H2].
    destruct (forward_checked_numpy_only input target w _ Hr);
      contradiction. }
  assert (Hshort_in : (Z.of_nat n <= max)%Z ->
            r = Raise (ValueError (length_message "Input" (Z.of_nat n) max))).
  { intros Hle. subst r.
    rewrite (forward_short_input input target n w Hin Hle). reflexivity. }
  assert (Hshort_tg : (max < Z.of_nat n)%Z -> (Z.of_nat m <= max)%Z ->
            r = Raise (ValueError (length_message "Target" (Z.of_nat m) max))).
  { intros Hgt Hle. subst r.
    rewrite (forward_short_target input target n m w Hin Htg Hgt Hle).
    reflexivity. }
  repeat split.
  - exact Hshort_in.
  - exact Hshort_tg.
  - intros (who & k & mx & Hwho & Hr).
    destruct (Z_le_gt_dec (Z.of_nat n) max) as [Hn|Hn]; [left; exact Hn|].
    destruct (Z_le_gt_dec (Z.of_nat m) max) as [Hm|Hm]; [right; exact Hm|].
    exfalso. apply (Hlong ltac:(lia) ltac:(lia) who k mx Hwho Hr).
  - intros Hor.
    destruct (Z_le_gt_dec (Z.of_nat n) max) as [Hn|Hn].
    + exists "Input", (Z.of_nat n), max. split; [simpl; auto|].
      apply Hshort_in. exact Hn.
    + destruct Hor as [Hor|Hor]; [lia|].
      exists "Target", (Z.of_nat m), max. split; [simpl; auto|].
      apply Hshort_tg; [lia | exact Hor].
  - intros Heq. rewrite <- Heq at 1. apply Hshort_in. lia.
  - intros Hn Hm. apply Hlong; lia.
Qed.

Lemma RandomResolutionSTFTLoss_forward_length_check_witness :
  fst (RandomResolutionSTFTLoss_forward
         (Fixture.ones [1; 1; 4]%nat) (Fixture.ones [1; 1; 8]%nat)
         example_ensemble)
  = Raise (ValueError
             "Input length (4) must be larger than largest FFT size (4).").
Proof.
  apply (proj1 (RandomResolutionSTFTLoss_forward_length_check
                  (Fixture.ones [1; 1; 4]%nat) (Fixture.ones [1; 1; 8]%nat)
                  4%nat 8%nat example_ensemble eq_refl eq_refl)).
  simpl. lia.
Defined.

(** C6, as the claim states it, fails: a call whose resampling is due but
    whose input is not longer than [max_fft_size] resamples nothing.  On
    [example_fresh],
    where [nforwards % randomize_rate == 0], the call raises the length
    error and leaves the member of hop 1 and the generator without a draw,
    where a resampling leaves the member of hop 4 and makes four draws. *)
Lemma RandomResolutionSTFTLoss_forward_due_not_resampled :
  (nforwards (fst example_fresh) mod randomize_rate (fst example_fresh) = 0)%Z
  /\ RandomResolutionSTFTLoss_forward
       (Fixture.ones [1; 1; 4]%nat) (Fixture.ones [1; 1; 8]%nat) example_fresh
     = (Raise (ValueError
          "Input length (4) must be larger than largest FFT size (4)."),
        example_fresh)
  /\ map hop_size (stft_losses (fst example_fresh)) = [1%Z]
  /\ snd example_fresh = 0%nat
  /\ map hop_size (stft_losses (fst (snd (randomize_losses example_fresh))))
     = [4%Z]
  /\ snd (snd (randomize_losses example_fresh)) = 4%nat.
Proof.
  split; [reflexivity|]. split.
  - rewrite (forward_short_input (Fixture.ones [1; 1; 4]%nat)
               (Fixture.ones [1; 1; 8]%nat) 4 example_fresh eq_refl);
      [reflexivity | simpl; lia].
  - rewrite example_fresh_resampled. repeat split.
Qed.

(** C6, amended.  The member list is resampled, whole, at construction and
    at every call that passes the length check with
    [nforwards % randomize_rate == 0],
    and at no other call: not at a call past the check with another
    remainder, not at a call the length check rejects, which changes
    nothing, and not with [randomize_rate = 0], where the remainder raises;
    a call that returns adds one to [nforwards], a call that raises leaves
    it, so over any sequence of calls [nforwards] is its first value plus the
    number of calls that returned. *)
Theorem RandomResolutionSTFTLoss_resampling_and_counter {L : Libs} :
  (forall resolutions min_fft_size max_fft_size min_hop_size max_hop_size
          windows w_sc w_mag w_phs w_real w_imag sample_rate scale n_mels
          randomize_rate g self g',
     RandomResolutionSTFTLoss_init resolutions min_fft_size max_fft_size
       min_hop_size max_hop_size windows w_sc w_mag w_phs w_real w_imag
       sample_rate scale n_mels randomize_rate g = (Ok self, g') ->
     randomize_losses
       (blank resolutions min_fft_size max_fft_size min_hop_size max_hop_size
          windows w_sc w_mag w_phs w_real w_imag sample_rate scale n_mels
          randomize_rate, g) = (Ok tt, (self, g')) /\
     nforwards self = 0%Z /\
     List.length (stft_losses self) = Z.to_nat resolutions)
  /\
  (forall input target n m (w : world),
     size_last input = Ok n -> size_last target = Ok m ->
     (max_fft_size (fst w) < Z.of_nat n)%Z ->
     (max_fft_size (fst w) < Z.of_nat m)%Z ->
     randomize_rate (fst w) <> 0%Z ->
     let w' := snd (RandomResolutionSTFTLoss_forward input target w) in
     if (nforwards (fst w) mod randomize_rate (fst w) =? 0)%Z then
       stft_losses (fst w') = stft_losses (fst (snd (randomize_losses w))) /\
       snd w' = snd (snd (randomize_losses w))
     else
       stft_losses (fst w') = stft_losses (fst w) /\ snd w' = snd w)
  /\
  (forall input target n m (w : world),
     size_last input = Ok n -> size_last target = Ok m ->
     (Z.of_nat n <= max_fft_size (fst w) \/
      Z.of_nat m <= max_fft_size (fst w))%Z ->
     snd (RandomResolutionSTFTLoss_forward input target w) = w)
  /\
  (forall input target n m (w : world),
     size_last input = Ok n -> size_last target = Ok m ->
     (max_fft_size (fst w) < Z.of_nat n)%Z ->
     (max_fft_size (fst w) < Z.of_nat m)%Z ->
     randomize_rate (fst w) = 0%Z ->
     RandomResolutionSTFTLoss_forward input target w
     = (Raise ZeroDivisionError, w))
  /\
  (forall self l g,
     randomize_losses (set_stft_losses self l, g) = randomize_losses (self, g))
  /\
  (forall w w' : world,
     randomize_losses w = (Ok tt, w') ->
     List.length (stft_losses (fst w')) = Z.to_nat (resolutions (fst w)))
  /\
  (forall input target (w : world),
     let rw := RandomResolutionSTFTLoss_forward input target w in
     match fst rw with
     | Ok _ => nforwards (fst (snd rw)) = (nforwards (fst w) + 1)%Z
     | Raise _ => nforwards (fst (snd rw)) = nforwards (fst w)
     end)
  /\
  (forall calls (w : world),
     nforwards (fst (snd (run calls w)))
     = (nforwards (fst w) + Z.of_nat (returned (fst (run calls w))))%Z).
Proof.
  repeat apply conj.
  - intros resolutions min_fft_size max_fft_size min_hop_size max_hop_size
      windows w_sc w_mag w_phs w_real w_imag sample_rate scale n_mels
      randomize_rate g self g' Hinit.
    unfold RandomResolutionSTFTLoss_init in Hinit. fold (blank resolutions
      min_fft_size max_fft_size min_hop_size max_hop_size windows
      w_sc w_mag w_phs w_real w_imag sample_rate scale n_mels randomize_rate)
      in Hinit.
    set (b := blank _ _ _ _ _ _ _ _ _ _ _ _ _ _ _) in *.
    pose proof (randomize_losses_nforwards (b, g)) as Hn.
    destruct (randomize_losses (b, g)) as [[[]|e] [self1 g1]] eqn:Hr;
      [|discriminate].
    injection Hinit as <- <-. split; [reflexivity|]. split.
    + exact Hn.
    + apply (randomize_losses_length (b, g) (self1, g1) Hr).
  - intros input target n m w Hin Htg Hn Hm Hrate.
    rewrite (forward_long input target n m w Hin Htg Hn Hm).
    apply forward_checked_members. exact Hrate.
  - intros input target n m w Hin Htg Hshort.
    destruct (Z_le_gt_dec (Z.of_nat n) (max_fft_size (fst w))) as [Hn|Hn].
    + rewrite (forward_short_input input target n w Hin Hn). reflexivity.
    + destruct Hshort as [Hshort|Hshort]; [lia|].
      rewrite (forward_short_target input target n m w Hin Htg
                 ltac:(lia) Hshort).
      reflexivity.
  - intros input target n m w Hin Htg Hn Hm Hrate.
    rewrite (forward_long input target n m w Hin Htg Hn Hm).
    unfold forward_checked, due. rewrite Hrate. reflexivity.
  - apply randomize_losses_discards.
  - apply randomize_losses_length.
  - apply forward_counted.
  - apply run_nforwards.
Qed.

Lemma RandomResolutionSTFTLoss_resampling_and_counter_witness :
  (exists self,
     @RandomResolutionSTFTLoss_init Fixture.libs 1 4 4 1 1 ["hann_window"]
       1 1 0 0 0 None None None 2 0%nat = (Ok self, 4%nat) /\
     nforwards self = 0%Z /\
     List.length (stft_losses self) = 1%nat)
  /\ (let w' := snd (RandomResolutionSTFTLoss_forward
                       (Fixture.ones [1; 1; 8]%nat)
                       (Fixture.ones [1; 1; 8]%nat) example_fresh) in
      stft_losses (fst w') = [example_member] /\
      snd w' = 4%nat /\
      nforwards (fst w') = 1%Z)
  /\ (let w' := snd (RandomResolutionSTFTLoss_forward
                       (Fixture.ones [1; 1; 8]%nat)
                       (Fixture.ones [1; 1; 8]%nat) example_ensemble) in
      stft_losses (fst w') = [example_loss 0 0 false "loss" "mean"] /\
      snd w' = 0%nat /\
      nforwards (fst w') = 2%Z).
Proof.
  destruct (@RandomResolutionSTFTLoss_resampling_and_counter Fixture.libs)
    as (Hinit & Hmembers & _ & _ & Hdiscards & _ & Hcount & _).
  split; [|split].
  - assert (Hr : @RandomResolutionSTFTLoss_init Fixture.libs
                   1 4 4 1 1 ["hann_window"]
                   1 1 0 0 0 None None None 2 0%nat
                 = (Ok (set_stft_losses (fst example_fresh) [example_member]),
                    4%nat)).
    { unfold RandomResolutionSTFTLoss_init.
      change (mk_RandomResolutionSTFTLoss 1 4 4 1 1 ["hann_window"] 2
                1 1 0 0 0 None None None 0 [])
        with (set_stft_losses (fst example_fresh) []).
      rewrite (Hdiscards (fst example_fresh) [] 0%nat).
      change (fst example_fresh, 0%nat) with example_fresh.
      rewrite example_fresh_resampled. reflexivity. }
    eexists. split; [exact Hr|].
    apply (Hinit _ _ _ _ _ _ _ _ _ _ _ _ _ _ _ _ _ _ Hr).
  - cbv zeta.
    pose proof (Hmembers (Fixture.ones [1; 1; 8]%nat)
                  (Fixture.ones [1; 1; 8]%nat) 8%nat 8%nat example_fresh
                  eq_refl eq_refl ltac:(simpl; lia) ltac:(simpl; lia)
                  ltac:(simpl; lia)) as Hm.
    cbv zeta in Hm.
    change (nforwards (fst example_fresh) mod
              randomize_rate (fst example_fresh) =? 0)%Z with true in Hm.
    cbv iota in Hm. rewrite example_fresh_resampled in Hm.
    destruct Hm as [Hl Hg]. split; [exact Hl|]. split; [exact Hg|].
    specialize (Hcount (Fixture.ones [1; 1; 8]%nat)
                  (Fixture.ones [1; 1; 8]%nat) example_fresh).
    cbv zeta in Hcount. rewrite example_fresh_returns in Hcount.
    rewrite example_fresh_returns. exact Hcount.
  - cbv zeta.
    pose proof (Hmembers (Fixture.ones [1; 1; 8]%nat)
                  (Fixture.ones [1; 1; 8]%nat) 8%nat 8%nat example_ensemble
                  eq_refl eq_refl ltac:(simpl; lia) ltac:(simpl; lia)
                  ltac:(simpl; lia)) as Hm.
    cbv zeta in Hm.
    change (nforwards (fst example_ensemble) mod
              randomize_rate (fst example_ensemble) =? 0)%Z with false in Hm.
    cbv iota in Hm.
    destruct Hm as [Hl Hg]. split; [exact Hl|]. split; [exact Hg|].
    specialize (Hcount (Fixture.ones [1; 1; 8]%nat)
                  (Fixture.ones [1; 1; 8]%nat) example_ensemble).
    cbv zeta in Hcount. rewrite example_ensemble_returns in Hcount.
    exact Hcount.
Defined.

(** C7.  When every member returns, the ensemble returns the sum of the
    members' outputs divided by their number; and an ensemble built from one
    resolution returns what the single-resolution loss built from the same
    arguments returns (and raises what it raises). *)
Theorem MultiResolutionSTFTLoss_forward_mean {L : Libs} :
  (forall (self : MultiResolutionSTFTLoss) (x y : tensor R) (outs : list R),
     Forall2 (fun f o => STFTLoss_forward f x y = Ok (VTensor o))
       (mr_stft_losses self) outs ->
     mr_stft_losses self <> [] ->
     MultiResolutionSTFTLoss_forward self x y
     = Ok (Rsum outs / INR (List.length (mr_stft_losses self))))
  /\
  (forall (fs ss wl : Z) (window : string)
          (w_sc w_mag w_phs w_real w_imag : R)
          (sample_rate : option Z) (scale : option string)
          (n_bins : option Z) (scale_invariance : bool),
     match STFTLoss_init fs ss wl window w_sc w_mag w_phs w_real w_imag
             sample_rate scale n_bins scale_invariance
             default_eps "loss" "mean" with
     | Raise e =>
         MultiResolutionSTFTLoss_init [fs] [ss] [wl] window
           w_sc w_mag w_phs w_real w_imag
           sample_rate scale n_bins scale_invariance = Raise e
     | Ok f =>
         exists m,
           MultiResolutionSTFTLoss_init [fs] [ss] [wl] window
             w_sc w_mag w_phs w_real w_imag
             sample_rate scale n_bins scale_invariance = Ok m /\
           forall x y,
             STFTLoss_forward f x y
             = (v <- MultiResolutionSTFTLoss_forward m x y ;; Ok (VTensor v))
     end).
Proof.
  split.
  - intros self x y outs Hall Hne. unfold MultiResolutionSTFTLoss_forward.
    rewrite (accumulate_sum _ x y outs Hall). simpl.
    unfold divide_by_len. destruct (mr_stft_losses self); [contradiction|].
    f_equal. f_equal. lra.
  - intros fs ss wl window w_sc w_mag w_phs w_real w_imag
      sample_rate scale n_bins scale_invariance.
    unfold MultiResolutionSTFTLoss_init. simpl.
    destruct (STFTLoss_init fs ss wl window w_sc w_mag w_phs w_real w_imag
                sample_rate scale n_bins scale_invariance
                default_eps "loss" "mean") as [f|e] eqn:Hinit; simpl;
      [|reflexivity].
    eexists. split; [reflexivity|].
    intros x y. unfold MultiResolutionSTFTLoss_forward. simpl.
    rewrite (STFTLoss_forward_output_loss f x y
               (STFTLoss_init_output _ _ _ _ _ _ _ _ _ _ _ _ _ _ _ _ _ Hinit)).
    destruct (STFTLoss_losses f x y) as [[[l sc] mag]|e]; simpl; [|reflexivity].
    do 2 f_equal. field.
Qed.

Lemma MultiResolutionSTFTLoss_forward_mean_witness :
  exists m,
    @MultiResolutionSTFTLoss_init Fixture.libs [4%Z] [1%Z] [4%Z] "hann_window"
      1 1 0 0 0 None None None false = Ok m /\
    forall x y,
      STFTLoss_forward (example_loss 0 0 false "loss" "mean") x y
      = (v <- MultiResolutionSTFTLoss_forward m x y ;; Ok (VTensor v)).
Proof.
  exact (proj2 (@MultiResolutionSTFTLoss_forward_mean Fixture.libs)
           4%Z 1%Z 4%Z "hann_window" 1 1 0 0 0 None None None false).
Defined.

(** C8.  Whatever [w_sum] and [w_diff] the constructor is given, the loss it
    builds has both weights equal to 1, and on an input pair whose sum and
    difference signals have the ensemble losses [sum_loss] and [diff_loss]
    [forward] computes [((1*sum_loss) + (1*diff_loss)) / 2]: alone with
    [output="loss"], followed by the two terms with [output="full"]. *)
Theorem SumAndDifferenceSTFTLoss_forward_fixed_weights {L : Libs}
    (fft_sizes hop_sizes win_lengths : list Z) (window : string)
    (w_sum0 w_diff0 : R) (output : string)
    (self : SumAndDifferenceSTFTLoss)
    (input target input_sum input_diff target_sum target_diff : tensor R)
    (sum_loss diff_loss : R) :
  SumAndDifferenceSTFTLoss_init fft_sizes hop_sizes win_lengths window
    w_sum0 w_diff0 output = Ok self ->
  SumAndDifference_forward input = Ok (input_sum, input_diff) ->
  SumAndDifference_forward target = Ok (target_sum, target_diff) ->
  MultiResolutionSTFTLoss_forward (mrstft self) input_sum target_sum
  = Ok sum_loss ->
  MultiResolutionSTFTLoss_forward (mrstft self) input_diff target_diff
  = Ok diff_loss ->
  w_sum self = 1 /\ w_diff self = 1 /\
  SumAndDifferenceSTFTLoss_init fft_sizes hop_sizes win_lengths window
    1 1 output = Ok self /\
  SumAndDifferenceSTFTLoss_forward self input target
  = (let loss := ((1 * sum_loss) + (1 * diff_loss)) / 2 in
     if output =? "loss" then Ok (VTensor loss)
     else if output =? "full" then Ok (VTuple [loss; sum_loss; diff_loss])
     else Ok VNone).
Proof.
  intros Hinit Hin Htg Hsum Hdiff.
  unfold SumAndDifferenceSTFTLoss_init in *.
  destruct (MultiResolutionSTFTLoss_init fft_sizes hop_sizes win_lengths
              window 1 1 0 0 0 None None None false) as [mr|e];
    [|discriminate].
  simpl in Hinit. injection Hinit as <-. simpl in *.
  repeat split.
  unfold SumAndDifferenceSTFTLoss_forward. simpl.
  rewrite Hin. simpl. rewrite Htg. simpl. rewrite Hsum. simpl.
  rewrite Hdiff. simpl. reflexivity.
Qed.

Lemma SumAndDifferenceSTFTLoss_forward_fixed_weights_witness :
  @SumAndDifferenceSTFTLoss_init Fixture.libs [4%Z] [1%Z] [4%Z] "hann_window"
    5 7 "loss" = Ok example_stereo /\
  exists v,
    SumAndDifferenceSTFTLoss_forward example_stereo
      (Fixture.ones [1; 2; 8]%nat) (Fixture.ones [1; 2; 8]%nat)
    = Ok (VTensor v).
Proof.
  split; [reflexivity|].
  destruct (Fixture.sum_and_difference (Fixture.ones [1; 2; 8]%nat))
    as [[s d]|e] eqn:E; [|discriminate E].
  injection E as Es Ed.
  eexists.
  refine (proj2 (proj2 (proj2
    (@SumAndDifferenceSTFTLoss_forward_fixed_weights Fixture.libs
       [4%Z] [1%Z] [4%Z] "hann_window" 5 7 "loss" example_stereo
       (Fixture.ones [1; 2; 8]%nat) (Fixture.ones [1; 2; 8]%nat)
       s d s d _ _ eq_refl _ _ _ _)))).
  - simpl. rewrite <- Es, <- Ed. reflexivity.
  - simpl. rewrite <- Es, <- Ed. reflexivity.
  - apply (example_ensemble_identity s [1; 3; 9]%nat).
    rewrite <- Es. reflexivity.
  - apply (example_ensemble_identity d [1; 3; 9]%nat).
    rewrite <- Ed. reflexivity.
Defined.

(** C9.  A signal against itself, with [scale_invariance] on and no
    frequency scaling: when the spectrum has more than one batch element,
    more than one bin and their numbers differ, the total is not zero; it is
    not computed, for the call raises in the scaling of the target. *)
Theorem STFTLoss_identity_scale_invariant_raises {L : Libs}
    (self : STFTLoss) (x : tensor R) (b f t : nat) :
  scale self = None -> scale_invariance self = true ->
  spectrum_shape self x = Ok [b; f; t] ->
  b <> f -> b <> 1%nat -> f <> 1%nat ->
  STFTLoss_losses self x x = Raise RuntimeError /\
  STFTLoss_forward self x x = Raise RuntimeError.
Proof.
  intros Hsc Hsi Hshape Hbf Hb Hf.
  destruct (STFTLoss_stft_shape self x _ Hshape)
    as (xv & m & re & im & Hv & Hst & Hm & _ & _).
  assert (Hl : STFTLoss_losses self x x = Raise RuntimeError).
  { unfold STFTLoss_losses. rewrite Hv. cbn [bind]. rewrite Hst. cbn [bind].
    unfold STFTLoss_scale. rewrite Hsc. cbn [bind]. rewrite Hsi.
    rewrite (normalize_batch_mismatch m m b f t) by assumption.
    reflexivity. }
  split; [assumption|].
  unfold STFTLoss_forward. rewrite Hl. reflexivity.
Qed.

Lemma STFTLoss_identity_scale_invariant_raises_witness :
  STFTLoss_forward (example_loss 0 0 true "loss" "mean")
    (Fixture.ones [2; 1; 8]%nat) (Fixture.ones [2; 1; 8]%nat)
  = Raise RuntimeError.
Proof.
  apply (proj2 (STFTLoss_identity_scale_invariant_raises
                  (example_loss 0 0 true "loss" "mean")
                  (Fixture.ones [2; 1; 8]%nat) 2%nat 3%nat 9%nat
                  eq_refl eq_refl eq_refl
                  ltac:(lia) ltac:(lia) ltac:(lia))).
Defined.

(** C10.  A call that fails the length check leaves the ensemble, and
    numpy's generator, as they were: no resampling, no increment. *)
Theorem RandomResolutionSTFTLoss_forward_rejected_unchanged {L : Libs}
    (input target : tensor R) (n m : nat) (w : world) :
  size_last input = Ok n ->
  size_last target = Ok m ->
  (Z.of_nat n <= max_fft_size (fst w)
   \/ Z.of_nat m <= max_fft_size (fst w))%Z ->
  snd (RandomResolutionSTFTLoss_forward input target w) = w.
Proof.
  intros Hin Htg Hor.
  destruct (Z_le_gt_dec (Z.of_nat n) (max_fft_size (fst w))) as [Hn|Hn].
  - rewrite (forward_short_input input target n w Hin Hn). reflexivity.
  - destruct Hor as [Hor|Hor]; [lia|].
    rewrite (forward_short_target input target n m w Hin Htg); [reflexivity | lia | exact Hor].
Qed.

Lemma RandomResolutionSTFTLoss_forward_rejected_unchanged_witness :
  snd (RandomResolutionSTFTLoss_forward
         (Fixture.ones [1; 1; 8]%nat) (Fixture.ones [1; 1; 4]%nat)
         example_ensemble)
  = example_ensemble.
Proof.
  apply (RandomResolutionSTFTLoss_forward_rejected_unchanged
           (Fixture.ones [1; 1; 8]%nat) (Fixture.ones [1; 1; 4]%nat)
           8%nat 4%nat example_ensemble eq_refl eq_refl).
  right. simpl. lia.
Defined.

(* ================================================================== *)
(** ** Further properties: the spectra and the two metrics *)

Lemma Rsum_nonneg {A : Type} (f : A -> R) (l : list A) :
  (forall a, 0 <= f a) -> 0 <= Rsum (map f l).
Proof.
  intros Hf. induction l as [|a l IH]; [simpl; lra|].
  unfold Rsum in *. cbn [map fold_right].
  specialize (Hf a). lra.
Qed.

(** The mean of a tensor without negative element is not negative; the
    mean of a tensor without element is the 0 of [0 / 0]. *)
Lemma mean_all_nonneg (t : tensor R) :
  (forall i, 0 <= at_ t i) -> 0 <= mean_all t.
Proof.
  intros Ht. unfold mean_all, sum_all, elements.
  pose proof (Rsum_nonneg (at_ t) (indices (shape t)) Ht) as Hs.
  destruct (numel (shape t)) as [|k] eqn:Hk.
  - rewrite <- length_indices in Hk.
    apply length_zero_iff_nil in Hk. rewrite Hk. simpl.
    unfold Rdiv. lra.
  - apply Rle_mult_inv_pos; [assumption|].
    apply lt_0_INR. lia.
Qed.

Lemma broadcast_rev_sym (a b : list nat) :
  broadcast_rev a b = broadcast_rev b a.
Proof.
  revert b. induction a as [|x a IH]; intros [|y b]; try reflexivity.
  simpl. rewrite (IH b).
  destruct (Nat.eqb_spec x y) as [->|Hxy].
  - rewrite Nat.eqb_refl. reflexivity.
  - destruct (Nat.eqb_spec y x) as [Hyx|_]; [congruence|].
    destruct (Nat.eqb_spec x 1) as [->|Hx];
      destruct (Nat.eqb_spec y 1) as [->|Hy];
      try reflexivity; congruence.
Qed.

Lemma broadcast_shapes_sym (a b : list nat) :
  broadcast_shapes a b = broadcast_shapes b a.
Proof. unfold broadcast_shapes. rewrite broadcast_rev_sym. reflexivity. Qed.

Lemma SpectralConvergenceLoss_value (x y : tensor R) (v : R) :
  SpectralConvergenceLoss_forward x y = Ok v ->
  exists d, broadcast2 Rminus y x = Ok d /\ v = norm_fro d / norm_fro y.
Proof.
  unfold SpectralConvergenceLoss_forward. intros H.
  destruct (broadcast2 Rminus y x) as [d|e]; [|discriminate].
  injection H as <-. exists d. split; reflexivity.
Qed.

Lemma SpectralConvergenceLoss_nonneg (x y : tensor R) (v : R) :
  SpectralConvergenceLoss_forward x y = Ok v -> 0 < norm_fro y -> 0 <= v.
Proof.
  intros H Hy. destruct (SpectralConvergenceLoss_value x y v H) as (d & _ & ->).
  apply Rle_mult_inv_pos; [apply sqrt_pos | assumption].
Qed.

Lemma LogSTFTMagnitudeLoss_nonneg (x y : tensor R) (v : R) :
  LogSTFTMagnitudeLoss_forward x y = Ok v -> 0 <= v.
Proof.
  unfold LogSTFTMagnitudeLoss_forward, l1_loss, broadcast2. intros H.
  destruct (broadcast_shapes (shape (tmap ln x)) (shape (tmap ln y)));
    [|discriminate].
  injection H as <-. apply mean_all_nonneg. intros i. apply Rabs_pos.
Qed.

(** X1.  The spectra [stft] hands back are floored: every magnitude is at
    least [sqrt(eps)], every real and imaginary part at least [eps]; so with
    a positive [eps] all of them are positive, whatever the signal.  The
    three spectra have one shape. *)
Theorem STFTLoss_stft_floor {L : Libs} (self : STFTLoss) (x : tensor R)
    (x_mag x_real x_imag : tensor R) (x_phs : unit) :
  STFTLoss_stft self x = Ok (x_mag, x_phs, x_real, x_imag) ->
  shape x_mag = shape x_real /\ shape x_real = shape x_imag /\
  (forall i, sqrt (eps self) <= at_ x_mag i /\
             eps self <= at_ x_real i /\ eps self <= at_ x_imag i) /\
  (0 < eps self ->
   forall i, 0 < at_ x_mag i /\ 0 < at_ x_real i /\ 0 < at_ x_imag i).
Proof.
  unfold STFTLoss_stft. intros H.
  destruct (lift RuntimeError _) as [sx|e]; [|discriminate].
  cbn [bind] in H. injection H as <- _ <- <-.
  assert (Hfloor : forall i,
            sqrt (eps self)
            <= at_ (tmap sqrt (clamp_min (eps self)
                     (tmap (fun c => fst c ^ 2 + snd c ^ 2) sx))) i /\
            eps self <= at_ (clamp_min (eps self) (tmap fst sx)) i /\
            eps self <= at_ (clamp_min (eps self) (tmap snd sx)) i).
  { intros i. unfold clamp_min, tmap. cbn [at_].
    repeat split; [apply sqrt_le_1_alt| |]; apply Rmax_r. }
  repeat split; try apply Hfloor.
  - destruct (Hfloor i) as (Hm & _).
    apply (Rlt_le_trans _ (sqrt (eps self)));
      [apply sqrt_lt_R0; assumption | exact Hm].
  - destruct (Hfloor i) as (_ & Hr & _).
    apply (Rlt_le_trans _ (eps self)); assumption.
  - destruct (Hfloor i) as (_ & _ & Hi).
    apply (Rlt_le_trans _ (eps self)); assumption.
Qed.

Lemma STFTLoss_stft_floor_witness :
  exists x_mag x_real x_imag,
    STFTLoss_stft (example_loss 0 0 false "loss" "mean")
      (Fixture.ones [1; 8]%nat) = Ok (x_mag, tt, x_real, x_imag) /\
    forall i, 0 < at_ x_mag i /\ 0 < at_ x_real i /\ 0 < at_ x_imag i.
Proof.
  do 3 eexists. split; [reflexivity|].
  refine (proj2 (proj2 (proj2 (STFTLoss_stft_floor
            (example_loss 0 0 false "loss" "mean") (Fixture.ones [1; 8]%nat)
            _ _ _ tt eq_refl))) _).
  unfold example_loss, default_eps. cbn [eps].
  apply Rinv_0_lt_compat. lra.
Defined.

(** X2.  On spectra of one shape, with a target that is not zero
    throughout, the spectral convergence is zero exactly when the estimate
    equals the target at every index of the shape. *)
Theorem SpectralConvergenceLoss_zero_iff (x_mag y_mag : tensor R) :
  shape x_mag = shape y_mag ->
  norm_fro y_mag <> 0 ->
  (SpectralConvergenceLoss_forward x_mag y_mag = Ok 0
   <-> forall i, In i (indices (shape x_mag)) -> at_ x_mag i = at_ y_mag i).
Proof.
  intros Hs Hy. split.
  - intros H i Hi.
    destruct (SpectralConvergenceLoss_value _ _ _ H) as (d & Hd & Hv).
    destruct (broadcast2_same_shape Rminus y_mag x_mag (eq_sym Hs))
      as (d' & Hd' & Hsd & Hat).
    rewrite Hd in Hd'. injection Hd' as <-.
    assert (Hn : norm_fro d = 0).
    { unfold Rdiv in Hv. symmetry in Hv.
      apply Rmult_integral in Hv. destruct Hv as [Hv|Hv]; [exact Hv|].
      exfalso. revert Hv. apply Rinv_neq_0_compat. exact Hy. }
    unfold norm_fro, elements in Hn. rewrite map_map in Hn.
    apply sqrt_eq_0 in Hn; [|apply Rsum_squares_nonneg].
    assert (Hi' : In i (indices (shape d))) by (rewrite Hsd, <- Hs; exact Hi).
    pose proof (Rsum_squares_zero (at_ d) (indices (shape d)) Hn i Hi') as Hz.
    rewrite Hat in Hz.
    rewrite operand_index_in_range in Hz
      by (apply indices_in_range; rewrite <- Hs; exact Hi).
    lra.
  - intros Hag. apply SpectralConvergenceLoss_agree; assumption.
Qed.

Lemma SpectralConvergenceLoss_zero_iff_witness :
  SpectralConvergenceLoss_forward
    (Fixture.ones [1; 1; 1]%nat) (Fixture.ones [1; 1; 1]%nat) = Ok 0.
Proof.
  apply (proj2 (SpectralConvergenceLoss_zero_iff
                  (Fixture.ones [1; 1; 1]%nat) (Fixture.ones [1; 1; 1]%nat)
                  eq_refl
                  ltac:(unfold norm_fro, elements; simpl;
                        intros H; apply sqrt_eq_0 in H; lra))).
  intros i _. reflexivity.
Defined.

(** X3.  The log-magnitude distance is symmetric: exchanging estimate and
    target gives the same value, or the same shape error. *)
Theorem LogSTFTMagnitudeLoss_symmetric (x_mag y_mag : tensor R) :
  LogSTFTMagnitudeLoss_forward x_mag y_mag
  = LogSTFTMagnitudeLoss_forward y_mag x_mag.
Proof.
  unfold LogSTFTMagnitudeLoss_forward, l1_loss, broadcast2.
  rewrite (broadcast_shapes_sym (shape (tmap ln y_mag))).
  destruct (broadcast_shapes (shape (tmap ln x_mag)) (shape (tmap ln y_mag)))
    as [s|]; [|reflexivity].
  cbn [bind]. f_equal. unfold mean_all, sum_all, elements. cbn [shape at_].
  f_equal. apply Rsum_ext_in. intros i _. apply Rabs_minus_sym.
Qed.

Lemma Rsum_pos {A : Type} (f : A -> R) (l : list A) :
  l <> [] -> (forall a, In a l -> 0 < f a) -> 0 < Rsum (map f l).
Proof.
  intros Hl Hf. destruct l as [|a l]; [contradiction|]. clear Hl.
  assert (Hs : 0 <= Rsum (map f l)).
  { rewrite (Rsum_ext_in f (fun b => Rmax (f b) 0)).
    - apply Rsum_nonneg. intros b. apply Rmax_r.
    - intros b Hb. rewrite Rmax_left; [reflexivity|].
      apply Rlt_le, Hf. right. exact Hb. }
  unfold Rsum in *. cbn [map fold_right].
  specialize (Hf a (or_introl eq_refl)). lra.
Qed.

(** A tensor with an element, all of whose elements are positive, has a
    positive norm. *)
Lemma norm_fro_positive (t : tensor R) :
  numel (shape t) <> 0%nat ->
  (forall i, In i (indices (shape t)) -> 0 < at_ t i) ->
  0 < norm_fro t.
Proof.
  intros Hn Ht. unfold norm_fro, elements. rewrite map_map.
  apply sqrt_lt_R0. apply Rsum_pos.
  - intros Hnil. apply Hn. rewrite <- length_indices, Hnil. reflexivity.
  - intros i Hi. apply pow_lt. apply Ht. exact Hi.
Qed.

(** With a positive [eps] the three spectra of [stft] are positive. *)
Lemma STFTLoss_stft_positive {L : Libs} (self : STFTLoss) (x : tensor R)
    (m re im : tensor R) (u : unit) :
  STFTLoss_stft self x = Ok (m, u, re, im) ->
  0 < eps self ->
  forall i, 0 < at_ m i /\ 0 < at_ re i /\ 0 < at_ im i.
Proof.
  unfold STFTLoss_stft. intros H Heps i.
  destruct (lift RuntimeError _) as [sx|e]; [|discriminate].
  cbn [bind] in H. injection H as <- _ <- <-.
  unfold clamp_min, tmap. cbn [at_]. repeat split.
  - apply sqrt_lt_R0. eapply Rlt_le_trans; [exact Heps | apply Rmax_r].
  - eapply Rlt_le_trans; [exact Heps | apply Rmax_r].
  - eapply Rlt_le_trans; [exact Heps | apply Rmax_r].
Qed.

(** X4.  Without frequency scaling and scale invariance, with a positive
    [eps], a valid reduction and non-negative [w_sc] and [w_mag], [forward]
    on two signals whose spectra have one shape, with at least one element,
    computes its terms from positive spectra and a target of positive norm,
    so that no logarithm of 0 and no division by 0 is taken, and the total
    it returns and its two magnitude terms are not negative, whatever
    [w_real] and [w_imag] are. *)
Theorem STFTLoss_forward_nonneg {L : Libs} (self : STFTLoss)
    (x y : tensor R) (s : list nat) :
  scale self = None ->
  scale_invariance self = false ->
  0 < eps self ->
  In (reduction self) ["none"; "mean"; "sum"] ->
  0 <= w_sc self -> 0 <= w_mag self ->
  spectrum_shape self x = Ok s ->
  spectrum_shape self y = Ok s ->
  numel s <> 0%nat ->
  exists x_mag y_mag x_real y_real x_imag y_imag loss sc_loss mag_loss,
    STFTLoss_spectra self x y
    = Ok (x_mag, y_mag, x_real, y_real, x_imag, y_imag) /\
    (forall i, 0 < at_ x_mag i /\ 0 < at_ y_mag i /\
               0 < at_ x_real i /\ 0 < at_ y_real i /\
               0 < at_ x_imag i /\ 0 < at_ y_imag i) /\
    0 < norm_fro y_mag /\
    STFTLoss_losses self x y = Ok (loss, sc_loss, mag_loss) /\
    0 <= loss /\ 0 <= sc_loss /\ 0 <= mag_loss /\
    (output self = "loss" ->
     STFTLoss_forward self x y = Ok (VTensor loss)).
Proof.
  intros Hscale Hsi Heps Hred Hwsc Hwmag Hx Hy Hn.
  destruct (STFTLoss_stft_shape self x s Hx)
    as (xv & xm & xr & xi & Hxv & Hxst & Hsxm & Hsxr & Hsxi).
  destruct (STFTLoss_stft_shape self y s Hy)
    as (yv & ym & yr & yi & Hyv & Hyst & Hsym & Hsyr & Hsyi).
  pose proof (STFTLoss_stft_positive self xv xm xr xi tt Hxst Heps) as Hxp.
  pose proof (STFTLoss_stft_positive self yv ym yr yi tt Hyst Heps) as Hyp.
  assert (Hsp : STFTLoss_spectra self x y = Ok (xm, ym, xr, yr, xi, yi)).
  { unfold STFTLoss_spectra, STFTLoss_scale.
    rewrite Hxv. cbn [bind]. rewrite Hxst. cbn [bind].
    rewrite Hyv. cbn [bind]. rewrite Hyst. cbn [bind].
    rewrite Hscale, Hsi. reflexivity. }
  assert (Hnorm : 0 < norm_fro ym).
  { apply norm_fro_positive; [rewrite Hsym; exact Hn|].
    intros i _. apply (Hyp i). }
  destruct (SpectralConvergenceLoss_defined xm ym ltac:(congruence))
    as (sc & Hsc).
  destruct (LogSTFTMagnitudeLoss_defined xm ym ltac:(congruence))
    as (mag & Hmag).
  destruct (LogSTFTMagnitudeLoss_defined xr yr ltac:(congruence))
    as (real & Hreal).
  destruct (LogSTFTMagnitudeLoss_defined xi yi ltac:(congruence))
    as (imag & Himag).
  pose proof (STFTLoss_terms_value self xm ym xr yr xi yi sc mag real imag
                Hsc Hmag (fun _ => Hreal) (fun _ => Himag)) as Hterms.
  pose proof (SpectralConvergenceLoss_nonneg _ _ _ Hsc Hnorm) as Hsc0.
  pose proof (LogSTFTMagnitudeLoss_nonneg _ _ _ Hmag) as Hmag0.
  pose proof (LogSTFTMagnitudeLoss_nonneg _ _ _ Hreal) as Hreal0.
  pose proof (LogSTFTMagnitudeLoss_nonneg _ _ _ Himag) as Himag0.
  set (total := w_sc self * sc + w_mag self * mag
                + (if Rlt_dec 0 (w_real self) then w_real self * real else 0)
                + (if Rlt_dec 0 (w_imag self) then w_imag self * imag else 0))
    in *.
  assert (Hlosses : STFTLoss_losses self x y = Ok (total, sc, mag)).
  { rewrite STFTLoss_losses_stages, Hsp. cbn [bind]. rewrite Hterms.
    cbn [bind]. rewrite (apply_reduction_scalar total _ Hred). reflexivity. }
  exists xm, ym, xr, yr, xi, yi, total, sc, mag.
  split; [exact Hsp|]. split.
  { intros i. destruct (Hxp i) as (? & ? & ?).
    destruct (Hyp i) as (? & ? & ?). repeat split; assumption. }
  split; [exact Hnorm|]. split; [exact Hlosses|]. split.
  { unfold total.
    repeat apply Rplus_le_le_0_compat.
    - apply Rmult_le_pos; assumption.
    - apply Rmult_le_pos; assumption.
    - destruct (Rlt_dec 0 (w_real self)); [apply Rmult_le_pos|]; lra.
    - destruct (Rlt_dec 0 (w_imag self)); [apply Rmult_le_pos|]; lra. }
  split; [exact Hsc0|]. split; [exact Hmag0|].
  intros Hout. unfold STFTLoss_forward. rewrite Hlosses. cbn [bind].
  rewrite Hout. reflexivity.
Qed.

Lemma STFTLoss_forward_nonneg_witness :
  exists loss,
    STFTLoss_forward (example_loss 1 0 false "loss" "mean")
      (Fixture.level 1 [1; 1; 8]%nat) (Fixture.level 2 [1; 1; 8]%nat)
    = Ok (VTensor loss) /\ 0 <= loss.
Proof.
  destruct (STFTLoss_forward_nonneg (example_loss 1 0 false "loss" "mean")
              (Fixture.level 1 [1; 1; 8]%nat) (Fixture.level 2 [1; 1; 8]%nat)
              [1; 3; 9]%nat eq_refl eq_refl
              ltac:(apply Rinv_0_lt_compat; lra)
              ltac:(simpl; auto)
              ltac:(simpl; lra) ltac:(simpl; lra)
              eq_refl eq_refl ltac:(discriminate))
    as (xm & ym & xr & yr & xi & yi & loss & sc & mag
        & _ & _ & _ & _ & Hloss & _ & _ & Hfw).
  exists loss. split; [exact (Hfw eq_refl) | exact Hloss].
Defined.

(* ================================================================== *)
(** ** Further properties: [STFTLoss.__init__] and [forward] *)

(** What [__init__] stores. *)
Lemma STFTLoss_init_fields {L : Libs}
    (fs ss wl : Z) (win : string) (a b c d e : R)
    (sr : option Z) (sc : option string) (nb : option Z)
    (si : bool) (ep : R) (out red : string) (f : STFTLoss) :
  STFTLoss_init fs ss wl win a b c d e sr sc nb si ep out red = Ok f ->
  fft_size f = fs /\ hop_size f = ss /\ win_length f = wl /\
  w_sc f = a /\ w_mag f = b /\ w_phs f = c /\ w_real f = d /\ w_imag f = e /\
  sample_rate f = sr /\ scale f = sc /\ n_bins f = nb /\
  scale_invariance f = si /\ eps f = ep /\ output f = out /\
  reduction f = red.
Proof.
  unfold STFTLoss_init. intros H. invert_ok H.
  injection H as <-. repeat split.
Qed.

(** X5.  What the constructor checks once the window is built, in the
    order it checks: for the mel and the chroma scale, a missing sample rate
    is an [AssertionError], a missing [n_bins] a [TypeError], and more bins
    than [fft_size] an [AssertionError], all three before librosa is asked
    for the filterbank; with any other scale nothing more is checked and the
    loss is built without a filterbank. *)
Theorem STFTLoss_init_errors {L : Libs}
    (fs ss wl : Z) (win : string) (w : window_tensor) (a b c d e : R)
    (sr : option Z) (sc : option string) (nb : option Z)
    (si : bool) (ep : R) (out red : string) :
  torch_window win wl = Some w ->
  let init := STFTLoss_init fs ss wl win a b c d e sr sc nb si ep out red in
  (sc = Some "mel" \/ sc = Some "chroma" ->
   (sr = None -> init = Raise AssertionError) /\
   (sr <> None -> nb = None -> init = Raise TypeError) /\
   (sr <> None -> forall n, nb = Some n -> (fs < n)%Z ->
                  init = Raise AssertionError))
  /\
  (sc <> Some "mel" -> sc <> Some "chroma" ->
   init = Ok (mk_STFTLoss fs ss wl w a b c d e sr sc nb si ep out red None)).
Proof.
  intros Hw init. unfold init, STFTLoss_init. rewrite Hw. cbn [lift bind].
  split.
  - intros Hsc. repeat split.
    + intros ->. destruct Hsc as [-> | ->]; reflexivity.
    + intros Hsr ->. destruct sr as [r|]; [|contradiction].
      destruct Hsc as [-> | ->]; reflexivity.
    + intros Hsr n -> Hlt. destruct sr as [r|]; [|contradiction].
      assert (Hleb : (n <=? fs)%Z = false) by (apply Z.leb_gt; exact Hlt).
      destruct Hsc as [-> | ->]; cbn; rewrite Hleb; reflexivity.
  - intros Hmel Hchroma.
    assert (H1 : scale_is sc "mel" = false).
    { destruct sc as [s|]; [|reflexivity]. cbn.
      apply String.eqb_neq. congruence. }
    assert (H2 : scale_is sc "chroma" = false).
    { destruct sc as [s|]; [|reflexivity]. cbn.
      apply String.eqb_neq. congruence. }
    rewrite H1, H2. reflexivity.
Qed.

Lemma STFTLoss_init_errors_witness :
  @STFTLoss_init Fixture.libs 8 2 8 "hann_window" 1 1 0 0 0
    (Some 16000%Z) (Some "mel") (Some 9%Z) false default_eps "loss" "mean"
  = Raise AssertionError /\
  @STFTLoss_init Fixture.libs 8 2 8 "hann_window" 1 1 0 0 0
    (Some 16000%Z) (Some "chroma") None false default_eps "loss" "mean"
  = Raise TypeError /\
  @STFTLoss_init Fixture.libs 8 2 8 "hann_window" 1 1 0 0 0
    None (Some "bark") None false default_eps "loss" "mean"
  = Ok (@mk_STFTLoss Fixture.libs 8 2 8 8%Z 1 1 0 0 0
          None (Some "bark") None false default_eps "loss" "mean" None).
Proof.
  split; [|split].
  - refine (proj2 (proj2 (proj1
      (@STFTLoss_init_errors Fixture.libs 8 2 8 "hann_window" 8%Z 1 1 0 0 0
         (Some 16000%Z) (Some "mel") (Some 9%Z) false default_eps
         "loss" "mean" eq_refl) _)) _ 9%Z eq_refl _);
      first [discriminate | left; reflexivity | lia].
  - refine (proj1 (proj2 (proj1
      (@STFTLoss_init_errors Fixture.libs 8 2 8 "hann_window" 8%Z 1 1 0 0 0
         (Some 16000%Z) (Some "chroma") None false default_eps
         "loss" "mean" eq_refl) _)) _ eq_refl);
      first [discriminate | right; reflexivity].
  - apply (proj2
      (@STFTLoss_init_errors Fixture.libs 8 2 8 "hann_window" 8%Z 1 1 0 0 0
         None (Some "bark") None false default_eps "loss" "mean" eq_refl));
      discriminate.
Defined.

(** X6.  A scale other than [None], ["mel"] and ["chroma"] passes the
    constructor, which builds no filterbank for it; the error comes at the
    first call: once both spectra are computed, [forward] raises the
    [AttributeError] of the missing [fb]. *)
Theorem STFTLoss_unknown_scale_deferred {L : Libs}
    (fs ss wl : Z) (win : string) (a b c d e : R)
    (sr : option Z) (s : string) (nb : option Z)
    (si : bool) (ep : R) (out red : string) :
  torch_window win wl <> None ->
  s <> "mel" -> s <> "chroma" ->
  exists self,
    STFTLoss_init fs ss wl win a b c d e sr (Some s) nb si ep out red
    = Ok self /\
    fb self = None /\
    forall x y sx sy,
      spectrum_shape self x = Ok sx -> spectrum_shape self y = Ok sy ->
      STFTLoss_forward self x y = Raise (AttributeError "fb").
Proof.
  intros Hw Hmel Hchroma.
  destruct (torch_window win wl) as [w|] eqn:Ew; [|contradiction].
  eexists. split.
  - unfold STFTLoss_init. rewrite Ew. cbn [lift bind scale_is].
    apply String.eqb_neq in Hmel, Hchroma. rewrite Hmel, Hchroma.
    reflexivity.
  - split; [reflexivity|].
    intros x y sx sy Hx Hy.
    destruct (STFTLoss_stft_shape _ x sx Hx)
      as (xv & xm & xre & xim & Hxv & Hxst & _).
    destruct (STFTLoss_stft_shape _ y sy Hy)
      as (yv & ym & yre & yim & Hyv & Hyst & _).
    unfold STFTLoss_forward, STFTLoss_losses.
    rewrite Hxv. cbn [bind]. rewrite Hxst. cbn [bind].
    rewrite Hyv. cbn [bind]. rewrite Hyst. cbn [bind].
    reflexivity.
Qed.

Lemma STFTLoss_unknown_scale_deferred_witness :
  exists self,
    @STFTLoss_init Fixture.libs 4 1 4 "hann_window" 1 1 0 0 0
      None (Some "bark") None false default_eps "loss" "mean" = Ok self /\
    STFTLoss_forward self
      (Fixture.ones [1; 1; 8]%nat) (Fixture.ones [1; 1; 8]%nat)
    = Raise (AttributeError "fb").
Proof.
  destruct (@STFTLoss_unknown_scale_deferred Fixture.libs 4 1 4 "hann_window"
              1 1 0 0 0 None "bark" None false default_eps "loss" "mean")
    as (self & Hinit & _ & Hfwd); try discriminate.
  exists self. split; [exact Hinit|].
  injection Hinit as <-.
  apply (Hfwd _ _ [1; 3; 9]%nat [1; 3; 9]%nat); reflexivity.
Defined.

(** X7.  Weights of the real and imaginary terms that are not positive are
    ignored, not subtracted: the call is the one made with both weights at
    0, and the real and imaginary parts are not compared at all. *)
Theorem STFTLoss_forward_nonpositive_weights {L : Libs}
    (self : STFTLoss) (x y : tensor R) :
  w_real self <= 0 -> w_imag self <= 0 ->
  STFTLoss_forward self x y
  = STFTLoss_forward (set_w_real_imag self 0 0) x y.
Proof.
  intros Hr Hi.
  assert (Hterms : forall xm ym xr yr xi yi,
            STFTLoss_terms self xm ym xr yr xi yi
            = STFTLoss_terms (set_w_real_imag self 0 0) xm ym xr yr xi yi).
  { intros. unfold STFTLoss_terms, set_w_real_imag. cbn [w_sc w_mag w_real w_imag].
    destruct (SpectralConvergenceLoss_forward xm ym); [|reflexivity].
    destruct (LogSTFTMagnitudeLoss_forward xm ym); [|reflexivity].
    cbn [bind].
    destruct (Rlt_dec 0 (w_real self)); [lra|].
    destruct (Rlt_dec 0 (w_imag self)); [lra|].
    destruct (Rlt_dec 0 0); [lra|]. reflexivity. }
  unfold STFTLoss_forward, STFTLoss_losses.
  destruct (view_rows x) as [xv|]; [|reflexivity]. cbn [bind].
  change (STFTLoss_stft (set_w_real_imag self 0 0)) with (STFTLoss_stft self).
  destruct (STFTLoss_stft self xv) as [[[[xm xp] xr] xi]|]; [|reflexivity].
  cbn [bind].
  destruct (view_rows y) as [yv|]; [|reflexivity]. cbn [bind].
  destruct (STFTLoss_stft self yv) as [[[[ym yp] yr] yi]|]; [|reflexivity].
  cbn [bind].
  change (STFTLoss_scale (set_w_real_imag self 0 0)) with (STFTLoss_scale self).
  destruct (STFTLoss_scale self xm ym) as [[xm' ym']|]; [|reflexivity].
  cbn [bind].
  change (scale_invariance (set_w_real_imag self 0 0))
    with (scale_invariance self).
  destruct (if scale_invariance self then STFTLoss_normalize xm' ym'
            else Ok ym') as [ym''|]; [|reflexivity].
  cbn [bind]. rewrite <- Hterms. reflexivity.
Qed.

Lemma STFTLoss_forward_nonpositive_weights_witness :
  STFTLoss_forward (example_loss (-1) (-2) false "loss" "mean")
    (Fixture.ones [1; 1; 8]%nat) (Fixture.ones [1; 1; 8]%nat)
  = STFTLoss_forward (example_loss 0 0 false "loss" "mean")
      (Fixture.ones [1; 1; 8]%nat) (Fixture.ones [1; 1; 8]%nat).
Proof.
  apply (STFTLoss_forward_nonpositive_weights
           (example_loss (-1) (-2) false "loss" "mean")); simpl; lra.
Defined.

(* ================================================================== *)
(** ** Further properties: scale invariance *)

Lemma Rsum_scale {A : Type} (c : R) (f : A -> R) (l : list A) :
  Rsum (map (fun a => c * f a) l) = c * Rsum (map f l).
Proof.
  induction l as [|a l IH]; [simpl; lra|].
  unfold Rsum in *. cbn [map fold_right]. rewrite IH. lra.
Qed.

(** The indices of a single batch element. *)
Lemma indices_single_batch (f t : nat) (jk : list nat) :
  In jk (indices [f; t]) -> In (0%nat :: jk) (indices [1%nat; f; t]).
Proof.
  intros H. cbn [indices seq flat_map]. rewrite app_nil_r.
  apply in_map. exact H.
Qed.

(** X8.  Scale invariance removes a gain, for a single batch element with
    at least one bin and one frame and an estimate that is positive
    throughout: when the target magnitude is [k] times the estimate,
    [k > 0], [alpha] is [1/k], the scaled target equals the estimate at
    every index, so it is positive there and its norm is positive, and both
    magnitude terms are zero. *)
Theorem STFTLoss_normalize_gain (x_mag y_mag : tensor R) (f t : nat) (k : R) :
  shape x_mag = [1%nat; f; t] -> shape y_mag = [1%nat; f; t] ->
  (0 < f)%nat -> (0 < t)%nat ->
  (forall i, In i (indices [1%nat; f; t]) -> 0 < at_ x_mag i) ->
  0 < k ->
  (forall i, In i (indices [1%nat; f; t]) -> at_ y_mag i = k * at_ x_mag i) ->
  batch_alpha x_mag y_mag f t 0 = / k /\
  exists y',
    STFTLoss_normalize x_mag y_mag = Ok y' /\
    shape y' = shape x_mag /\
    (forall i, In i (indices (shape x_mag)) ->
               at_ y' i = at_ x_mag i /\ 0 < at_ y' i) /\
    0 < norm_fro y' /\
    SpectralConvergenceLoss_forward x_mag y' = Ok 0 /\
    LogSTFTMagnitudeLoss_forward x_mag y' = Ok 0.
Proof.
  intros Hx Hy Hf Ht Hpos Hk Hgain.
  set (S := Rsum (map (fun jk => at_ x_mag (0%nat :: jk) ^ 2)
                    (indices [f; t]))).
  assert (HS : 0 < S).
  { unfold S. apply Rsum_pos.
    - intros Hnil. apply (f_equal (@List.length _)) in Hnil.
      rewrite length_indices in Hnil. cbn in Hnil. nia.
    - intros jk Hjk. apply pow_lt.
      apply Hpos, indices_single_batch, Hjk. }
  assert (Hnum : Rsum (map (fun jk => at_ x_mag (0%nat :: jk)
                                      * at_ y_mag (0%nat :: jk))
                         (indices [f; t])) = k * S).
  { unfold S. rewrite <- Rsum_scale. apply Rsum_ext_in. intros jk Hjk.
    rewrite (Hgain _ (indices_single_batch f t jk Hjk)). simpl. lra. }
  assert (Hden : Rsum (map (fun jk => at_ y_mag (0%nat :: jk) ^ 2)
                         (indices [f; t])) = k * k * S).
  { unfold S. rewrite <- Rsum_scale. apply Rsum_ext_in. intros jk Hjk.
    rewrite (Hgain _ (indices_single_batch f t jk Hjk)). simpl. lra. }
  assert (Halpha : batch_alpha x_mag y_mag f t 0 = / k).
  { unfold batch_alpha. rewrite Hnum, Hden. field. split; lra. }
  split; [exact Halpha|].
  destruct (STFTLoss_normalize_single_batch x_mag y_mag f t Hx Hy)
    as (y' & Hy' & Hs & Hat).
  assert (Hag : forall i, In i (indices (shape x_mag)) ->
                          at_ x_mag i = at_ y' i).
  { intros i Hi. rewrite Hx in Hi.
    pose proof (indices_in_range _ _ Hi) as Hr.
    inversion Hr as [|a d i1 s1 Ha Hr1]; subst.
    inversion Hr1 as [|j d i2 s2 Hj Hr2]; subst.
    inversion Hr2 as [|l d i3 s3 Hl Hr3]; subst.
    inversion Hr3; subst.
    assert (a = 0%nat) by lia. subst a.
    rewrite (Hat j l Hj Hl), (Hgain _ Hi), Halpha. field. lra. }
  exists y'. split; [exact Hy'|]. split; [congruence|]. split.
  { intros i Hi. rewrite <- (Hag i Hi). split; [reflexivity|].
    apply Hpos. rewrite <- Hx. exact Hi. }
  split.
  { apply norm_fro_positive.
    - rewrite Hs. cbn. nia.
    - intros i Hi. rewrite Hs, <- Hx in Hi. rewrite <- (Hag i Hi).
      apply Hpos. rewrite <- Hx. exact Hi. }
  split.
  - apply SpectralConvergenceLoss_agree; [congruence | exact Hag].
  - apply LogSTFTMagnitudeLoss_agree; [congruence | exact Hag].
Qed.

Lemma STFTLoss_normalize_gain_witness :
  batch_alpha (Fixture.ones [1; 3; 2]%nat)
    (tmap (fun v => 5 * v) (Fixture.ones [1; 3; 2]%nat)) 3 2 0 = / 5 /\
  exists y',
    STFTLoss_normalize (Fixture.ones [1; 3; 2]%nat)
      (tmap (fun v => 5 * v) (Fixture.ones [1; 3; 2]%nat)) = Ok y' /\
    0 < norm_fro y' /\
    SpectralConvergenceLoss_forward (Fixture.ones [1; 3; 2]%nat) y' = Ok 0 /\
    LogSTFTMagnitudeLoss_forward (Fixture.ones [1; 3; 2]%nat) y' = Ok 0.
Proof.
  destruct (STFTLoss_normalize_gain (Fixture.ones [1; 3; 2]%nat)
              (tmap (fun v => 5 * v) (Fixture.ones [1; 3; 2]%nat))
              3 2 5 eq_refl eq_refl ltac:(lia) ltac:(lia)
              (fun i _ => Rlt_0_1) ltac:(lra) (fun i _ => eq_refl))
    as (Halpha & y' & Hy' & _ & _ & Hnorm & Hsc & Hlog).
  split; [exact Halpha|].
  exists y'. repeat split; assumption.
Defined.

(* ================================================================== *)
(** ** Further properties: [MelSTFTLoss] and [ChromaSTFTLoss] *)

(** The terms of a loss whose real and imaginary weights are 0. *)
Lemma STFTLoss_terms_magnitude_only {L : Libs} (self : STFTLoss)
    (xm ym xr yr xi yi : tensor R) :
  w_real self = 0 -> w_imag self = 0 ->
  STFTLoss_terms self xm ym xr yr xi yi
  = (sc <- SpectralConvergenceLoss_forward xm ym ;;
     mag <- LogSTFTMagnitudeLoss_forward xm ym ;;
     Ok (w_sc self * sc + w_mag self * mag, sc, mag)).
Proof.
  intros Hr Hi. unfold STFTLoss_terms. rewrite Hr, Hi.
  destruct (SpectralConvergenceLoss_forward xm ym); [|reflexivity].
  destruct (LogSTFTMagnitudeLoss_forward xm ym); [|reflexivity].
  cbn [bind]. destruct (Rlt_dec 0 0); [lra | reflexivity].
Qed.

Lemma setup_filterbank_Ok {L : Libs}
    (make : Z -> Z -> Z -> option (tensor R))
    (sr : option Z) (fs : Z) (nb : option Z) (t : tensor R) :
  setup_filterbank make sr fs nb = Ok t ->
  exists rate n m,
    sr = Some rate /\ nb = Some n /\ (n <= fs)%Z /\
    make rate fs n = Some m /\ t = unsqueeze_first m.
Proof.
  unfold setup_filterbank. intros H.
  destruct sr as [rate|]; [|discriminate].
  destruct nb as [n|]; [|discriminate].
  destruct (Z.leb_spec n fs) as [Hle|]; [|discriminate].
  cbn [assert bind] in H.
  destruct (make rate fs n) as [m|] eqn:Hm; [|discriminate].
  cbn [lift bind] in H. injection H as <-.
  exists rate, n, m.
  split; [reflexivity|]. split; [reflexivity|]. split; [exact Hle|].
  split; [exact Hm | reflexivity].
Qed.

(** X9.  A mel or chroma loss that is constructed was given a sample rate
    and a number of bins not above [fft_size]; it holds the filterbank
    librosa made for them, so its scaling step is the two matrix products
    and never misses [fb]; and its total is [w_sc*sc_loss + w_mag*mag_loss],
    the real and imaginary parts taking no part. *)
Theorem MelSTFTLoss_ChromaSTFTLoss_init_scaled {L : Libs}
    (sr : option Z) (fs ss wl : Z) (win : string) (a b c : R)
    (nb : option Z) :
  (forall self,
     MelSTFTLoss_init sr fs ss wl win a b c nb = Ok self ->
     scale self = Some "mel" /\ scaled_loss librosa_mel sr fs nb self)
  /\
  (forall self,
     ChromaSTFTLoss_init sr fs ss wl win a b c nb = Ok self ->
     scale self = Some "chroma" /\ scaled_loss librosa_chroma sr fs nb self).
Proof.
  split; intros self H; pose proof H as Hf;
    apply STFTLoss_init_fields in Hf;
    destruct Hf as (_ & _ & _ & _ & _ & _ & Hr & Hi & _ & Hsc & _);
    (split; [exact Hsc|]);
    unfold MelSTFTLoss_init, ChromaSTFTLoss_init, STFTLoss_init in H;
    destruct (lift (AttributeError win) (torch_window win wl)) as [w|];
      try discriminate;
    cbn [bind scale_is String.eqb Ascii.eqb Bool.eqb] in H.
  - destruct (setup_filterbank librosa_mel sr fs nb) as [t|] eqn:Hs;
      [|discriminate].
    destruct (setup_filterbank_Ok _ _ _ _ _ Hs)
      as (rate & n & m & -> & -> & Hle & Hm & ->).
    cbn [bind] in H. injection H as <-.
    exists rate, n, m.
    split; [reflexivity|]. split; [reflexivity|]. split; [exact Hle|].
    split; [exact Hm|]. split; [reflexivity|]. split; [reflexivity|].
    intros. apply STFTLoss_terms_magnitude_only; reflexivity.
  - destruct (setup_filterbank librosa_chroma sr fs nb) as [t|] eqn:Hs;
      [|discriminate].
    destruct (setup_filterbank_Ok _ _ _ _ _ Hs)
      as (rate & n & m & -> & -> & Hle & Hm & ->).
    cbn [bind] in H. injection H as <-.
    exists rate, n, m.
    split; [reflexivity|]. split; [reflexivity|]. split; [exact Hle|].
    split; [exact Hm|]. split; [reflexivity|]. split; [reflexivity|].
    intros. apply STFTLoss_terms_magnitude_only; reflexivity.
Qed.

Lemma MelSTFTLoss_ChromaSTFTLoss_init_scaled_witness :
  exists self,
    @MelSTFTLoss_init Fixture.libs (Some 16000%Z) 4 1 4 "hann_window"
      1 1 0 (Some 3%Z) = Ok self /\
    scale self = Some "mel" /\
    scaled_loss Fixture.filterbank (Some 16000%Z) 4 (Some 3%Z) self.
Proof.
  eexists. split; [reflexivity|].
  apply (proj1 (@MelSTFTLoss_ChromaSTFTLoss_init_scaled Fixture.libs
                  (Some 16000%Z) 4 1 4 "hann_window" 1 1 0 (Some 3%Z))).
  reflexivity.
Defined.

(* ================================================================== *)
(** ** Further properties: [MultiResolutionSTFTLoss.__init__] *)

Section MultiResolutionInit.

Context {L : Libs}.

Variables (win : string) (a b c d e : R).
Variables (sr : option Z) (sc : option string) (nb : option Z) (si : bool).

Lemma MultiResolutionSTFTLoss_members_spec (rs : list (Z * Z * Z))
    (fsl : list STFTLoss) :
  MultiResolutionSTFTLoss_members rs win a b c d e sr sc nb si = Ok fsl ->
  map (fun f => (fft_size f, hop_size f, win_length f)) fsl = rs /\
  Forall (shared a b c d e sr sc nb si) fsl.
Proof.
  revert fsl. induction rs as [|[[fs ss] wl] rs IH]; intros fsl H.
  - injection H as <-. split; constructor.
  - cbn [MultiResolutionSTFTLoss_members] in H.
    destruct (STFTLoss_init fs ss wl win a b c d e sr sc nb si
                default_eps "loss" "mean") as [f|] eqn:Hf; [|discriminate].
    cbn [bind] in H.
    destruct (MultiResolutionSTFTLoss_members rs win a b c d e sr sc nb si)
      as [fsl'|]; [|discriminate].
    cbn [bind] in H. injection H as <-.
    destruct (IH fsl' eq_refl) as [Hm Hall].
    apply STFTLoss_init_fields in Hf.
    destruct Hf as (H1 & H2 & H3 & Hrest).
    split.
    + cbn [map]. rewrite H1, H2, H3, Hm. reflexivity.
    + constructor; [|exact Hall]. unfold shared. tauto.
Qed.

Lemma zip3_unzip (fss sss wls : list Z) :
  List.length fss = List.length sss ->
  List.length sss = List.length wls ->
  map (fun p => fst (fst p)) (zip3 fss sss wls) = fss /\
  map (fun p => snd (fst p)) (zip3 fss sss wls) = sss /\
  map (fun p => snd p) (zip3 fss sss wls) = wls.
Proof.
  revert sss wls. induction fss as [|x fss IH]; intros [|y sss] [|z wls];
    simpl; intros H1 H2; try discriminate; try (repeat split; reflexivity).
  destruct (IH sss wls) as (Ha & Hb & Hc); [lia | lia |].
  rewrite Ha, Hb, Hc. repeat split.
Qed.

End MultiResolutionInit.

Lemma MultiResolutionSTFTLoss_init_Ok {L : Libs}
    (fss sss wls : list Z) (win : string) (a b c d e : R)
    (sr : option Z) (sc : option string) (nb : option Z) (si : bool)
    (self : MultiResolutionSTFTLoss) :
  MultiResolutionSTFTLoss_init fss sss wls win a b c d e sr sc nb si
  = Ok self ->
  map fft_size (mr_stft_losses self) = fss /\
  map hop_size (mr_stft_losses self) = sss /\
  map win_length (mr_stft_losses self) = wls /\
  Forall (shared a b c d e sr sc nb si) (mr_stft_losses self).
Proof.
  unfold MultiResolutionSTFTLoss_init. intros H.
  destruct ((List.length fss =? List.length sss)%nat
            && (List.length sss =? List.length wls)%nat)%bool eqn:Hb;
    [|discriminate].
  apply andb_true_iff in Hb. destruct Hb as [H1 H2].
  apply Nat.eqb_eq in H1, H2. cbn [assert bind] in H.
  destruct (MultiResolutionSTFTLoss_members (zip3 fss sss wls) win
              a b c d e sr sc nb si) as [fsl|] eqn:Hm; [|discriminate].
  cbn [bind] in H. injection H as <-. cbn [mr_stft_losses].
  destruct (MultiResolutionSTFTLoss_members_spec _ _ _ _ _ _ _ _ _ _ _ _ Hm)
    as [Hmap Hall].
  destruct (zip3_unzip fss sss wls H1 H2) as (Ha & Hb & Hc).
  rewrite <- Hmap in Ha, Hb, Hc. rewrite map_map in Ha, Hb, Hc.
  cbn [fst snd] in Ha, Hb, Hc.
  repeat split; assumption.
Qed.

(** X10.  The constructor of the ensemble raises [AssertionError] when the
    three lists differ in length.  When it returns, the members are, in
    order, one loss per position, with the FFT size, hop size and window
    length of that position; all share the weights and scaling options
    given, and all have the default [eps], [output="loss"] and
    [reduction="mean"]. *)
Theorem MultiResolutionSTFTLoss_init_members {L : Libs}
    (fss sss wls : list Z) (win : string) (a b c d e : R)
    (sr : option Z) (sc : option string) (nb : option Z) (si : bool) :
  let init :=
    MultiResolutionSTFTLoss_init fss sss wls win a b c d e sr sc nb si in
  (List.length fss <> List.length sss \/ List.length sss <> List.length wls ->
   init = Raise AssertionError)
  /\
  (forall self, init = Ok self ->
     map fft_size (mr_stft_losses self) = fss /\
     map hop_size (mr_stft_losses self) = sss /\
     map win_length (mr_stft_losses self) = wls /\
     Forall (shared a b c d e sr sc nb si) (mr_stft_losses self)).
Proof.
  intros init. unfold init, MultiResolutionSTFTLoss_init. split.
  - intros Hne.
    assert (Hb : ((List.length fss =? List.length sss)%nat
                  && (List.length sss =? List.length wls)%nat)%bool = false).
    { apply andb_false_iff.
      destruct Hne as [Hne|Hne]; [left|right]; apply Nat.eqb_neq; exact Hne. }
    rewrite Hb. reflexivity.
  - intros self H. apply (MultiResolutionSTFTLoss_init_Ok _ _ _ _ _ _ _ _ _ _ _ _ _ _ H).
Qed.

Lemma MultiResolutionSTFTLoss_init_members_witness :
  @MultiResolutionSTFTLoss_init Fixture.libs [4%Z; 8%Z] [1%Z] [4%Z; 8%Z]
    "hann_window" 1 1 0 0 0 None None None false
  = Raise AssertionError /\
  exists self,
    @MultiResolutionSTFTLoss_init Fixture.libs [4%Z; 8%Z] [1%Z; 2%Z]
      [4%Z; 8%Z] "hann_window" 1 1 0 0 0 None None None false = Ok self /\
    map fft_size (mr_stft_losses self) = [4%Z; 8%Z].
Proof.
  split.
  - apply (proj1 (@MultiResolutionSTFTLoss_init_members Fixture.libs
                    [4%Z; 8%Z] [1%Z] [4%Z; 8%Z] "hann_window"
                    1 1 0 0 0 None None None false)).
    left. simpl. lia.
  - eexists. split; [reflexivity|].
    apply (proj2 (@MultiResolutionSTFTLoss_init_members Fixture.libs
                    [4%Z; 8%Z] [1%Z; 2%Z] [4%Z; 8%Z] "hann_window"
                    1 1 0 0 0 None None None false) _ eq_refl).
Defined.

(* ================================================================== *)
(** ** Further properties: what [forward] can raise *)

Lemma raises_only_Ok {A : Type} (P : exn -> Prop) (a : A) :
  raises_only P (Ok a).
Proof. intros e H. discriminate. Qed.

Lemma raises_only_Raise {A : Type} (P : exn -> Prop) (e : exn) :
  P e -> raises_only P (@Raise A e).
Proof. intros He e' H. injection H as <-. exact He. Qed.

Lemma raises_only_bind {A B : Type} (P : exn -> Prop)
    (m : result A) (k : A -> result B) :
  raises_only P m -> (forall a, raises_only P (k a)) ->
  raises_only P (bind m k).
Proof.
  intros Hm Hk e H. destruct m as [a|e']; simpl in H.
  - exact (Hk a e H).
  - apply (Hm e). congruence.
Qed.

Lemma raises_only_lift {A : Type} (P : exn -> Prop) (e : exn) (o : option A) :
  P e -> raises_only P (lift e o).
Proof.
  intros He. destruct o; [apply raises_only_Ok | apply raises_only_Raise, He].
Qed.

Lemma raises_only_broadcast2 {A B C : Type} (f : A -> B -> C)
    (a : tensor A) (b : tensor B) :
  raises_only torch_error (broadcast2 f a b).
Proof.
  unfold broadcast2. destruct (broadcast_shapes (shape a) (shape b)).
  - apply raises_only_Ok.
  - apply raises_only_Raise. unfold torch_error. auto.
Qed.

Lemma raises_only_sum_last2 (t : tensor R) :
  raises_only torch_error (sum_last2 t).
Proof.
  unfold sum_last2. destruct (rev (shape t)) as [|? [|? ?]];
    first [apply raises_only_Ok
          | apply raises_only_Raise; unfold torch_error; auto].
Qed.

Lemma raises_only_view_rows {A : Type} (t : tensor A) :
  raises_only torch_error (view_rows t).
Proof.
  unfold view_rows. destruct (rev (shape t)) as [|k ?].
  - apply raises_only_Raise. unfold torch_error. auto.
  - destruct (k =? 0)%nat;
      first [apply raises_only_Ok
            | apply raises_only_Raise; unfold torch_error; auto].
Qed.

(** Goes through the [bind]s of a computation of the loss terms. *)
Ltac torch_steps :=
  repeat first
    [ apply raises_only_Ok
    | apply raises_only_broadcast2
    | apply raises_only_sum_last2
    | apply raises_only_view_rows
    | apply raises_only_lift; unfold torch_error; auto; fail
    | apply raises_only_bind; [|intros ?]
    | match goal with
      | |- raises_only _ (let '(_, _) := ?p in _) => destruct p
      | |- raises_only _ (if ?b then _ else _) => destruct b
      | |- raises_only _ (match ?o with Some _ => _ | None => _ end) =>
          destruct o
      end ].

Section Raises.

Context {L : Libs}.

Lemma raises_only_metrics (a b : tensor R) :
  raises_only torch_error (SpectralConvergenceLoss_forward a b) /\
  raises_only torch_error (LogSTFTMagnitudeLoss_forward a b).
Proof.
  split.
  - unfold SpectralConvergenceLoss_forward. torch_steps.
  - unfold LogSTFTMagnitudeLoss_forward, l1_loss. torch_steps.
Qed.

Lemma raises_only_STFTLoss_losses (self : STFTLoss) (x y : tensor R) :
  raises_only torch_error (STFTLoss_losses self x y).
Proof.
  unfold STFTLoss_losses, STFTLoss_stft, STFTLoss_scale, STFTLoss_normalize,
    STFTLoss_alpha, STFTLoss_terms.
  torch_steps; try apply (proj1 (raises_only_metrics _ _));
    try apply (proj2 (raises_only_metrics _ _)).
Qed.

End Raises.

(** X11.  Whatever the signals and the configuration, [forward] ends in no
    other exception than those of the computation of the loss terms
    ([IndexError], [RuntimeError], the [AttributeError] of a missing [fb])
    and, only with [output="full"], the [NameError] of [phs_loss]; with
    [output="loss"] a raised exception is always one of the first three. *)
Theorem STFTLoss_forward_raises {L : Libs} (self : STFTLoss)
    (x y : tensor R) (e : exn) :
  STFTLoss_forward self x y = Raise e ->
  torch_error e \/ (e = NameError "phs_loss" /\ output self = "full").
Proof.
  unfold STFTLoss_forward. intros H.
  pose proof (raises_only_STFTLoss_losses self x y) as Hl.
  destruct (STFTLoss_losses self x y) as [[[l sc] mag]|e'].
  - cbn [bind] in H.
    destruct (output self =? "loss") eqn:Hloss; [discriminate|].
    destruct (output self =? "full") eqn:Hfull; [|discriminate].
    injection H as <-. right. split; [reflexivity|].
    apply String.eqb_eq. exact Hfull.
  - cbn [bind] in H. injection H as <-. left. apply Hl. reflexivity.
Qed.

Lemma STFTLoss_forward_raises_witness :
  torch_error RuntimeError \/
  (RuntimeError = NameError "phs_loss" /\
   output (example_loss 0 0 true "loss" "mean") = "full").
Proof.
  apply (STFTLoss_forward_raises (example_loss 0 0 true "loss" "mean")
           (Fixture.ones [2; 1; 8]%nat) (Fixture.ones [2; 1; 8]%nat)).
  unfold STFTLoss_forward.
  assert (H : STFTLoss_losses (example_loss 0 0 true "loss" "mean")
                (Fixture.ones [2; 1; 8]%nat) (Fixture.ones [2; 1; 8]%nat)
              = Raise RuntimeError).
  { destruct (STFTLoss_stft_shape (example_loss 0 0 true "loss" "mean")
                (Fixture.ones [2; 1; 8]%nat) [2; 3; 9]%nat eq_refl)
      as (xv & m & re & im & Hv & Hst & Hm & _).
    unfold STFTLoss_losses. rewrite Hv. cbn [bind]. rewrite Hst.
    cbn [bind STFTLoss_scale example_loss scale scale_invariance].
    rewrite (normalize_batch_mismatch m m 2 3 9) by (assumption || lia).
    reflexivity. }
  rewrite H. reflexivity.
Defined.

(** The loop over members that are all in ["loss"] mode raises only what
    the computation of the loss terms raises. *)
Lemma raises_only_accumulate {L : Libs} (fsl : list STFTLoss)
    (x y : tensor R) (acc : R) :
  Forall (fun f => output f = "loss") fsl ->
  raises_only torch_error (accumulate fsl x y acc).
Proof.
  intros Hall. revert acc.
  induction Hall as [|f fsl Hf _ IH]; intros acc; cbn [accumulate].
  - apply raises_only_Ok.
  - rewrite (STFTLoss_forward_output_loss f x y Hf).
    pose proof (raises_only_STFTLoss_losses f x y) as Hl.
    destruct (STFTLoss_losses f x y) as [[[l sc] mag]|e']; cbn [bind].
    + apply IH.
    + apply raises_only_Raise. apply (Hl e'). reflexivity.
Qed.

Lemma shared_output_loss {L : Libs} (a b c d e : R)
    (sr : option Z) (sc : option string) (nb : option Z) (si : bool)
    (fsl : list STFTLoss) :
  Forall (shared a b c d e sr sc nb si) fsl ->
  Forall (fun f => output f = "loss") fsl.
Proof.
  apply Forall_impl. intros f Hf. unfold shared in Hf. tauto.
Qed.

(** X12.  An ensemble is always called in ["loss"] mode, so its [forward]
    never ends in the [NameError] of [phs_loss] or in a [TypeError]: it
    raises only what the computation of a member's loss terms raises, or
    [ZeroDivisionError], and the latter exactly when the ensemble was built
    from empty lists, in which case no call returns. *)
Theorem MultiResolutionSTFTLoss_forward_raises {L : Libs}
    (fss sss wls : list Z) (win : string) (a b c d e : R)
    (sr : option Z) (sc : option string) (nb : option Z) (si : bool)
    (self : MultiResolutionSTFTLoss) (x y : tensor R) :
  MultiResolutionSTFTLoss_init fss sss wls win a b c d e sr sc nb si
  = Ok self ->
  (fss = [] ->
   MultiResolutionSTFTLoss_forward self x y = Raise ZeroDivisionError)
  /\
  (forall err, MultiResolutionSTFTLoss_forward self x y = Raise err ->
     torch_error err \/ (err = ZeroDivisionError /\ fss = [])).
Proof.
  intros Hinit.
  destruct (MultiResolutionSTFTLoss_init_Ok _ _ _ _ _ _ _ _ _ _ _ _ _ _ Hinit)
    as (Hfs & _ & _ & Hall).
  apply shared_output_loss in Hall.
  unfold MultiResolutionSTFTLoss_forward. split.
  - intros ->. destruct (mr_stft_losses self); [reflexivity | discriminate].
  - intros err H.
    pose proof (raises_only_accumulate (mr_stft_losses self) x y 0 Hall) as Ha.
    destruct (accumulate (mr_stft_losses self) x y 0) as [acc|e']; cbn [bind] in H.
    + unfold divide_by_len in H.
      destruct (mr_stft_losses self); [|discriminate].
      injection H as <-. right. split; [reflexivity|].
      symmetry. exact Hfs.
    + injection H as <-. left. apply Ha. reflexivity.
Qed.

Lemma MultiResolutionSTFTLoss_forward_raises_witness :
  exists self,
    @MultiResolutionSTFTLoss_init Fixture.libs [] [] [] "hann_window"
      1 1 0 0 0 None None None false = Ok self /\
    MultiResolutionSTFTLoss_forward self
      (Fixture.ones [1; 1; 8]%nat) (Fixture.ones [1; 1; 8]%nat)
    = Raise ZeroDivisionError.
Proof.
  eexists. split; [reflexivity|].
  apply (proj1 (@MultiResolutionSTFTLoss_forward_raises Fixture.libs
                  [] [] [] "hann_window" 1 1 0 0 0 None None None false
                  _ (Fixture.ones [1; 1; 8]%nat) (Fixture.ones [1; 1; 8]%nat)
                  eq_refl)).
  reflexivity.
Defined.

(* ================================================================== *)
(** ** Further properties: a signal against itself, in the ensembles *)

Lemma evaluate_members_identity {L : Libs} (fsl : list STFTLoss)
    (x : tensor R) :
  fsl <> [] ->
  Forall (fun f => STFTLoss_forward f x x = Ok (VTensor 0)) fsl ->
  evaluate_members fsl x x = Ok 0.
Proof.
  intros Hne Hall. unfold evaluate_members.
  rewrite (accumulate_sum fsl x x (map (fun _ => 0) fsl)).
  - cbn [bind]. unfold divide_by_len. destruct fsl; [contradiction|].
    f_equal. rewrite Rsum_zero by reflexivity. unfold Rdiv. ring.
  - clear Hne. induction Hall; constructor; assumption.
Qed.

Lemma shared_identity {L : Libs} (a b c d e : R)
    (sr : option Z) (nb : option Z) (fsl : list STFTLoss) (x : tensor R) :
  Forall (shared a b c d e sr None nb false) fsl ->
  Forall (fun f => exists s, spectrum_shape f x = Ok s) fsl ->
  Forall (fun f => STFTLoss_forward f x x = Ok (VTensor 0)) fsl.
Proof.
  intros Hsh. induction Hsh as [|f fsl Hf _ IH]; intros Hsp; [constructor|].
  inversion Hsp as [|f' fsl' [s Hs] Hrest]; subst.
  constructor; [|apply IH; exact Hrest].
  unfold shared in Hf.
  destruct Hf as (_ & _ & _ & _ & _ & _ & Hsc & _ & Hsi & _ & Hout & Hred).
  apply (STFTLoss_forward_identity f x s Hs Hsc Hsi); [|exact Hout].
  rewrite Hred. simpl. auto.
Qed.

(** X13.  An ensemble built without frequency scaling and without scale
    invariance, from at least one resolution, gives exactly zero for a
    signal against itself, as soon as every member computes the spectrum
    of the signal. *)
Theorem MultiResolutionSTFTLoss_forward_identity {L : Libs}
    (fss sss wls : list Z) (win : string) (a b c d e : R)
    (sr : option Z) (nb : option Z)
    (self : MultiResolutionSTFTLoss) (x : tensor R) :
  MultiResolutionSTFTLoss_init fss sss wls win a b c d e sr None nb false
  = Ok self ->
  fss <> [] ->
  Forall (fun f => exists s, spectrum_shape f x = Ok s)
    (mr_stft_losses self) ->
  MultiResolutionSTFTLoss_forward self x x = Ok 0.
Proof.
  intros Hinit Hne Hsp.
  destruct (MultiResolutionSTFTLoss_init_Ok _ _ _ _ _ _ _ _ _ _ _ _ _ _ Hinit)
    as (Hfs & _ & _ & Hall).
  apply (evaluate_members_identity (mr_stft_losses self) x).
  - intros Hnil. rewrite Hnil in Hfs. apply Hne. symmetry. exact Hfs.
  - apply (shared_identity a b c d e sr nb); assumption.
Qed.

Lemma MultiResolutionSTFTLoss_forward_identity_witness :
  exists self,
    @MultiResolutionSTFTLoss_init Fixture.libs [4%Z; 8%Z] [1%Z; 2%Z]
      [4%Z; 8%Z] "hann_window" 1 1 0 0 0 None None None false = Ok self /\
    MultiResolutionSTFTLoss_forward self
      (Fixture.ones [1; 1; 16]%nat) (Fixture.ones [1; 1; 16]%nat) = Ok 0.
Proof.
  eexists. split; [reflexivity|].
  apply (@MultiResolutionSTFTLoss_forward_identity Fixture.libs
           [4%Z; 8%Z] [1%Z; 2%Z] [4%Z; 8%Z] "hann_window" 1 1 0 0 0
           None None _ (Fixture.ones [1; 1; 16]%nat) eq_refl).
  - discriminate.
  - repeat constructor; eexists; reflexivity.
Defined.

(** X14.  The stereo loss of a two-channel signal against itself is zero
    (alone, or with its two zero terms when [output="full"]), as soon as
    the members compute the spectra of the sum and of the difference
    signal. *)
Theorem SumAndDifferenceSTFTLoss_forward_identity {L : Libs}
    (fss sss wls : list Z) (win : string) (ws wd : R) (out : string)
    (self : SumAndDifferenceSTFTLoss) (x x_sum x_diff : tensor R) :
  SumAndDifferenceSTFTLoss_init fss sss wls win ws wd out = Ok self ->
  fss <> [] ->
  SumAndDifference_forward x = Ok (x_sum, x_diff) ->
  Forall (fun f => (exists s, spectrum_shape f x_sum = Ok s) /\
                   (exists s, spectrum_shape f x_diff = Ok s))
    (mr_stft_losses (mrstft self)) ->
  SumAndDifferenceSTFTLoss_forward self x x
  = (if out =? "loss" then Ok (VTensor 0)
     else if out =? "full" then Ok (VTuple [0; 0; 0])
     else Ok VNone).
Proof.
  intros Hinit Hne Hsd Hsp.
  unfold SumAndDifferenceSTFTLoss_init in Hinit.
  destruct (MultiResolutionSTFTLoss_init fss sss wls win 1 1 0 0 0
              None None None false) as [mr|] eqn:Hmr; [|discriminate].
  cbn [bind] in Hinit. injection Hinit as <-. cbn [mrstft] in Hsp.
  assert (Hs : MultiResolutionSTFTLoss_forward mr x_sum x_sum = Ok 0).
  { destruct (MultiResolutionSTFTLoss_init_Ok _ _ _ _ _ _ _ _ _ _ _ _ _ _ Hmr)
      as (Hfs & _ & _ & Hall).
    apply (evaluate_members_identity (mr_stft_losses mr) x_sum).
    - intros Hnil. rewrite Hnil in Hfs. apply Hne. symmetry. exact Hfs.
    - apply (shared_identity 1 1 0 0 0 None None); [exact Hall|].
      revert Hsp. apply Forall_impl. tauto. }
  assert (Hd : MultiResolutionSTFTLoss_forward mr x_diff x_diff = Ok 0).
  { destruct (MultiResolutionSTFTLoss_init_Ok _ _ _ _ _ _ _ _ _ _ _ _ _ _ Hmr)
      as (Hfs & _ & _ & Hall).
    apply (evaluate_members_identity (mr_stft_losses mr) x_diff).
    - intros Hnil. rewrite Hnil in Hfs. apply Hne. symmetry. exact Hfs.
    - apply (shared_identity 1 1 0 0 0 None None); [exact Hall|].
      revert Hsp. apply Forall_impl. tauto. }
  unfold SumAndDifferenceSTFTLoss_forward.
  cbn [mrstft w_sum w_diff sd_output].
  rewrite Hsd. cbn [bind]. rewrite Hs. cbn [bind]. rewrite Hd. cbn [bind].
  replace ((1 * 0 + 1 * 0) / 2) with 0 by field. reflexivity.
Qed.

Lemma SumAndDifferenceSTFTLoss_forward_identity_witness :
  exists self,
    @SumAndDifferenceSTFTLoss_init Fixture.libs [4%Z] [1%Z] [4%Z]
      "hann_window" 5 7 "full" = Ok self /\
    SumAndDifferenceSTFTLoss_forward self
      (Fixture.ones [1; 2; 8]%nat) (Fixture.ones [1; 2; 8]%nat)
    = Ok (VTuple [0; 0; 0]).
Proof.
  eexists. split; [reflexivity|].
  refine (@SumAndDifferenceSTFTLoss_forward_identity Fixture.libs
            [4%Z] [1%Z] [4%Z] "hann_window" 5 7 "full" _
            (Fixture.ones [1; 2; 8]%nat) _ _ eq_refl _ eq_refl _).
  - discriminate.
  - repeat constructor; exists [1; 3; 9]%nat; reflexivity.
Defined.

(* ================================================================== *)
(** ** Further properties: the members of [RandomResolutionSTFTLoss] *)

(** Case analysis on the next draw or call of the goal. *)
Ltac next_draw :=
  match goal with
  | |- context [let (_, _) := ?p in _] =>
      lazymatch p with
      | context [match _ with _ => _ end] => fail
      | _ => destruct p eqn:?
      end
  | |- context [match lift ?e ?o with _ => _ end] => destruct o; cbn [lift]
  | |- context [match ?r with Ok _ => _ | Raise _ => _ end] =>
      lazymatch r with
      | context [match _ with _ => _ end] => fail
      | _ => destruct r eqn:?
      end
  end; cbn [fst snd].

Section Members.

Context {L : Libs}.

Lemma member_of_config (s s' : RandomResolutionSTFTLoss) (f : STFTLoss) :
  config s = config s' -> member_of s f -> member_of s' f.
Proof.
  destruct s, s'. unfold config, set_stft_losses. cbn.
  intros H. injection H as <- <- <- <- <- <- <- <- <- <- <- <- <- <- <- <-.
  unfold member_of. cbn. tauto.
Qed.

(** A loss that is sampled is a member. *)
Lemma sample_loss_member (w w1 : world) (f : STFTLoss) :
  sample_loss w = (Ok f, w1) -> member_of (fst w) f.
Proof.
  unfold sample_loss, bindM, get_self, draw, draw_total, pure.
  cbn [fst snd]. repeat next_draw; intros H; try discriminate H.
  injection H as Hi _.
  apply STFTLoss_init_fields in Hi.
  destruct Hi as (Hfs & _ & _ & H1 & H2 & H3 & H4 & H5 & H6 & H7 & H8
                  & H9 & H10 & H11 & H12).
  unfold member_of, shared. repeat split; assumption.
Qed.

Lemma randomize_loop_members (s0 : RandomResolutionSTFTLoss) (k : nat)
    (w : world) :
  config (fst w) = config s0 ->
  Forall (member_of s0) (stft_losses (fst w)) ->
  Forall (member_of s0) (stft_losses (fst (snd (randomize_loop k w)))).
Proof.
  revert w. induction k as [|k IH]; intros w Hc Hall; [exact Hall|].
  cbn [randomize_loop]. unfold bindM at 1.
  pose proof (sample_loss_self w) as Hs.
  destruct (sample_loss w) as [[f|e] w1] eqn:Hsample; cbn [fst snd] in *.
  - unfold bindM, get_self, put_self. cbn [fst snd].
    apply IH; cbn [fst].
    + rewrite config_set_stft_losses, Hs. exact Hc.
    + rewrite Hs. cbn [stft_losses set_stft_losses].
      apply Forall_app. split.
      * exact Hall.
      * constructor; [|constructor].
        apply (member_of_config (fst w) s0); [exact Hc|].
        apply (sample_loss_member w w1 f Hsample).
  - rewrite Hs. exact Hall.
Qed.

Lemma randomize_losses_members (w : world) :
  Forall (member_of (fst w)) (stft_losses (fst (snd (randomize_losses w)))).
Proof.
  unfold randomize_losses, bindM, get_self, put_self. cbn [fst snd].
  apply randomize_loop_members; cbn [fst].
  - apply config_set_stft_losses.
  - destruct (fst w). constructor.
Qed.

Lemma drawn_fft_size_config (s s' : RandomResolutionSTFTLoss) (f : STFTLoss) :
  config s = config s' -> drawn_fft_size s f -> drawn_fft_size s' f.
Proof.
  destruct s, s'. unfold config, set_stft_losses. cbn.
  intros H. injection H as <- <- <- <- <- <- <- <- <- <- <- <- <- <- <- <-.
  unfold drawn_fft_size. cbn. tauto.
Qed.

(** The FFT size of a loss that is sampled is [2 ** u] for the [u] drawn. *)
Lemma sample_loss_drawn (w w1 : world) (f : STFTLoss) :
  sample_loss w = (Ok f, w1) -> drawn_fft_size (fst w) f.
Proof.
  unfold sample_loss, bindM, get_self, draw, draw_total, pure.
  cbn [fst snd].
  destruct (np_randint (np_log2 (min_fft_size (fst w)))
              (np_log2 (max_fft_size (fst w))) (snd w)) as [[u|] g1] eqn:Hu;
    cbn [lift fst snd]; [|discriminate].
  repeat next_draw; intros H; try discriminate H.
  injection H as Hi _.
  apply STFTLoss_init_fields in Hi. destruct Hi as (Hfs & _).
  exists (snd w), u, g1. split; [exact Hu | exact Hfs].
Qed.

Lemma randomize_loop_drawn (s0 : RandomResolutionSTFTLoss) (k : nat)
    (w : world) :
  config (fst w) = config s0 ->
  Forall (drawn_fft_size s0) (stft_losses (fst w)) ->
  Forall (drawn_fft_size s0) (stft_losses (fst (snd (randomize_loop k w)))).
Proof.
  revert w. induction k as [|k IH]; intros w Hc Hall; [exact Hall|].
  cbn [randomize_loop]. unfold bindM at 1.
  pose proof (sample_loss_self w) as Hs.
  destruct (sample_loss w) as [[f|e] w1] eqn:Hsample; cbn [fst snd] in *.
  - unfold bindM, get_self, put_self. cbn [fst snd].
    apply IH; cbn [fst].
    + rewrite config_set_stft_losses, Hs. exact Hc.
    + rewrite Hs. cbn [stft_losses set_stft_losses].
      apply Forall_app. split.
      * exact Hall.
      * constructor; [|constructor].
        apply (drawn_fft_size_config (fst w) s0); [exact Hc|].
        apply (sample_loss_drawn w w1 f Hsample).
  - rewrite Hs. exact Hall.
Qed.

Lemma randomize_losses_drawn (w : world) :
  Forall (drawn_fft_size (fst w))
    (stft_losses (fst (snd (randomize_losses w)))).
Proof.
  unfold randomize_losses, bindM, get_self, put_self. cbn [fst snd].
  apply randomize_loop_drawn; cbn [fst].
  - apply config_set_stft_losses.
  - destruct (fst w). constructor.
Qed.

(** The loop appends at most one loss a pass. *)
Lemma randomize_loop_at_most (k : nat) (w : world) :
  (List.length (stft_losses (fst (snd (randomize_loop k w))))
   <= List.length (stft_losses (fst w)) + k)%nat.
Proof.
  revert w. induction k as [|k IH]; intros w; [simpl; lia|].
  cbn [randomize_loop]. unfold bindM at 1.
  pose proof (sample_loss_self w) as Hs.
  destruct (sample_loss w) as [[f|e] w1]; cbn [fst snd] in *.
  - unfold bindM, get_self, put_self. cbn [fst snd].
    etransitivity; [apply IH|]. cbn [fst]. rewrite Hs.
    destruct (fst w). cbn. rewrite length_app. simpl. lia.
  - rewrite Hs. lia.
Qed.

End Members.

(** X15.  Whether [randomize_losses] returns or raises half-way, the list
    it leaves is the one it leaves when the previous list is empty, and holds
    at most [resolutions] losses.  Each was built from the ensemble's own
    weights, sample rate, scale and number of bins, without scale invariance
    and with the default [eps], [output="loss"] and [reduction="mean"]; its
    FFT size is [2 ** u] for a [u] that [randint] returned on
    [log2(min_fft_size)] and [log2(max_fft_size)], so a power of two when
    [randint] returns no negative number on these bounds. *)
Theorem randomize_losses_members_fresh {L : Libs}
    (self : RandomResolutionSTFTLoss) (old : list STFTLoss) (g : rng) :
  let left :=
    stft_losses (fst (snd (randomize_losses (set_stft_losses self old, g)))) in
  left = stft_losses (fst (snd (randomize_losses (set_stft_losses self [], g))))
  /\ (List.length left <= Z.to_nat (resolutions self))%nat
  /\ Forall (member_of self) left
  /\ Forall (drawn_fft_size self) left
  /\ ((forall g0 u g1,
         np_randint (np_log2 (min_fft_size self))
           (np_log2 (max_fft_size self)) g0 = (Some u, g1) -> (0 <= u)%Z) ->
      Forall (fun f => power_of_two (fft_size f) /\ (1 <= fft_size f)%Z) left).
Proof.
  intros left.
  assert (Hdrawn : Forall (drawn_fft_size self) left).
  { pose proof (randomize_losses_drawn (set_stft_losses self old, g)) as H.
    revert H. apply Forall_impl. intros f.
    apply drawn_fft_size_config. cbn [fst]. apply config_set_stft_losses. }
  split; [|split; [|split; [|split]]].
  - unfold left. rewrite !randomize_losses_discards. reflexivity.
  - unfold left. rewrite randomize_losses_discards.
    unfold randomize_losses, bindM, get_self, put_self. cbn [fst snd].
    etransitivity; [apply randomize_loop_at_most|]. destruct self. cbn. lia.
  - pose proof (randomize_losses_members (set_stft_losses self old, g)) as H.
    revert H. apply Forall_impl. intros f.
    apply member_of_config. cbn [fst]. apply config_set_stft_losses.
  - exact Hdrawn.
  - intros Hnonneg. revert Hdrawn. apply Forall_impl.
    intros f (g0 & u & g1 & Hu & Hfs).
    pose proof (Hnonneg g0 u g1 Hu) as Hu0. split.
    + exists (Z.to_nat u). rewrite Z2Nat.id by exact Hu0. exact Hfs.
    + rewrite Hfs. pose proof (Z.pow_pos_nonneg 2 u ltac:(lia) Hu0). lia.
Qed.

Lemma randomize_losses_members_fresh_witness :
  stft_losses (fst (snd (randomize_losses example_fresh))) = [example_member]
  /\ Forall (fun f => power_of_two (fft_size f) /\ (1 <= fft_size f)%Z)
       (stft_losses (fst (snd (randomize_losses example_fresh)))).
Proof.
  split; [rewrite example_fresh_resampled; reflexivity|].
  refine (proj2 (proj2 (proj2 (proj2
            (@randomize_losses_members_fresh Fixture.libs
               (fst example_fresh)
               [example_loss 0 0 false "loss" "mean"] 0%nat)))) _).
  intros g0 u g1 Hu. injection Hu as <- _. lia.
Defined.

(* ================================================================== *)
(** ** Further properties: [RandomResolutionSTFTLoss.forward] *)

Section RandomForward.

Context {L : Libs}.

Lemma torch_error_not_name_error (e : exn) :
  torch_error e -> not_name_error e.
Proof. intros [->|[->| ->]] name H; discriminate. Qed.

Lemma STFTLoss_init_not_name_error
    (fs ss wl : Z) (win : string) (a b c d e : R)
    (sr : option Z) (sc : option string) (nb : option Z)
    (si : bool) (ep : R) (out red : string) :
  raises_only not_name_error
    (STFTLoss_init fs ss wl win a b c d e sr sc nb si ep out red).
Proof.
  unfold STFTLoss_init, setup_filterbank, assert.
  repeat first
    [ apply raises_only_Ok
    | apply raises_only_Raise; intros ? ?; discriminate
    | apply raises_only_lift; intros ? ?; discriminate
    | apply raises_only_bind; [|intros ?]
    | match goal with
      | |- raises_only _ (if ?b then _ else _) => destruct b
      | |- raises_only _ (match ?o with Some _ => _ | None => _ end) =>
          destruct o
      end ].
Qed.

Lemma sample_loss_not_name_error (w : world) (e : exn) :
  fst (sample_loss w) = Raise e -> not_name_error e.
Proof.
  unfold sample_loss, bindM, get_self, draw, draw_total, pure.
  cbn [fst snd].
  repeat next_draw; intros H; try discriminate H;
    try (injection H as <-; intros ? ?; discriminate).
  eapply STFTLoss_init_not_name_error. eassumption.
Qed.

Lemma randomize_loop_not_name_error (k : nat) (w : world) (e : exn) :
  fst (randomize_loop k w) = Raise e -> not_name_error e.
Proof.
  revert w. induction k as [|k IH]; intros w; [discriminate|].
  cbn [randomize_loop]. unfold bindM at 1.
  pose proof (sample_loss_not_name_error w) as Hs.
  destruct (sample_loss w) as [[f|e'] w1]; cbn [fst snd] in *.
  - unfold bindM, get_self, put_self. cbn [fst snd]. apply IH.
  - intros H. injection H as <-. apply (Hs e'). reflexivity.
Qed.

Lemma randomize_losses_not_name_error (w : world) (e : exn) :
  fst (randomize_losses w) = Raise e -> not_name_error e.
Proof.
  unfold randomize_losses, bindM, get_self, put_self. cbn [fst snd].
  apply randomize_loop_not_name_error.
Qed.

Lemma member_of_loss_mode (self : RandomResolutionSTFTLoss)
    (fsl : list STFTLoss) :
  Forall (member_of self) fsl -> Forall (fun f => output f = "loss") fsl.
Proof.
  apply Forall_impl. intros f Hsh. unfold member_of, shared in Hsh. tauto.
Qed.

Lemma randomize_losses_loss_mode (w : world) :
  loss_mode (snd (randomize_losses w)).
Proof.
  unfold loss_mode. apply (member_of_loss_mode (fst w)).
  apply randomize_losses_members.
Qed.

Lemma evaluate_members_not_name_error (fsl : list STFTLoss)
    (x y : tensor R) (e : exn) :
  Forall (fun f => output f = "loss") fsl ->
  evaluate_members fsl x y = Raise e -> not_name_error e.
Proof.
  intros Hall H. unfold evaluate_members in H.
  pose proof (raises_only_accumulate fsl x y 0 Hall) as Ha.
  destruct (accumulate fsl x y 0) as [acc|e']; cbn [bind] in H.
  - unfold divide_by_len in H. destruct fsl; [|discriminate].
    injection H as <-. intros name Hn. discriminate.
  - injection H as <-. apply torch_error_not_name_error.
    apply Ha. reflexivity.
Qed.

(** [forward] stops at its length check, leaving the world as it is, or
    goes on past it. *)
Lemma forward_rejected_or_checked (input target : tensor R) (w : world) :
  (exists e, RandomResolutionSTFTLoss_forward input target w = (Raise e, w)
             /\ not_name_error e)
  \/ RandomResolutionSTFTLoss_forward input target w
     = forward_checked input target w.
Proof.
  destruct (size_last input) as [n|e] eqn:Hin.
  - destruct (Z_le_gt_dec (Z.of_nat n) (max_fft_size (fst w))) as [Hn|Hn].
    + left. eexists. split.
      * apply (forward_short_input input target n w Hin Hn).
      * intros name H. discriminate.
    + destruct (size_last target) as [m|e] eqn:Htg.
      * destruct (Z_le_gt_dec (Z.of_nat m) (max_fft_size (fst w))) as [Hm|Hm].
        -- left. eexists. split.
           ++ apply (forward_short_target input target n m w Hin Htg);
                [lia | exact Hm].
           ++ intros name H. discriminate.
        -- right. apply (forward_long input target n m w Hin Htg); lia.
      * left. exists e. split.
        -- unfold RandomResolutionSTFTLoss_forward, bindM, get_self, pure.
           rewrite Hin. cbn [fst snd].
           assert (Hleb : (Z.of_nat n <=? max_fft_size (fst w))%Z = false)
             by (apply Z.leb_gt; lia).
           rewrite Hleb, Htg. reflexivity.
        -- unfold size_last in Htg.
           destruct (rev (shape target)); [|discriminate].
           injection Htg as <-. intros name H. discriminate.
  - left. exists e. split.
    + unfold RandomResolutionSTFTLoss_forward, bindM, get_self, pure.
      rewrite Hin. reflexivity.
    + unfold size_last in Hin.
      destruct (rev (shape input)); [|discriminate].
      injection Hin as <-. intros name H. discriminate.
Qed.

Lemma forward_checked_loss_mode (input target : tensor R) (w : world) :
  loss_mode w ->
  loss_mode (snd (forward_checked input target w)) /\
  forall e, fst (forward_checked input target w) = Raise e ->
            not_name_error e.
Proof.
  intros Hw. unfold forward_checked, due.
  destruct (randomize_rate (fst w) =? 0)%Z.
  { split; [exact Hw|]. cbn [fst]. intros e H. injection H as <-.
    intros name Hn. discriminate. }
  assert (Hgen : forall (rw : result unit * world),
            loss_mode (snd rw) ->
            (forall e, fst rw = Raise e -> not_name_error e) ->
            let out :=
              match fst rw with
              | Ok _ =>
                  match evaluate_members (stft_losses (fst (snd rw)))
                          input target with
                  | Ok loss =>
                      (Ok loss,
                       (set_nforwards (fst (snd rw))
                          (nforwards (fst (snd rw)) + 1)%Z,
                        snd (snd rw)))
                  | Raise e => (Raise e, snd rw)
                  end
              | Raise e => (@Raise R e, snd rw)
              end in
            loss_mode (snd out) /\
            forall e, fst out = Raise e -> not_name_error e).
  { intros [r w1] Hlm Hr. cbn [fst snd] in *.
    destruct r as [[]|e'].
    - pose proof (evaluate_members_not_name_error
                    (stft_losses (fst w1)) input target) as He.
      destruct (evaluate_members (stft_losses (fst w1)) input target)
        as [loss|e'']; cbn [fst snd].
      + split; [exact Hlm | discriminate].
      + split; [exact Hlm|]. intros e H. injection H as <-.
        apply He; [exact Hlm | reflexivity].
    - cbn [fst snd]. split; [exact Hlm|].
      intros e H. apply Hr. congruence. }
  destruct (nforwards (fst w) mod randomize_rate (fst w) =? 0)%Z.
  - apply (Hgen (randomize_losses w)).
    + apply randomize_losses_loss_mode.
    + apply randomize_losses_not_name_error.
  - apply (Hgen (Ok tt, w)); [exact Hw | discriminate].
Qed.

End RandomForward.

(** X16.  The ensemble keeps all its members in ["loss"] mode: this holds
    when the constructor returns, and every call, returning or raising,
    keeps it.  So a call to [forward] never ends in a [NameError], the
    exception of the single-resolution loss in ["full"] mode. *)
Theorem RandomResolutionSTFTLoss_loss_mode_kept {L : Libs} :
  (forall resolutions min_fft_size max_fft_size min_hop_size max_hop_size
          windows w_sc w_mag w_phs w_real w_imag sample_rate scale n_mels
          randomize_rate g self g',
     RandomResolutionSTFTLoss_init resolutions min_fft_size max_fft_size
       min_hop_size max_hop_size windows w_sc w_mag w_phs w_real w_imag
       sample_rate scale n_mels randomize_rate g = (Ok self, g') ->
     loss_mode (self, g'))
  /\
  (forall input target (w : world),
     loss_mode w ->
     loss_mode (snd (RandomResolutionSTFTLoss_forward input target w)) /\
     forall e, fst (RandomResolutionSTFTLoss_forward input target w) = Raise e ->
               not_name_error e).
Proof.
  split.
  - intros resolutions min_fft_size max_fft_size min_hop_size max_hop_size
      windows w_sc w_mag w_phs w_real w_imag sample_rate scale n_mels
      randomize_rate g self g' Hinit.
    unfold RandomResolutionSTFTLoss_init in Hinit.
    match type of Hinit with
    | context [randomize_losses ?w0] =>
        pose proof (randomize_losses_loss_mode w0) as Hlm;
        destruct (randomize_losses w0) as [[[]|e] [self1 g1]]
    end; [|discriminate].
    injection Hinit as <- <-. exact Hlm.
  - intros input target w Hw.
    destruct (forward_rejected_or_checked input target w)
      as [(e & -> & He) | ->].
    + split; [exact Hw|]. cbn [fst]. intros e' H. injection H as <-. exact He.
    + apply forward_checked_loss_mode. exact Hw.
Qed.

Lemma RandomResolutionSTFTLoss_loss_mode_kept_witness :
  loss_mode example_ensemble /\
  loss_mode (snd (RandomResolutionSTFTLoss_forward
                    (Fixture.ones [1; 1; 8]%nat) (Fixture.ones [1; 1; 8]%nat)
                    example_ensemble)).
Proof.
  assert (H : loss_mode example_ensemble) by (repeat constructor).
  split; [exact H|].
  apply (proj2 (@RandomResolutionSTFTLoss_loss_mode_kept Fixture.libs)
           (Fixture.ones [1; 1; 8]%nat) (Fixture.ones [1; 1; 8]%nat)
           example_ensemble H).
Defined.

(** X17.  Two settings that make every accepted call raise
    [ZeroDivisionError]: with [randomize_rate = 0] the remainder raises
    before anything is touched, so the ensemble is left as it was; with
    [resolutions] not positive, a call at which resampling is due clears the
    member list, draws nothing, and raises on the division by the number of
    members, without counting the call. *)
Theorem RandomResolutionSTFTLoss_forward_degenerate {L : Libs}
    (input target : tensor R) (n m : nat) (w : world) :
  size_last input = Ok n -> size_last target = Ok m ->
  (max_fft_size (fst w) < Z.of_nat n)%Z ->
  (max_fft_size (fst w) < Z.of_nat m)%Z ->
  (randomize_rate (fst w) = 0%Z ->
   RandomResolutionSTFTLoss_forward input target w
   = (Raise ZeroDivisionError, w))
  /\
  (randomize_rate (fst w) <> 0%Z ->
   (nforwards (fst w) mod randomize_rate (fst w) = 0)%Z ->
   (resolutions (fst w) <= 0)%Z ->
   RandomResolutionSTFTLoss_forward input target w
   = (Raise ZeroDivisionError, (set_stft_losses (fst w) [], snd w))).
Proof.
  intros Hin Htg Hn Hm.
  rewrite (forward_long input target n m w Hin Htg Hn Hm).
  unfold forward_checked, due. split.
  - intros ->. reflexivity.
  - intros Hrate Hdue Hres.
    apply Z.eqb_neq in Hrate. rewrite Hrate.
    apply Z.eqb_eq in Hdue. rewrite Hdue.
    unfold randomize_losses, bindM, get_self, put_self. cbn [fst snd].
    assert (Hz : Z.to_nat (resolutions (fst w)) = 0%nat)
      by (clear - Hres; lia).
    rewrite Hz. reflexivity.
Qed.

Lemma RandomResolutionSTFTLoss_forward_degenerate_witness :
  RandomResolutionSTFTLoss_forward
    (Fixture.ones [1; 1; 8]%nat) (Fixture.ones [1; 1; 8]%nat)
    example_degenerate
  = (Raise ZeroDivisionError,
     (set_stft_losses (fst example_degenerate) [], 0%nat)).
Proof.
  apply (proj2 (@RandomResolutionSTFTLoss_forward_degenerate Fixture.libs
                  (Fixture.ones [1; 1; 8]%nat) (Fixture.ones [1; 1; 8]%nat)
                  8 8 example_degenerate eq_refl eq_refl
                  ltac:(simpl; lia) ltac:(simpl; lia)));
    simpl; first [lia | reflexivity].
Defined.

(* ================================================================== *)
(** ** Further properties: a common gain *)

(** The norm of a tensor that is [k] times another, element by element. *)
Lemma norm_fro_scale (a b : tensor R) (k : R) :
  0 <= k -> shape a = shape b ->
  (forall i, at_ a i = k * at_ b i) ->
  norm_fro a = k * norm_fro b.
Proof.
  intros Hk Hs Hab. unfold norm_fro, elements. rewrite !map_map, Hs.
  assert (Hsum : Rsum (map (fun i => at_ a i ^ 2) (indices (shape b)))
                 = (k * k) * Rsum (map (fun i => at_ b i ^ 2)
                                     (indices (shape b)))).
  { rewrite <- Rsum_scale. apply Rsum_ext_in. intros i _.
    rewrite Hab. simpl. ring. }
  rewrite Hsum, sqrt_mult.
  - rewrite sqrt_square by exact Hk. reflexivity.
  - apply Rmult_le_pos; exact Hk.
  - apply Rsum_squares_nonneg.
Qed.

(** X18.  Multiplying estimate and target by one positive gain changes
    neither metric: the spectral convergence is a ratio of norms, and the
    log-magnitude distance, on positive spectra, a difference of
    logarithms. *)
Theorem metrics_common_gain (x_mag y_mag : tensor R) (k : R) :
  0 < k ->
  SpectralConvergenceLoss_forward
    (tmap (Rmult k) x_mag) (tmap (Rmult k) y_mag)
  = SpectralConvergenceLoss_forward x_mag y_mag
  /\
  ((forall i, 0 < at_ x_mag i) -> (forall i, 0 < at_ y_mag i) ->
   LogSTFTMagnitudeLoss_forward
     (tmap (Rmult k) x_mag) (tmap (Rmult k) y_mag)
   = LogSTFTMagnitudeLoss_forward x_mag y_mag).
Proof.
  intros Hk. split.
  - unfold SpectralConvergenceLoss_forward, broadcast2. cbn [shape tmap].
    destruct (broadcast_shapes (shape y_mag) (shape x_mag)) as [s|];
      [|reflexivity].
    cbn [bind]. f_equal.
    rewrite (norm_fro_scale
               (mk_tensor s (fun i =>
                  at_ (tmap (Rmult k) y_mag) (operand_index (shape y_mag) i)
                  - at_ (tmap (Rmult k) x_mag) (operand_index (shape x_mag) i)))
               (mk_tensor s (fun i =>
                  at_ y_mag (operand_index (shape y_mag) i)
                  - at_ x_mag (operand_index (shape x_mag) i)))
               k);
      [| lra | reflexivity | intros i; cbn [at_ tmap]; ring].
    rewrite (norm_fro_scale (tmap (Rmult k) y_mag) y_mag k);
      [| lra | reflexivity | intros i; reflexivity].
    destruct (Req_dec (norm_fro y_mag) 0) as [Hz|Hnz].
    + rewrite Hz, Rmult_0_r. unfold Rdiv. rewrite Rinv_0. ring.
    + field. split; [exact Hnz | lra].
  - intros Hx Hy. unfold LogSTFTMagnitudeLoss_forward, l1_loss, broadcast2.
    cbn [shape tmap].
    destruct (broadcast_shapes (shape x_mag) (shape y_mag)) as [s|];
      [|reflexivity].
    cbn [bind]. f_equal. unfold mean_all, sum_all, elements.
    cbn [shape at_]. f_equal. apply Rsum_ext_in. intros i _.
    unfold tmap. cbn [at_ shape].
    rewrite !ln_mult by (exact Hk || apply Hx || apply Hy).
    f_equal. ring.
Qed.

Lemma metrics_common_gain_witness :
  SpectralConvergenceLoss_forward
    (tmap (Rmult 3) two_by_two) (tmap (Rmult 3) (Fixture.ones [2; 2; 1]%nat))
  = SpectralConvergenceLoss_forward two_by_two (Fixture.ones [2; 2; 1]%nat).
Proof.
  apply (proj1 (metrics_common_gain two_by_two
                  (Fixture.ones [2; 2; 1]%nat) 3 ltac:(lra))).
Defined.
